(** * BigFloat.js: arbitrary-precision binary floating point over BigInt

    A shallow embedding of [src/src/BigFloat.js].  The development has
    three layers, following the source:

    - host numbers: the IEEE-754 doubles of JavaScript are Rocq's primitive
      binary64 floats, so [Math.ceil((p + 1) * 3.321928094887362)] and the
      double seed of the Newton iteration evaluate exactly as in the host;
    - methods of [BigFloat.prototype] that touch only [this]
      ([_bitlength], [_normalizeBits], [_compact], [_normalize],
      [_fromNumber], [toNumber]): functions from the record of [this] to
      its new record (and the returned value);
    - the static functions ([BigFloat.add], [BigFloat.mul], ...), which
      receive references: they run in a state monad over the store of
      allocated objects and the two process-wide defaults, and may throw.

    The decimal parser, the formatter and the transcendental series are
    outside this development; operands are BigFloat objects already.
    The performance counters ([BigFloatStat]) and timers are left out.

    Two limits of the host are not part of the embedding: the exponent
    of an object is a Number in the source and an integer of [Z] here,
    so that sums of exponents do not round beyond [2^53]; and a BigInt
    shift, product or sum is always defined here, where the host throws
    a RangeError beyond its maximum BigInt size.  The embedding is the
    code on operands within these limits ([within_host], [alignable]);
    the properties that depend on exponent arithmetic or on a shift by
    an exponent-sized distance say so in their hypotheses.

    The properties come after the embedding: the bit length, the rounding
    of [_normalize], the special values of [add], [mul] and [div], the
    results of the operations on concrete operands, and which operations
    throw; then the error bounds of [_normalize], the integer-part
    functions, the order decided by [less] and [cmp], the exact sum,
    difference and product behind [add], [sub] and [mul] (objects are
    read as rationals), what each operation leaves of the store, and the
    predicates. *)

From Stdlib Require Import ZArith QArith Qpower Floats Lia Bool String.
From stdpp Require Import base list.

Local Open Scope Z_scope.

(** ** Host numbers (IEEE-754 binary64) *)

Module Number.

(** [Number(z)] for a BigInt [z], and an integer operand of a double
    operation: round to nearest, ties to even. *)
Definition of_Z (z : Z) : float :=
  SF2Prim (binary_normalize prec emax z 0 false).

Definition isFinite (f : float) : bool := is_finite f.
Definition isNaN (f : float) : bool := is_nan f.

(** [Number.isInteger(f)]. *)
Definition isInteger (f : float) : bool :=
  match Prim2SF f with
  | S754_zero _ => true
  | S754_finite _ m e =>
      if 0 <=? e then true else Z.pos m mod 2 ^ (- e) =? 0
  | _ => false
  end.

(** The exact value of a finite double, rounded towards minus
    infinity. *)
Definition floor_of (f : float) : Z :=
  match Prim2SF f with
  | S754_finite s m e =>
      let v := if s then Z.neg m else Z.pos m in
      if 0 <=? e then Z.shiftl v e else v / 2 ^ (- e)
  | _ => 0
  end.

(** [Number.MAX_VALUE]. *)
Definition MAX_VALUE : float := 0x1.fffffffffffffp+1023%float.

(** [BigInt(f)] for an integer-valued double [f]. *)
Definition to_BigInt (f : float) : Z := floor_of f.

End Number.

Module Math.

(** [Math.ceil(f)], as an integer. *)
Definition ceil (f : float) : Z := - Number.floor_of (- f)%float.

(** [Math.round(f)]: the nearest integer, ties towards plus infinity,
    that is the floor of [f + 1/2] computed without rounding error. *)
Definition round (f : float) : Z :=
  match Prim2SF f with
  | S754_finite s m e =>
      let v := if s then Z.neg m else Z.pos m in
      if 0 <=? e then Z.shiftl v e
      else (2 * v + 2 ^ (- e)) / 2 ^ (- e + 1)
  | _ => 0
  end.

(** [Math.sign(f) || 1]: [Math.sign] is 0, -0 or NaN exactly when it is
    falsy. *)
Definition sign_or_1 (f : float) : Z := if (f <? 0)%float then -1 else 1.

(** [Math.pow(2, e)] for an integer [e]. *)
Definition pow2 (e : Z) : float := Z.ldexp one e.

(** [Math.log2(10)]: the double 0x1.a934f0979a371p+1, which is also the
    double denoted by the literal 3.321928094887362 of [_normalize]. *)
Definition log2_10 : float := 0x1.a934f0979a371p+1%float.

End Math.

(** ** The number object *)

Inductive special := SPECIAL_NONE | SPECIAL_ZERO | SPECIAL_INF | SPECIAL_NAN.

#[global] Instance special_eq_dec : EqDecision special.
Proof. solve_decision. Defined.

(** [if (a._special)]: SPECIAL_NONE is 0. *)
Definition truthy (s : special) : bool :=
  match s with SPECIAL_NONE => false | _ => true end.

Definition ROUNDING_NEAREST : Z := 0.
Definition ROUNDING_UP : Z := 1.
Definition ROUNDING_DOWN : Z := 2.
Definition ROUNDING_ZERO : Z := 3.

(** The fields of an object.  [_exponent], [_precision], [_rounding] and
    [_bits] are Numbers that hold integers, [_significand] is a BigInt;
    both are integers of [Z] here (see the range of the host, below). *)
Record BigFloat := mkBigFloat {
  _sign : Z;              (* +1 or -1 *)
  _exponent : Z;          (* power of 2 *)
  _significand : Z;       (* BigInt *)
  _precision : Z;         (* decimal digits of the fraction *)
  _rounding : Z;          (* rounding mode *)
  _special : special;
  _bits : Z               (* remembered bit length *)
}.

Definition set_sign (v : Z) (x : BigFloat) : BigFloat :=
  mkBigFloat v (_exponent x) (_significand x) (_precision x) (_rounding x)
    (_special x) (_bits x).
Definition set_exponent (v : Z) (x : BigFloat) : BigFloat :=
  mkBigFloat (_sign x) v (_significand x) (_precision x) (_rounding x)
    (_special x) (_bits x).
Definition set_significand (v : Z) (x : BigFloat) : BigFloat :=
  mkBigFloat (_sign x) (_exponent x) v (_precision x) (_rounding x)
    (_special x) (_bits x).
Definition set_precision (v : Z) (x : BigFloat) : BigFloat :=
  mkBigFloat (_sign x) (_exponent x) (_significand x) v (_rounding x)
    (_special x) (_bits x).
Definition set_rounding (v : Z) (x : BigFloat) : BigFloat :=
  mkBigFloat (_sign x) (_exponent x) (_significand x) (_precision x) v
    (_special x) (_bits x).
Definition set_special (v : special) (x : BigFloat) : BigFloat :=
  mkBigFloat (_sign x) (_exponent x) (_significand x) (_precision x)
    (_rounding x) v (_bits x).
Definition set_bits (v : Z) (x : BigFloat) : BigFloat :=
  mkBigFloat (_sign x) (_exponent x) (_significand x) (_precision x)
    (_rounding x) (_special x) v.

(** ** Methods of the prototype that touch only [this] *)

(** [n.toString(16).length] and [parseInt(hex[0], 16)] of a BigInt [n]
    other than 0; a negative [n] prints with a leading minus, which
    [parseInt] reads as NaN. *)
Definition hex_digits (n : Z) : Z := Z.log2 n / 4 + 1.
Definition hexLen (n : Z) : Z :=
  if n <? 0 then 1 + hex_digits (- n) else hex_digits n.
Definition firstDigit (n : Z) : option Z :=
  if n <? 0 then None else Some (n / 16 ^ (hex_digits n - 1)).

Definition _bitlength (forced : bool) (this : BigFloat) : Z * BigFloat :=
  let n := _significand this in
  if n =? 0 then (0, set_bits 0 this)
  else
    let this := if forced then set_bits (-1) this else this in
    if 0 <? _bits this then (_bits this, this)
    else
      let firstDigitBits :=
        match firstDigit n with
        | Some d =>
            if 8 <=? d then 4 else if 4 <=? d then 3
            else if 2 <=? d then 2 else 1
        | None => 1
        end in
      let bits := (hexLen n - 1) * 4 + firstDigitBits in
      (bits, set_bits bits this).

Definition _normalizeBits (this : BigFloat) : BigFloat :=
  if _significand this =? 0 then
    set_bits 0 (set_significand 0 (set_exponent 0 (set_sign 1
      (set_special SPECIAL_ZERO this))))
  else
    let '(bitlen, this) := _bitlength true this in
    set_special SPECIAL_NONE
      (set_exponent (_exponent this + (bitlen - 1)) this).

(** The loop of [_compact]: shift out the trailing zero bits of a
    positive significand, counting them. *)
Fixpoint compact_loop (p : positive) (bits : Z) : positive * Z :=
  match p with
  | xO q => compact_loop q (bits + 1)
  | _ => (p, bits)
  end.

Definition _compact (this : BigFloat) : BigFloat :=
  let '(sig, bits) :=
    match _significand this with
    | Z.pos p => let '(q, bits) := compact_loop p 0 in (Z.pos q, bits)
    | s => (s, 0)
    end in
  let this := set_bits (_bits this - bits) (set_significand sig this) in
  if sig =? 0 then set_special SPECIAL_ZERO this else this.

(** [Math.ceil((precision + 1) * 3.321928094887362)]. *)
Definition targetBits (precision : Z) : Z :=
  Math.ceil (Number.of_Z (precision + 1) * Math.log2_10)%float.

(** The rounding decision of [_normalize], taken after the shift:
    [sig] is the significand already shifted right. *)
Definition roundUp (rounding sign droppedBits bitsToRemove sig : Z) : bool :=
  let halfWay := Z.shiftl 1 (bitsToRemove - 1) in
  if rounding =? ROUNDING_NEAREST then
    let firstDroppedBit := Z.shiftl 1 (bitsToRemove - 1) in
    negb (Z.land droppedBits firstDroppedBit =? 0)
  else if rounding =? ROUNDING_UP then
    if 0 <? sign then 0 <? droppedBits else false
  else if rounding =? ROUNDING_DOWN then
    if sign <? 0 then 0 <? droppedBits else false
  else if rounding =? ROUNDING_ZERO then false
  else
    (halfWay <? droppedBits)
    || ((droppedBits =? halfWay) && (Z.land sig 1 =? 1)).

Definition _normalize (this : BigFloat) : BigFloat :=
  let targetBits := targetBits (_precision this) in
  let '(currentBits, this) := _bitlength false this in
  if currentBits <=? targetBits then
    set_special
      (if _significand this =? 0 then SPECIAL_ZERO else SPECIAL_NONE) this
  else
    let bitsToRemove := currentBits - targetBits in
    let mask := Z.shiftl 1 bitsToRemove - 1 in
    let droppedBits := Z.land (_significand this) mask in
    let this :=
      set_significand (Z.shiftr (_significand this) bitsToRemove) this in
    let this := set_bits targetBits this in
    let this :=
      if roundUp (_rounding this) (_sign this) droppedBits bitsToRemove
           (_significand this)
      then
        let this := set_significand (_significand this + 1) this in
        let isPowerOf2 :=
          Z.land (_significand this) (_significand this - 1) =? 0 in
        if isPowerOf2 && (Z.shiftl 1 targetBits <? _significand this) then
          set_bits targetBits
            (set_exponent (_exponent this + 1)
               (set_significand (Z.shiftr (_significand this) 1) this))
        else set_bits targetBits this
      else this in
    set_special
      (if _significand this =? 0 then SPECIAL_ZERO else SPECIAL_NONE) this.

(** [_fromNumber(num)], called by the constructor on the fresh [this]. *)
Definition _fromNumber (num : float) (this : BigFloat) : BigFloat :=
  if negb (Number.isFinite num) then
    set_bits 0
      (set_sign (Math.sign_or_1 num)
         (set_special
            (if Number.isNaN num then SPECIAL_NAN else SPECIAL_INF) this))
  else if (num =? 0)%float then
    set_bits 0 (set_significand 0 (set_exponent 0 (set_sign 1
      (set_special SPECIAL_ZERO this))))
  else
    let this := set_sign (if (num <? 0)%float then -1 else 1) this in
    let num := PrimFloat.abs num in
    if Number.isInteger num then
      _normalizeBits
        (set_special SPECIAL_NONE
           (set_exponent 0
              (set_significand (Number.to_BigInt num) this)))
    else
      let scaled := (num * Math.pow2 52)%float in
      let scaledInt := Math.round scaled in
      let this := set_significand scaledInt this in
      let '(bitlen, this) := _bitlength false this in
      let this := set_exponent (-52 + bitlen - 1) this in
      _normalize (_compact this).

(** [toNumber()]: the value and the new state of [this] (the remembered
    bit length may be filled in). *)
Definition toNumber (this : BigFloat) : float * BigFloat :=
  match _special this with
  | SPECIAL_NAN => (nan, this)
  | SPECIAL_INF =>
      (if 0 <? _sign this then infinity else neg_infinity, this)
  | _ =>
      if bool_decide (_special this = SPECIAL_ZERO) || (_significand this =? 0)
      then (if 0 <? _sign this then zero else neg_zero, this)
      else
        let '(bitLen, this) := _bitlength false this in
        let shift := Z.max 0 (bitLen - 53) in
        let mantissa := Number.of_Z (Z.shiftr (_significand this) shift) in
        let mantissaBits := bitLen - shift in
        let effectiveExponent := _exponent this - mantissaBits + 1 in
        if 1023 <? effectiveExponent then
          (if 0 <? _sign this then infinity else neg_infinity, this)
        else if effectiveExponent <? -1074 then
          (if 0 <? _sign this then zero else neg_zero, this)
        else
          let result := (mantissa * Math.pow2 effectiveExponent)%float in
          (if 0 <? _sign this then result else (- result)%float, this)
  end.

(** [isInteger()].  The mask [1n << BigInt(fracBits)] is defined for
    every [fracBits] here (see the range of the host). *)
Definition isInteger (this : BigFloat) : bool * BigFloat :=
  match _special this with
  | SPECIAL_NAN | SPECIAL_INF => (false, this)
  | _ =>
      if bool_decide (_special this = SPECIAL_ZERO) || (_significand this =? 0)
      then (true, this)
      else
        let '(bitLength, this) := _bitlength false this in
        let fracBits := (bitLength - 1) - _exponent this in
        if fracBits <=? 0 then (true, this)
        else
          let mask := Z.shiftl 1 fracBits - 1 in
          (Z.land (_significand this) mask =? 0, this)
  end.

(** The other predicates of the prototype. *)
Definition isNaN (this : BigFloat) : bool :=
  bool_decide (_special this = SPECIAL_NAN).
Definition isFinite (this : BigFloat) : bool :=
  bool_decide (_special this = SPECIAL_NONE)
  || bool_decide (_special this = SPECIAL_ZERO).
Definition isInfinite (this : BigFloat) : bool :=
  bool_decide (_special this = SPECIAL_INF).
Definition isZero (this : BigFloat) : bool :=
  bool_decide (_special this = SPECIAL_ZERO) || (_significand this =? 0).
Definition isPositive (this : BigFloat) : bool :=
  if bool_decide (_special this = SPECIAL_NAN) then false
  else if bool_decide (_special this = SPECIAL_ZERO)
          || (_significand this =? 0) then false
  else 0 <? _sign this.
Definition isNegative (this : BigFloat) : bool :=
  if bool_decide (_special this = SPECIAL_NAN) then false
  else if bool_decide (_special this = SPECIAL_ZERO)
          || (_significand this =? 0) then false
  else _sign this <? 0.
Definition isEven (this : BigFloat) : bool * BigFloat :=
  let '(int, this) := isInteger this in
  if negb int then (false, this)
  else if isZero this then (true, this)
  else (Z.land (_significand this) 1 =? 0, this).
Definition isOdd (this : BigFloat) : bool * BigFloat :=
  let '(int, this) := isInteger this in
  if negb int then (false, this)
  else if isZero this then (false, this)
  else (Z.land (_significand this) 1 =? 1, this).


(** ** The store of objects and the process-wide defaults *)

Inductive error :=
  | RangeError (msg : string)
  | TypeError (msg : string)
  | Error (msg : string).

Inductive outcome (A : Type) :=
  | Ret (a : A)
  | Throw (e : error)
  | OutOfFuel.
Arguments Ret {A} a.
Arguments Throw {A} e.
Arguments OutOfFuel {A}.

(** A reference to a BigFloat object: its index in the store. *)
Abbreviation loc := nat (only parsing).

Record world := mkWorld {
  objects : list BigFloat;
  defaultPrecision : Z;      (* BigFloat.defaultPrecision *)
  defaultRounding : Z        (* BigFloat.defaultRounding *)
}.

(** The state at load time: no object yet, 20 digits, NEAREST. *)
Definition initial : world := mkWorld [] 20 ROUNDING_NEAREST.

Definition M (A : Type) : Type := world -> outcome (A * world).

#[global] Instance M_ret : MRet M := fun A a w => Ret (a, w).
#[global] Instance M_bind : MBind M := fun A B k c w =>
  match c w with
  | Ret (a, w') => k a w'
  | Throw e => Throw e
  | OutOfFuel => OutOfFuel
  end.

Definition throw {A} (e : error) : M A := fun _ => Throw e.
Definition out_of_fuel {A} : M A := fun _ => OutOfFuel.
Definition get_world : M world := fun w => Ret (w, w).

Definition alloc (x : BigFloat) : M loc := fun w =>
  Ret (length (objects w),
       mkWorld (objects w ++ [x]) (defaultPrecision w) (defaultRounding w)).

(** A reference always denotes an object in JavaScript; reading a
    location the store does not hold is an error of the caller. *)
Definition get (l : loc) : M BigFloat := fun w =>
  match objects w !! l with
  | Some x => Ret (x, w)
  | None => Throw (TypeError "not an object")
  end.

Definition put (l : loc) (x : BigFloat) : M unit := fun w =>
  Ret (tt, mkWorld (<[l:=x]> (objects w))
             (defaultPrecision w) (defaultRounding w)).

(** [l.field = v], and a call [l.method()] of a method of the previous
    section. *)
Definition modify (l : loc) (f : BigFloat -> BigFloat) : M unit :=
  x ← get l; put l (f x).
Definition call {A} (l : loc) (m : BigFloat -> A * BigFloat) : M A :=
  x ← get l; put l (snd (m x));; mret (fst (m x)).
Definition when (c : bool) (k : M unit) : M unit :=
  if c then k else mret tt.

(** ** The constructor *)

(** What the constructor is applied to: a host number, a BigInt or a
    BigFloat (strings go through the decimal parser, which is not part
    of this development). *)
Inductive value :=
  | VNumber (num : float)
  | VBigInt (n : Z)
  | VObject (l : loc).

Definition NaN : value := VNumber nan.
Definition Infinity : value := VNumber infinity.
Definition neg_Infinity : value := VNumber neg_infinity.

(** [new BigFloat(value, precision, rounding)]; [None] is an omitted
    argument.  [Object.assign(this, value)] copies every field. *)
Definition new_BigFloat (v : value) (precision rounding : option Z) : M loc :=
  w ← get_world;
  let this :=
    mkBigFloat 1 0 0 (default (defaultPrecision w) precision)
      (default (defaultRounding w) rounding) SPECIAL_ZERO 0 in
  match v with
  | VNumber num => alloc (_fromNumber num this)
  | VBigInt n =>
      alloc (_normalizeBits
               (set_exponent 0
                  (set_sign (if n <? 0 then -1 else 1)
                     (set_significand (if n <? 0 then - n else n) this))))
  | VObject l => x ← get l; alloc x
  end.

(** [clone()] and [assign(a)]; [assign] refuses an argument that is not a
    BigFloat. *)
Definition clone (this : loc) : M loc :=
  copy ← new_BigFloat (VNumber 0) None None;
  x ← get this;
  modify copy (set_sign (_sign x));;
  modify copy (set_significand (_significand x));;
  modify copy (set_exponent (_exponent x));;
  modify copy (set_precision (_precision x));;
  modify copy (set_rounding (_rounding x));;
  modify copy (set_special (_special x));;
  modify copy (set_bits (_bits x));;
  mret copy.

Definition assign (this : loc) (a : value) : M loc :=
  match a with
  | VObject a =>
      xa ← get a;
      modify this (set_sign (_sign xa));;
      modify this (set_exponent (_exponent xa));;
      modify this (set_significand (_significand xa));;
      modify this (set_special (_special xa));;
      modify this (set_bits (_bits xa));;
      xt ← get this;
      when (negb (_precision xt =? _precision xa)) (modify this _normalize);;
      mret this
  | _ => throw (TypeError "assign() requires a BigFloat instance")
  end.

(** ** The static functions *)

Module BigFloat.

(** [add].  The alignment [x_sig <<= BigInt(d)] is defined for every
    distance here, and the effective exponents are exact (see the range
    of the host). *)
Definition add (a b : loc) : M loc :=
  xa ← get a; xb ← get b;
  let proceed : M loc :=
    let workPrec := Z.max (_precision xa) (_precision xb) in
    let x_sig := _significand xa in
    let y_sig := _significand xb in
    let x_exp := _exponent xa in
    let y_exp := _exponent xb in
    let x_sign := _sign xa in
    let y_sign := _sign xb in
    bitlenX ← call a (_bitlength false);
    bitlenY ← call b (_bitlength false);
    let effExpX := x_exp - (bitlenX - 1) in
    let effExpY := y_exp - (bitlenY - 1) in
    let '(x_sig, y_sig, commonEffExp) :=
      if effExpY <? effExpX then
        (Z.shiftl x_sig (effExpX - effExpY), y_sig, effExpY)
      else if effExpX <? effExpY then
        (x_sig, Z.shiftl y_sig (effExpY - effExpX), effExpX)
      else (x_sig, y_sig, effExpX) in
    let sumSig := x_sign * x_sig + y_sign * y_sig in
    if sumSig =? 0 then
      r ← new_BigFloat (VBigInt 0) None None;
      mret r
    else
      result ← new_BigFloat (VBigInt 0) None None;
      modify result (set_sign (if sumSig <? 0 then -1 else 1));;
      let sumSig := if sumSig <? 0 then - sumSig else sumSig in
      modify result (set_significand sumSig);;
      bitlenR ← call result (_bitlength false);
      modify result (set_exponent (commonEffExp + (bitlenR - 1)));;
      modify result (set_precision workPrec);;
      modify result (set_rounding (_rounding xa));;
      when (negb (sumSig =? 0)) (modify result (set_special SPECIAL_NONE));;
      modify result _normalize;;
      mret result in
  if truthy (_special xa) || truthy (_special xb) then
    if bool_decide (_special xa = SPECIAL_NAN)
       || bool_decide (_special xb = SPECIAL_NAN)
    then new_BigFloat NaN None None
    else if bool_decide (_special xa = SPECIAL_INF)
            && bool_decide (_special xb = SPECIAL_INF)
    then
      if _sign xa =? _sign xb then new_BigFloat (VObject a) None None
      else new_BigFloat NaN None None
    else if bool_decide (_special xa = SPECIAL_INF) then
      new_BigFloat (VObject a) None None
    else if bool_decide (_special xb = SPECIAL_INF) then
      new_BigFloat (VObject b) None None
    else if bool_decide (_special xa = SPECIAL_ZERO) then
      new_BigFloat (VObject b) None None
    else if bool_decide (_special xb = SPECIAL_ZERO) then
      new_BigFloat (VObject a) None None
    else proceed
  else proceed.

Definition sub (a b : loc) : M loc :=
  negB ← new_BigFloat (VObject b) None None;
  modify negB (fun x => set_sign (- _sign x) x);;
  add a negB.

(** [mul].  The sum of the exponents is exact here (see the range of the
    host). *)
Definition mul (a b : loc) : M loc :=
  xa ← get a; xb ← get b;
  if bool_decide (_special xa = SPECIAL_NAN)
     || bool_decide (_special xb = SPECIAL_NAN)
  then new_BigFloat NaN None None
  else if bool_decide (_special xa = SPECIAL_ZERO)
          || bool_decide (_special xb = SPECIAL_ZERO)
  then new_BigFloat (VNumber 0) None None
  else if bool_decide (_special xa = SPECIAL_INF)
          || bool_decide (_special xb = SPECIAL_INF)
  then
    let sign := _sign xa * _sign xb in
    new_BigFloat (if 0 <? sign then Infinity else neg_Infinity) None None
  else
    product ← new_BigFloat (VNumber 0) None None;
    modify product (set_sign (_sign xa * _sign xb));;
    modify product (set_significand (_significand xa * _significand xb));;
    modify product (set_exponent (_exponent xa + _exponent xb));;
    modify product (set_precision (Z.max (_precision xa) (_precision xb)));;
    modify product (set_rounding (_rounding xa));;
    when (negb (_significand xa * _significand xb =? 0))
      (modify product (set_special SPECIAL_NONE));;
    aBits ← call a (_bitlength false);
    bBits ← call b (_bitlength false);
    productBits ← call product (_bitlength false);
    let expectedBits := aBits + bBits - 1 in
    when (expectedBits <? productBits)
      (modify product (fun x => set_exponent (_exponent x + 1) x));;
    modify product _normalize;;
    mret product.

(** The Newton iteration of [inverse]: [for (;;) { ... }], which leaves
    through one of its two [break]s; [fuel] bounds the number of rounds. *)
Fixpoint inverse_loop (fuel : nat) (v u two one : loc) (bitPrec : Z)
  : M loc :=
  match fuel with
  | O => out_of_fuel
  | S fuel =>
      r ← mul v u;
      r ← sub two r;
      u ← mul u r;
      r ← sub r one;
      xr ← get r;
      if _significand xr =? 0 then mret u
      else if _exponent xr <? - bitPrec then mret u
      else inverse_loop fuel v u two one bitPrec
  end.

Definition inverse (fuel : nat) (a : loc) : M loc :=
  xa ← get a;
  if bool_decide (_special xa = SPECIAL_NAN) then new_BigFloat NaN None None
  else if bool_decide (_special xa = SPECIAL_ZERO) then
    new_BigFloat Infinity None None
  else if bool_decide (_special xa = SPECIAL_INF) then
    new_BigFloat (VBigInt 0) None None
  else if _significand xa =? 0 then new_BigFloat Infinity None None
  else
    let prec := _precision xa in
    let extra := 5 in
    let workPrec := prec + extra in
    let bitPrec := Math.ceil (Number.of_Z (prec + 1) * Math.log2_10)%float in
    v ← new_BigFloat (VObject a) None None;
    modify v (set_sign 1);;
    modify v (set_precision workPrec);;
    modify v (set_exponent 0);;
    fv ← call v toNumber;
    if negb (Number.isFinite fv) || (fv =? 0)%float then
      new_BigFloat Infinity None None
    else
      let invStart := (1 / fv)%float in
      u ← new_BigFloat (VNumber invStart) (Some workPrec) None;
      two ← new_BigFloat (VNumber 2) None None;
      one ← new_BigFloat (VNumber 1) None None;
      r ← new_BigFloat (VBigInt 0) (Some workPrec) None;
      u ← inverse_loop fuel v u two one bitPrec;
      xa ← get a;
      modify u (fun x => set_exponent (_exponent x - _exponent xa) x);;
      modify u (set_sign (_sign xa));;
      modify u (set_precision prec);;
      modify u _normalize;;
      mret u.

Definition div (fuel : nat) (a b : loc) : M loc :=
  xa ← get a; xb ← get b;
  if bool_decide (_special xb = SPECIAL_ZERO) then
    new_BigFloat Infinity None None
  else if bool_decide (_special xb = SPECIAL_INF) then
    new_BigFloat (VBigInt 0) None None
  else if (truthy (_special xa) || truthy (_special xb))
          && (bool_decide (_special xa = SPECIAL_NAN)
              || bool_decide (_special xb = SPECIAL_NAN))
  then new_BigFloat NaN None None
  else
    let prec := Z.max (_precision xa) (_precision xb) in
    if (_exponent xb =? 0) && (_significand xb =? 1) then
      result ← new_BigFloat (VObject a) None None;
      modify result (set_precision prec);;
      mret result
    else
      (* [let inv = b]: the same object, not a copy *)
      let inv := b in
      modify inv (set_precision prec);;
      xa ← get a; xb ← get b;
      if (_exponent xa =? 0) && (_significand xa =? 1) then
        inverse fuel inv
      else if (_significand xa =? 1) && (_significand xb =? 1) then
        result ← new_BigFloat (VBigInt 1) (Some prec) (Some (_rounding xa));
        modify result (set_exponent (_exponent xa - _exponent xb));;
        modify result (set_sign (_sign xa * _sign xb));;
        mret result
      else if _significand xb =? 1 then
        result ← new_BigFloat (VObject a) None None;
        modify result (set_precision prec);;
        modify result (fun r => set_exponent (_exponent r - _exponent xb) r);;
        modify result (set_sign (_sign xa * _sign xb));;
        mret result
      else if _significand xa =? 1 then
        inv ← inverse fuel inv;
        xa ← get a;
        modify inv (fun r => set_exponent (_exponent r + _exponent xa) r);;
        modify inv (fun r => set_sign (_sign xa * _sign r) r);;
        mret inv
      else
        inv ← inverse fuel inv;
        result ← mul a inv;
        mret result.

Definition neg (a : loc) : M loc :=
  res ← new_BigFloat (VObject a) None None;
  x ← get res;
  if bool_decide (_special x = SPECIAL_ZERO) || (_significand x =? 0) then
    mret res
  else
    when (bool_decide (_special x = SPECIAL_INF)
          || bool_decide (_special x = SPECIAL_NONE))
      (modify res (fun x => set_sign (_sign x * -1) x));;
    mret res.

Definition equal (a b : loc) : M bool :=
  xa ← get a; xb ← get b;
  if bool_decide (_special xa = SPECIAL_NAN)
     || bool_decide (_special xb = SPECIAL_NAN)
  then mret false
  else if bool_decide (_special xa = SPECIAL_ZERO)
          && bool_decide (_special xb = SPECIAL_ZERO)
  then mret true
  else if bool_decide (_special xa = SPECIAL_INF)
          && bool_decide (_special xb = SPECIAL_INF)
  then mret (_sign xa =? _sign xb)
  else
    mret ((_sign xa =? _sign xb)
          && (_exponent xa =? _exponent xb)
          && (_significand xa =? _significand xb)).

(** [less].  The scaling [_significand << BigInt(scale)] is defined for
    every distance here, and the effective exponents are exact (see the
    range of the host). *)
Definition less (a b : loc) : M bool :=
  xa ← get a; xb ← get b;
  if bool_decide (_special xa = SPECIAL_NAN)
     || bool_decide (_special xb = SPECIAL_NAN)
  then mret false
  else if _sign xa <? _sign xb then mret true
  else if _sign xb <? _sign xa then mret false
  else
    let sign := _sign xa in
    if bool_decide (_special xa = SPECIAL_INF)
       && bool_decide (_special xb = SPECIAL_INF)
    then mret false
    else if bool_decide (_special xa = SPECIAL_INF) then mret (sign <? 0)
    else if bool_decide (_special xb = SPECIAL_INF) then mret (0 <? sign)
    else if bool_decide (_special xa = SPECIAL_ZERO)
            && bool_decide (_special xb = SPECIAL_ZERO)
    then mret false
    else if bool_decide (_special xa = SPECIAL_ZERO) then mret (0 <? sign)
    else if bool_decide (_special xb = SPECIAL_ZERO) then mret (sign <? 0)
    else
      bitLenA ← call a (_bitlength false);
      bitLenB ← call b (_bitlength false);
      let effExpA := _exponent xa - bitLenA + 1 in
      let effExpB := _exponent xb - bitLenB + 1 in
      let commonEffExp := Z.min effExpA effExpB in
      let scaleA := effExpA - commonEffExp in
      let scaleB := effExpB - commonEffExp in
      let scaledSigA := Z.shiftl (_significand xa) scaleA in
      let scaledSigB := Z.shiftl (_significand xb) scaleB in
      if negb (scaledSigA =? scaledSigB) then
        mret (if 0 <? sign then scaledSigA <? scaledSigB
              else scaledSigB <? scaledSigA)
      else mret false.

Definition cmp (a b : loc) : M Z :=
  ab ← less a b;
  if ab : bool then mret (-1)
  else
    ba ← less b a;
    if ba : bool then mret 1 else mret 0.

Definition trunc (x : loc) : M loc :=
  xx ← get x;
  let precision := Some (_precision xx) in
  let rounding := Some (_rounding xx) in
  if bool_decide (_special xx = SPECIAL_ZERO) then
    new_BigFloat (VBigInt 0) precision rounding
  else if bool_decide (_special xx = SPECIAL_INF) then
    new_BigFloat (if 0 <? _sign xx then Infinity else neg_Infinity)
      precision rounding
  else if bool_decide (_special xx = SPECIAL_NAN) then
    new_BigFloat NaN precision rounding
  else
    bitlen ← call x (_bitlength false);
    let effExp := _exponent xx - (bitlen - 1) in
    if 0 <=? effExp then new_BigFloat (VObject x) None None
    else
      let fracBits := - effExp in
      let resultInt := Z.shiftr (_significand xx) fracBits in
      let resultInt := if _sign xx <? 0 then - resultInt else resultInt in
      new_BigFloat (VBigInt resultInt) precision rounding.

Definition fmod (fuel : nat) (a b : loc) : M loc :=
  xb ← get b;
  if _significand xb =? 0 then
    throw (Error "Division by zero in fmod")
  else
    quotient ← div fuel a b;
    truncated ← trunc quotient;
    product ← mul truncated b;
    sub a product.

(** [frexp] returns the pair [[mantissa, exp]]. *)
Definition frexp (x : loc) : M (loc * Z) :=
  xx ← get x;
  if bool_decide (_special xx = SPECIAL_ZERO) then
    m ← new_BigFloat (VBigInt 0) (Some (_precision xx)) (Some (_rounding xx));
    mret (m, 0)
  else if bool_decide (_special xx = SPECIAL_NAN) then
    m ← new_BigFloat NaN None None;
    mret (m, 0)
  else if bool_decide (_special xx = SPECIAL_INF) then
    m ← new_BigFloat (if 0 <? _sign xx then Infinity else neg_Infinity)
          None None;
    mret (m, 0)
  else
    mantissa ← new_BigFloat (VObject x) None None;
    bitlen ← call x (_bitlength false);
    let exp := _exponent xx in
    mret (mantissa, exp).

(** [ldexp], for an integer [exp]; the sum of the exponents is exact here
    (see the range of the host). *)
Definition ldexp (x : loc) (exp : Z) : M loc :=
  xx ← get x;
  if bool_decide (_special xx = SPECIAL_ZERO) then
    new_BigFloat (VBigInt 0) (Some (_precision xx)) (Some (_rounding xx))
  else if bool_decide (_special xx = SPECIAL_NAN) then
    new_BigFloat NaN None None
  else if bool_decide (_special xx = SPECIAL_INF) then
    new_BigFloat (if 0 <? _sign xx then Infinity else neg_Infinity) None None
  else
    result ← new_BigFloat (VObject x) None None;
    modify result (fun r => set_exponent (_exponent r + exp) r);;
    modify result _normalize;;
    mret result.

Definition notequal (a b : loc) : M bool :=
  e ← equal a b; mret (negb e).
Definition greater (a b : loc) : M bool := less b a.
Definition lessequal (a b : loc) : M bool :=
  g ← greater a b; mret (negb g).
Definition greaterequal (a b : loc) : M bool :=
  l ← less a b; mret (negb l).

Definition abs (x : loc) : M loc :=
  res ← new_BigFloat (VObject x) None None;
  modify res (set_sign 1);;
  mret res.

(** [floor], [ceil] and [round].  The mask [1n << BigInt(fracBits)] is
    defined for every [fracBits] here (see the range of the host). *)
Definition floor (x : loc) : M loc :=
  xx ← get x;
  let precision := Some (_precision xx) in
  let rounding := Some (_rounding xx) in
  if bool_decide (_special xx = SPECIAL_ZERO) then
    new_BigFloat (VBigInt 0) precision rounding
  else if bool_decide (_special xx = SPECIAL_INF) then
    new_BigFloat (if 0 <? _sign xx then Infinity else neg_Infinity)
      precision rounding
  else if bool_decide (_special xx = SPECIAL_NAN) then
    new_BigFloat NaN precision rounding
  else
    bitlen ← call x (_bitlength false);
    let effExp := _exponent xx - (bitlen - 1) in
    if 0 <=? effExp then new_BigFloat (VObject x) None None
    else
      let fracBits := - effExp in
      let intPart := Z.shiftr (_significand xx) fracBits in
      let fracPart :=
        Z.land (_significand xx) (Z.shiftl 1 fracBits - 1) in
      let resultInt :=
        if 0 <? _sign xx then intPart
        else - (if fracPart =? 0 then intPart else intPart + 1) in
      new_BigFloat (VBigInt resultInt)
        precision rounding.

Definition ceil (x : loc) : M loc :=
  xx ← get x;
  let precision := Some (_precision xx) in
  let rounding := Some (_rounding xx) in
  if bool_decide (_special xx = SPECIAL_ZERO) then
    new_BigFloat (VBigInt 0) precision rounding
  else if bool_decide (_special xx = SPECIAL_INF) then
    new_BigFloat (if 0 <? _sign xx then Infinity else neg_Infinity)
      precision rounding
  else if bool_decide (_special xx = SPECIAL_NAN) then
    new_BigFloat NaN precision rounding
  else
    bitlen ← call x (_bitlength false);
    let effExp := _exponent xx - (bitlen - 1) in
    if 0 <=? effExp then new_BigFloat (VObject x) None None
    else
      let fracBits := - effExp in
      let intPart := Z.shiftr (_significand xx) fracBits in
      let fracPart :=
        Z.land (_significand xx) (Z.shiftl 1 fracBits - 1) in
      let resultInt :=
        if 0 <? _sign xx then
          if fracPart =? 0 then intPart else intPart + 1
        else - intPart in
      new_BigFloat (VBigInt resultInt)
        precision rounding.

Definition round (x : loc) : M loc :=
  xx ← get x;
  let precision := Some (_precision xx) in
  let rounding := Some (_rounding xx) in
  if bool_decide (_special xx = SPECIAL_ZERO) then
    new_BigFloat (VBigInt 0) precision rounding
  else if bool_decide (_special xx = SPECIAL_INF) then
    new_BigFloat (if 0 <? _sign xx then Infinity else neg_Infinity)
      precision rounding
  else if bool_decide (_special xx = SPECIAL_NAN) then
    new_BigFloat NaN precision rounding
  else
    bitlen ← call x (_bitlength false);
    let effExp := _exponent xx - (bitlen - 1) in
    if 0 <=? effExp then new_BigFloat (VObject x) None None
    else
      let fracBits := - effExp in
      let intPart := Z.shiftr (_significand xx) fracBits in
      let fracPart :=
        Z.land (_significand xx) (Z.shiftl 1 fracBits - 1) in
      let half := Z.shiftl 1 (fracBits - 1) in
      let roundUp := half <=? fracPart in
      let resultInt := if roundUp then intPart + 1 else intPart in
      let resultInt := if _sign xx <? 0 then - resultInt else resultInt in
      new_BigFloat (VBigInt resultInt)
        precision rounding.

(** [modf] returns the pair [[integerPart, fractionalPart]]. *)
Definition modf (x : loc) : M (loc * loc) :=
  xx ← get x;
  if bool_decide (_special xx = SPECIAL_ZERO) then
    i ← new_BigFloat (VBigInt 0) None None;
    f ← new_BigFloat (VBigInt 0) None None;
    mret (i, f)
  else if bool_decide (_special xx = SPECIAL_NAN) then
    i ← new_BigFloat NaN None None;
    f ← new_BigFloat NaN None None;
    mret (i, f)
  else if bool_decide (_special xx = SPECIAL_INF) then
    inf ← new_BigFloat (if 0 <? _sign xx then Infinity else neg_Infinity)
            None None;
    zero ← new_BigFloat (VBigInt 0) None None;
    mret (inf, zero)
  else
    integerPart ← trunc x;
    fractionalPart ← sub x integerPart;
    mret (integerPart, fractionalPart).

(** [fma(a, b, c)].  The working copies are built with
    [new BigFloat(a, workPrecision)]: [Object.assign] then overwrites the
    precision with that of [a]. *)
Definition fma (a b c : loc) : M loc :=
  xa ← get a; xb ← get b; xc ← get c;
  if bool_decide (_special xa = SPECIAL_NAN)
     || bool_decide (_special xb = SPECIAL_NAN)
     || bool_decide (_special xc = SPECIAL_NAN)
  then new_BigFloat NaN None None
  else if bool_decide (_special xa = SPECIAL_INF)
          || bool_decide (_special xb = SPECIAL_INF)
  then
    if (bool_decide (_special xa = SPECIAL_INF)
        && (bool_decide (_special xb = SPECIAL_ZERO)
            || (_significand xb =? 0)))
       || (bool_decide (_special xb = SPECIAL_INF)
           && (bool_decide (_special xa = SPECIAL_ZERO)
               || (_significand xa =? 0)))
    then new_BigFloat NaN None None
    else
      let abSign := _sign xa * _sign xb in
      if bool_decide (_special xc = SPECIAL_INF)
         && negb (_sign xc =? abSign)
      then new_BigFloat NaN None None
      else new_BigFloat (if 0 <? abSign then Infinity else neg_Infinity)
             None None
  else if bool_decide (_special xc = SPECIAL_INF) then
    new_BigFloat (if 0 <? _sign xc then Infinity else neg_Infinity) None None
  else
    let targetPrecision :=
      Z.max (Z.max (_precision xa) (_precision xb)) (_precision xc) in
    let workPrecision := 2 * targetPrecision in
    aWork ← new_BigFloat (VObject a) (Some workPrecision) None;
    bWork ← new_BigFloat (VObject b) (Some workPrecision) None;
    cWork ← new_BigFloat (VObject c) (Some workPrecision) None;
    product ← mul aWork bWork;
    result ← add product cWork;
    modify result (set_precision targetPrecision);;
    modify result (set_rounding (_rounding xa));;
    modify result _normalize;;
    mret result.

(** The Newton iteration of [sqrt], on fuel as for [inverse]. *)
Fixpoint sqrt_loop (fuel : nat) (normalized x three one : loc)
  (targetPrec : Z) : M loc :=
  match fuel with
  | O => out_of_fuel
  | S fuel =>
      xSquared ← mul x x;
      yxSquared ← mul normalized xSquared;
      r ← sub three yxSquared;
      modify r (fun o => set_exponent (_exponent o - 1) o);;
      x ← mul x r;
      r ← sub r one;
      xr ← get r;
      if _significand xr =? 0 then mret x
      else if _exponent xr <? - targetPrec then mret x
      else sqrt_loop fuel normalized x three one targetPrec
  end.

(** [sqrt(y)].  [y._exponent % 2] is the remainder of the truncated
    division; [y._exponent / 2] is taken for an even exponent only. *)
Definition sqrt (fuel : nat) (y : loc) : M loc :=
  xy ← get y;
  if bool_decide (_special xy = SPECIAL_NAN) then new_BigFloat NaN None None
  else if bool_decide (_special xy = SPECIAL_ZERO) then
    new_BigFloat (VBigInt 0) None None
  else if bool_decide (_special xy = SPECIAL_INF) then
    if 0 <? _sign xy then new_BigFloat Infinity None None
    else new_BigFloat NaN None None
  else if _sign xy <? 0 then new_BigFloat NaN None None
  else if (_significand xy =? 1) && (_exponent xy =? 0) then
    new_BigFloat (VBigInt 1) (Some (_precision xy)) (Some (_rounding xy))
  else if (_significand xy =? 1) && (Z.rem (_exponent xy) 2 =? 0) then
    result ← new_BigFloat (VObject y) None None;
    modify result (set_exponent (_exponent xy / 2));;
    mret result
  else
    let prec := _precision xy in
    let extra := 5 in
    let workPrec := prec + extra in
    let targetPrec :=
      Math.ceil (Number.of_Z (prec + 1) * Math.log2_10)%float in
    let exp := _exponent xy in
    let expHalf := exp / 2 in
    let expRemainder := exp - expHalf * 2 in
    normalized ← new_BigFloat (VObject y) None None;
    modify normalized (set_precision workPrec);;
    modify normalized (set_exponent expRemainder);;
    normalizedFloat ← call normalized toNumber;
    if negb (Number.isFinite normalizedFloat) || (normalizedFloat =? 0)%float
    then new_BigFloat NaN None None
    else
      let initialRecipSqrt :=
        (1 / PrimFloat.sqrt normalizedFloat)%float in
      x ← new_BigFloat (VNumber initialRecipSqrt) (Some workPrec) None;
      three ← new_BigFloat (VNumber 3) None None;
      one ← new_BigFloat (VNumber 1) None None;
      x ← sqrt_loop fuel normalized x three one targetPrec;
      result ← mul normalized x;
      modify result (fun o => set_exponent (_exponent o + expHalf) o);;
      modify result (set_precision prec);;
      modify result _normalize;;
      mret result.

(** [BigFloat.prototype.succ] and [pred], which [nextafter] calls. *)
Definition succ (this : loc) : M loc :=
  x ← get this;
  let pbits := Math.ceil (Number.of_Z (_precision x) * Math.log2_10)%float in
  if bool_decide (_special x = SPECIAL_NAN) then new_BigFloat NaN None None
  else if bool_decide (_special x = SPECIAL_INF) then
    if 0 <? _sign x then new_BigFloat Infinity None None
    else new_BigFloat (VNumber (- Number.MAX_VALUE)%float)
           (Some (_precision x)) None
  else if bool_decide (_special x = SPECIAL_ZERO) || (_significand x =? 0)
  then
    result ← new_BigFloat (VBigInt 1) (Some (_precision x))
               (Some (_rounding x));
    modify result (set_exponent (- pbits));;
    mret result
  else
    let originalExp := _exponent x in
    next ← new_BigFloat (VObject this) None None;
    modify next (set_exponent 0);;
    ulp ← new_BigFloat (VBigInt 1) (Some (_precision x))
            (Some (_rounding x));
    modify ulp (set_exponent (- pbits));;
    xn ← get next;
    next ← (if 0 <? _sign xn then add next ulp else sub next ulp);
    modify next (fun o => set_exponent (_exponent o + originalExp) o);;
    mret next.

Definition pred (this : loc) : M loc :=
  x ← get this;
  let pbits := Math.ceil (Number.of_Z (_precision x) * Math.log2_10)%float in
  if bool_decide (_special x = SPECIAL_NAN) then new_BigFloat NaN None None
  else if bool_decide (_special x = SPECIAL_INF) then
    if _sign x <? 0 then new_BigFloat neg_Infinity None None
    else new_BigFloat (VNumber Number.MAX_VALUE) (Some (_precision x)) None
  else if bool_decide (_special x = SPECIAL_ZERO) || (_significand x =? 0)
  then
    result ← new_BigFloat (VBigInt 1) (Some (_precision x))
               (Some (_rounding x));
    modify result (set_exponent (- pbits));;
    modify result (set_sign (-1));;
    mret result
  else
    let originalExp := _exponent x in
    next ← new_BigFloat (VObject this) None None;
    modify next (set_exponent 0);;
    ulp ← new_BigFloat (VBigInt 1) (Some (_precision x))
            (Some (_rounding x));
    modify ulp (set_exponent (- pbits));;
    xn ← get next;
    next ← (if 0 <? _sign xn then sub next ulp
            else (modify ulp (set_sign (-1));; add next ulp));
    modify next (fun o => set_exponent (_exponent o + originalExp) o);;
    mret next.

Definition nextafter (x towards : loc) : M loc :=
  xx ← get x; xt ← get towards;
  if bool_decide (_special xx = SPECIAL_NAN) then new_BigFloat NaN None None
  else if bool_decide (_special xt = SPECIAL_NAN) then
    new_BigFloat NaN None None
  else
    e ← equal x towards;
    if e : bool then new_BigFloat (VObject x) None None
    else
      g ← greater towards x;
      if g : bool then succ x else pred x.

Section Pow.

(** The code of [pow] from "Check if y is an integer" on (the integer
    fast paths and [exp(y * ln x)]) needs the logarithm and exponential
    series; it is a parameter here.  The special cases in front of it
    are the source's. *)
Variable pow_normal : loc -> loc -> M loc.

Definition pow (x y : loc) : M loc :=
  xx ← get x; xy ← get y;
  if bool_decide (_special xx = SPECIAL_NAN) then new_BigFloat NaN None None
  else if bool_decide (_special xy = SPECIAL_NAN) then
    new_BigFloat NaN None None
  else if bool_decide (_special xx = SPECIAL_INF) then
    if bool_decide (_special xy = SPECIAL_ZERO) || (_significand xy =? 0)
    then new_BigFloat (VBigInt 1) (Some (_precision xx)) (Some (_rounding xx))
    else if _sign xy <? 0 then
      new_BigFloat (VBigInt 0) (Some (_precision xx)) (Some (_rounding xx))
    else if _sign xx <? 0 then
      (* [BigFloat.isInteger(y)]: only [BigFloat.prototype.isInteger]
         exists, so the callee is [undefined] *)
      throw (TypeError "BigFloat.isInteger is not a function")
    else new_BigFloat Infinity None None
  else if bool_decide (_special xy = SPECIAL_INF) then
    fx ← call x toNumber;
    let absX := PrimFloat.abs fx in
    if (absX <? 1)%float then
      if 0 <? _sign xy then new_BigFloat (VBigInt 0) None None
      else new_BigFloat Infinity None None
    else if (1 <? absX)%float then
      if 0 <? _sign xy then new_BigFloat Infinity None None
      else new_BigFloat (VBigInt 0) None None
    else new_BigFloat (VBigInt 1) None None
  else if (bool_decide (_special xx = SPECIAL_ZERO) || (_significand xx =? 0))
          && (bool_decide (_special xy = SPECIAL_ZERO)
              || (_significand xy =? 0))
  then new_BigFloat NaN None None
  else if bool_decide (_special xx = SPECIAL_ZERO) || (_significand xx =? 0)
  then
    if 0 <? _sign xy then new_BigFloat (VBigInt 0) (Some (_precision xx)) None
    else new_BigFloat Infinity None None
  else if bool_decide (_special xy = SPECIAL_ZERO) || (_significand xy =? 0)
  then new_BigFloat (VBigInt 1) (Some (_precision xx)) (Some (_rounding xx))
  else if (_sign xx =? 1) && (_significand xx =? 1) && (_exponent xx =? 0)
  then new_BigFloat (VBigInt 1) (Some (_precision xx)) (Some (_rounding xx))
  else pow_normal x y.

End Pow.

End BigFloat.

(** [BigFloat.prototype.toBigInt], a method that calls the static
    [trunc] on [this].  The final shift [_significand << BigInt(effExp)]
    is defined for every distance here (see the range of the host). *)
Definition toBigInt (this : loc) : M Z :=
  x ← get this;
  if bool_decide (_special x = SPECIAL_NAN) then
    throw (RangeError "Cannot convert NaN to BigInt")
  else if bool_decide (_special x = SPECIAL_INF) then
    throw (RangeError "Cannot convert Infinity to BigInt")
  else if bool_decide (_special x = SPECIAL_ZERO) || (_significand x =? 0)
  then mret 0
  else
    truncated ← BigFloat.trunc this;
    bitlen ← call truncated (_bitlength false);
    xt ← get truncated;
    let effExp := _exponent xt - (bitlen - 1) in
    let result :=
      if 0 <=? effExp then Z.shiftl (_significand xt) effExp
      else Z.shiftr (_significand xt) (- effExp) in
    mret (if _sign xt <? 0 then - result else result).

(** [BigFloat.specialToString] and the dispatch of
    [BigFloat.prototype.toString(base)].  The texts of a finite value
    are outside this development: the digits in base 2 and 16, the
    decimal notation (which reads the bit length) and the text of the
    base in the error message are parameters; the tests in front of them
    and the final [throw] are the source's. *)
Definition specialToString (s : special) : string :=
  match s with
  | SPECIAL_NONE => "none"
  | SPECIAL_ZERO => "zero"
  | SPECIAL_INF => "inf"
  | SPECIAL_NAN => "nan"
  end.

Section ToString.

Variable digits : Z -> BigFloat -> string.
Variable decimal : loc -> M string.
Variable Number_toString : Z -> string.

Definition toString (this : loc) (base : Z) : M string :=
  x ← get this;
  if negb (bool_decide (_special x = SPECIAL_NONE))
     && negb (bool_decide (_special x = SPECIAL_ZERO))
  then mret (specialToString (_special x))
  else if _significand x =? 0 then mret "0"%string
  else if (base =? 2) || (base =? 16) then mret (digits base x)
  else if base =? 10 then decimal this
  else
    throw (Error (String.append "Base "
                    (String.append (Number_toString base) " not supported"))).

End ToString.

(** * Vocabulary of the properties *)

(** The true bit length of a positive significand. *)
Definition bitlen (n : Z) : Z := Z.log2 n + 1.

(** The remembered bit length is either to be recomputed or right. *)
Definition cache_ok (x : BigFloat) : Prop :=
  _bits x <= 0 \/ _bits x = bitlen (_significand x).

(** The rounding table of the specification, for [d] dropped bits:
    NEAREST looks at bit [d - 1]; UP and DOWN at the sign and at whether
    the dropped bits are zero; ZERO never rounds up. *)
Definition spec_round_up (rounding sign significand d : Z) : bool :=
  if rounding =? ROUNDING_NEAREST then Z.testbit significand (d - 1)
  else if rounding =? ROUNDING_UP then
    (sign =? 1) && negb (significand mod 2 ^ d =? 0)
  else if rounding =? ROUNDING_DOWN then
    (sign =? -1) && negb (significand mod 2 ^ d =? 0)
  else false.

(** Running a program from the state at load time, keeping its value. *)
Definition eval {A} (c : M A) : outcome A :=
  match c initial with
  | Ret (a, _) => Ret a
  | Throw e => Throw e
  | OutOfFuel => OutOfFuel
  end.

(** The objects the constructor builds for [NaN], [Infinity] and [0]
    with the defaults of [initial]. *)
Definition the_NaN : BigFloat :=
  mkBigFloat 1 0 0 20 ROUNDING_NEAREST SPECIAL_NAN 0.
Definition the_Infinity : BigFloat :=
  mkBigFloat 1 0 0 20 ROUNDING_NEAREST SPECIAL_INF 0.
Definition the_zero : BigFloat :=
  mkBigFloat 1 0 0 20 ROUNDING_NEAREST SPECIAL_ZERO 0.

(** A store with the objects of [new BigFloat(7.5)] and
    [new BigFloat(0)]. *)
Definition two_objects : world :=
  mkWorld [mkBigFloat 1 2 15 20 ROUNDING_NEAREST SPECIAL_NONE 4; the_zero]
    20 ROUNDING_NEAREST.

(** [l] is an object of the store, and the store of [w'] holds at least
    the objects of [w] (objects are never removed). *)
Definition valid (w : world) (l : loc) : Prop :=
  (l < length (objects w))%nat.
Definition extends (w w' : world) : Prop :=
  (length (objects w) <= length (objects w'))%nat.

(** [post D c w Q]: run from [w], the program [c] does not throw; when
    it returns [a] in [w'], the store has only grown and [Q a w']; when
    the model runs out of fuel, [D].  With [D := False] the program
    returns. *)
Definition post {A} (D : Prop) (c : M A) (w : world)
  (Q : A -> world -> Prop) : Prop :=
  match c w with
  | Ret (a, w') => extends w w' /\ Q a w'
  | Throw _ => False
  | OutOfFuel => D
  end.

Definition any {A} : A -> world -> Prop := fun _ _ => True.
Definition fresh : loc -> world -> Prop := fun l w => valid w l.

Definition throws {A} (c : M A) (w : world) : Prop :=
  exists e, c w = Throw e.
Definition returns {A} (c : M A) (w : world) : Prop :=
  exists a w', c w = Ret (a, w').

(** The store with one more object, and with the object at [l]
    replaced. *)
Definition snoc (w : world) (x : BigFloat) : world :=
  mkWorld (objects w ++ [x]) (defaultPrecision w) (defaultRounding w).
Definition upd (w : world) (l : loc) (x : BigFloat) : world :=
  mkWorld (<[l:=x]> (objects w)) (defaultPrecision w) (defaultRounding w).

(** The number a NORMAL or ZERO object stands for: the exponent is that
    of the leading bit, [sign * significand * 2^(exponent - bitlen + 1)]
    (the header of BigFloat.js, "The Hidden Binary Point"). *)
Definition rational (x : BigFloat) : Q :=
  (inject_Z (_sign x * _significand x)
   * 2 ^ (_exponent x - bitlen (_significand x) + 1))%Q.

(** A NORMAL object as the operations expect it: positive significand,
    sign +1 or -1, remembered bit length unset or right. *)
Definition normal (x : BigFloat) : Prop :=
  _special x = SPECIAL_NONE /\ 0 < _significand x
  /\ (_sign x = 1 \/ _sign x = -1) /\ cache_ok x.

(** The object with its bit length remembered. *)
Definition cached (x : BigFloat) : BigFloat :=
  set_bits (bitlen (_significand x)) x.

(** The objects the constructor builds from a BigInt and from a host
    number, in the store [w] (for its defaults). *)
Definition fresh_this (w : world) (precision rounding : option Z)
  : BigFloat :=
  mkBigFloat 1 0 0 (default (defaultPrecision w) precision)
    (default (defaultRounding w) rounding) SPECIAL_ZERO 0.
Definition from_BigInt (w : world) (n : Z) (precision rounding : option Z)
  : BigFloat :=
  _normalizeBits
    (set_exponent 0
       (set_sign (if n <? 0 then -1 else 1)
          (set_significand (if n <? 0 then - n else n)
             (fresh_this w precision rounding)))).
Definition from_Number (w : world) (num : float)
  (precision rounding : option Z) : BigFloat :=
  _fromNumber num (fresh_this w precision rounding).

(** The number of bits of a NORMAL object right of the binary point. *)
Definition fracBits (x : BigFloat) : Z :=
  bitlen (_significand x) - 1 - _exponent x.

(** What a call leaves of the store [w0] it started from.  [keep l]
    erases the fields of the object at [l] that the call may write;
    [unchanged keep w0 w]: every object of [w0] is in [w], the same up
    to [keep].  [bits_only] erases the remembered bit length only;
    [bits_and_precision_of b] erases the precision of [b] as well. *)
Definition unchanged (keep : loc -> BigFloat -> BigFloat) (w0 w : world)
  : Prop :=
  (length (objects w0) <= length (objects w))%nat
  /\ forall l x, objects w0 !! l = Some x ->
       exists y, objects w !! l = Some y /\ keep l x = keep l y.

Definition bits_only : loc -> BigFloat -> BigFloat :=
  fun _ x => set_bits 0 x.
Definition bits_and_precision_of (b : loc) : loc -> BigFloat -> BigFloat :=
  fun l x => if bool_decide (l = b) then set_bits 0 (set_precision 0 x)
             else set_bits 0 x.

(** [l] is an object allocated since [w0]. *)
Definition newer (w0 : world) : loc -> world -> Prop :=
  fun l w => (length (objects w0) <= l)%nat /\ valid w l.

(** [keeps keep w0 D c w Q]: run from [w], a store reached from [w0],
    the program [c] does not throw; when it returns [a] in [w'], the
    store has grown, the objects of [w0] are unchanged up to [keep], and
    [Q a w']; when the model runs out of fuel, [D]. *)
Definition keeps {A} (keep : loc -> BigFloat -> BigFloat) (w0 : world)
  (D : Prop) (c : M A) (w : world) (Q : A -> world -> Prop) : Prop :=
  match c w with
  | Ret (a, w') => extends w w' /\ unchanged keep w0 w' /\ Q a w'
  | Throw _ => False
  | OutOfFuel => D
  end.

(** A method that at most remembers the bit length of [this]. *)
Definition caching {A} (m : BigFloat -> A * BigFloat) : Prop :=
  forall x, snd (m x) = x \/ exists k, snd (m x) = set_bits k x.

(** ** The range of the host

    Two limits of the host are outside the embedding.  An exponent is a
    JavaScript Number: sums and differences of exponents are exact as
    long as they are integers below [2^53] in magnitude, and round
    beyond.  A BigInt has a maximum size: a shift [x << BigInt(d)], a
    product or a sum whose result would be larger throws a RangeError
    (the size is the engine's; V8 holds [2^30] bits).  The embedding
    computes exponents in [Z] and its shifts cannot fail, so it is the
    code on operands within these limits.  The properties of the
    functions that add exponents, or shift by a distance taken from
    them, are stated within the limits below, which are on the safe side
    of both. *)
Definition host_exponent : Z := 2 ^ 50.
Definition host_bits : Z := 2 ^ 20.

(** An object whose exponent and significand are well within the
    limits, and whose precision is a number of digits (so that the width
    [_normalize] rounds to is positive, and it removes fewer bits than
    the significand has). *)
Definition within_host (x : BigFloat) : Prop :=
  Z.abs (_exponent x) <= host_exponent
  /\ bitlen (_significand x) <= host_bits
  /\ 0 <= _precision x <= host_exponent.

(** Two objects whose significands, aligned at the smaller of their two
    binary scales as [add] and [less] align them, and the sum of the
    aligned significands, are within the limit: the highest leading bit
    is less than [host_bits] positions above the lowest last bit. *)
Definition alignable (xa xb : BigFloat) : Prop :=
  within_host xa /\ within_host xb
  /\ Z.max (_exponent xa) (_exponent xb) + 1
     + Z.max (fracBits xa) (fracBits xb) < host_bits.

(** [frames keep w0 c w Q]: whenever [c], run from [w], returns [a] in
    [w'], the objects of [w0] are unchanged up to [keep] and [Q a w'].
    Nothing is said of a run that throws. *)
Definition frames {A} (keep : loc -> BigFloat -> BigFloat) (w0 : world)
  (c : M A) (w : world) (Q : A -> world -> Prop) : Prop :=
  forall a w', c w = Ret (a, w') -> unchanged keep w0 w' /\ Q a w'.

(** * Properties *)

(** ** Bit length *)

Lemma set_bits_id x : set_bits (_bits x) x = x.
Proof. now destruct x. Qed.

Lemma first_digit_bits n :
  0 < n ->
  let d := n / 16 ^ (hex_digits n - 1) in
  (hex_digits n - 1) * 4
  + (if 8 <=? d then 4 else if 4 <=? d then 3 else if 2 <=? d then 2 else 1)
  = bitlen n.
Proof.
  intros Hn d. unfold bitlen. subst d. unfold hex_digits.
  replace (Z.log2 n / 4 + 1 - 1) with (Z.log2 n / 4) by lia.
  pose proof (Z.log2_nonneg n) as Hk.
  set (k := Z.log2 n) in *.
  set (q := k / 4).
  assert (Hq : 0 <= q) by (apply Z.div_pos; lia).
  assert (Hkq : k = 4 * q + k mod 4) by (apply Z.div_mod; lia).
  pose proof (Z.mod_pos_bound k 4 ltac:(lia)) as Hr.
  replace (16 ^ q) with (2 ^ (4 * q))
    by (rewrite Z.pow_mul_r by lia; reflexivity).
  rewrite <- (Z.shiftr_div_pow2 n (4 * q)) by lia.
  assert (Hl : Z.log2 (Z.shiftr n (4 * q)) = k mod 4).
  { rewrite Z.log2_shiftr by lia. fold k. lia. }
  assert (Hpos : 0 < Z.shiftr n (4 * q)).
  { rewrite Z.shiftr_div_pow2 by lia.
    assert (2 ^ k <= n) by (apply Z.log2_spec; lia).
    assert (2 ^ (4 * q) <= 2 ^ k) by (apply Z.pow_le_mono_r; lia).
    assert (0 < 2 ^ (4 * q)) by (apply Z.pow_pos_nonneg; lia).
    assert (1 <= n / 2 ^ (4 * q)) by (apply Z.div_le_lower_bound; lia).
    lia. }
  revert Hpos Hl. generalize (Z.shiftr n (4 * q)). intros d Hd Hl.
  pose proof (Z.log2_spec d Hd) as [Hlo Hhi]. rewrite Hl in Hlo, Hhi.
  assert (Hcases : k mod 4 = 0 \/ k mod 4 = 1 \/ k mod 4 = 2 \/ k mod 4 = 3)
    by lia.
  destruct Hcases as [E|[E|[E|E]]]; rewrite E in *; simpl in Hlo, Hhi;
    change (2 ^ 0) with 1 in *; change (2 ^ 1) with 2 in *;
    change (2 ^ 2) with 4 in *; change (2 ^ 3) with 8 in *;
    change (2 ^ Z.succ 0) with 2 in *; change (2 ^ Z.succ 1) with 4 in *;
    change (2 ^ Z.succ 2) with 8 in *; change (2 ^ Z.succ 3) with 16 in *;
    repeat match goal with
           | |- context [?a <=? ?b] => destruct (Z.leb_spec a b)
           end; lia.
Qed.

(** With a usable cache, [_bitlength()] is the bit length and leaves it
    in the cache. *)
Lemma bitlength_value this :
  0 < _significand this -> cache_ok this ->
  _bitlength false this
  = (bitlen (_significand this), set_bits (bitlen (_significand this)) this).
Proof.
  intros Hn Hc. unfold _bitlength.
  destruct (Z.eqb_spec (_significand this) 0) as [E|_]; [lia|].
  destruct (Z.ltb_spec 0 (_bits this)) as [Hb|Hb].
  - destruct Hc as [Hc|Hc]; [lia|]. rewrite <- Hc. now rewrite set_bits_id.
  - unfold hexLen, firstDigit.
    destruct (Z.ltb_spec (_significand this) 0) as [?|_]; [lia|].
    now rewrite first_digit_bits.
Qed.

(** ** Rounding in [_normalize] *)

Lemma land_single_bit x k :
  0 <= k -> (Z.land x (Z.shiftl 1 k) =? 0) = negb (Z.testbit x k).
Proof.
  intros Hk. rewrite Z.shiftl_1_l.
  destruct (Z.testbit x k) eqn:Hb; simpl.
  - apply Z.eqb_neq. intros E.
    assert (Z.testbit (Z.land x (2 ^ k)) k = true)
      by (rewrite Z.land_spec, Hb, Z.pow2_bits_true by lia; reflexivity).
    rewrite E, Z.bits_0 in H. discriminate.
  - apply Z.eqb_eq. apply Z.bits_inj'. intros n Hn.
    rewrite Z.land_spec, Z.bits_0, Z.pow2_bits_eqb by lia.
    destruct (Z.eqb_spec k n) as [->|_]; [now rewrite Hb|apply andb_false_r].
Qed.

Lemma roundUp_spec rounding sign sig d s1 :
  0 < d -> sign = 1 \/ sign = -1 -> 0 <= rounding <= 3 ->
  roundUp rounding sign (Z.land sig (Z.shiftl 1 d - 1)) d s1
  = spec_round_up rounding sign sig d.
Proof.
  intros Hd Hs Hr. unfold roundUp, spec_round_up.
  rewrite Z.shiftl_1_l.
  replace (2 ^ d - 1) with (Z.ones d)
    by (rewrite Z.ones_equiv; lia).
  rewrite Z.land_ones by lia.
  pose proof (Z.mod_pos_bound sig (2 ^ d) ltac:(apply Z.pow_pos_nonneg; lia))
    as Hm.
  unfold ROUNDING_NEAREST, ROUNDING_UP, ROUNDING_DOWN, ROUNDING_ZERO.
  destruct (Z.eqb_spec rounding 0) as [_|N0].
  - rewrite land_single_bit by lia.
    rewrite negb_involutive. apply Z.mod_pow2_bits_low. lia.
  - destruct (Z.eqb_spec rounding 1) as [_|N1].
    + destruct Hs as [-> | ->]; simpl;
        [destruct (Z.ltb_spec 0 (sig mod 2 ^ d)),
           (Z.eqb_spec (sig mod 2 ^ d) 0); simpl; auto; lia | reflexivity].
    + destruct (Z.eqb_spec rounding 2) as [_|N2].
      * destruct Hs as [-> | ->]; simpl;
          [reflexivity |
           destruct (Z.ltb_spec 0 (sig mod 2 ^ d)),
             (Z.eqb_spec (sig mod 2 ^ d) 0); simpl; auto; lia].
      * destruct (Z.eqb_spec rounding 3) as [_|N3]; [reflexivity | lia].
Qed.

Lemma shiftr_below_target sig W :
  0 < sig -> 0 <= W < bitlen sig ->
  0 <= Z.shiftr sig (bitlen sig - W) < 2 ^ W.
Proof.
  intros Hs HW. unfold bitlen in *.
  rewrite Z.shiftr_div_pow2 by lia.
  assert (Hd : 0 < 2 ^ (Z.log2 sig + 1 - W)) by (apply Z.pow_pos_nonneg; lia).
  split; [apply Z.div_pos; lia|].
  apply Z.div_lt_upper_bound; [lia|].
  rewrite <- Z.pow_add_r by lia.
  replace (Z.log2 sig + 1 - W + W) with (Z.succ (Z.log2 sig)) by lia.
  apply Z.log2_spec. lia.
Qed.

(** What [_normalize] does to a significand with excess bits.  The
    branch that should renormalize after a carry tests
    [significand > 2^targetBits]; the incremented significand is at most
    [2^targetBits], so the exponent is never touched. *)
Lemma normalize_excess this :
  let W := targetBits (_precision this) in
  let sig := _significand this in
  let d := bitlen sig - W in
  0 < sig -> cache_ok this -> 0 <= W < bitlen sig ->
  let sig' :=
    Z.shiftr sig d
    + Z.b2z (roundUp (_rounding this) (_sign this)
               (Z.land sig (Z.shiftl 1 d - 1)) d (Z.shiftr sig d)) in
  _normalize this
  = mkBigFloat (_sign this) (_exponent this) sig' (_precision this)
      (_rounding this) (if sig' =? 0 then SPECIAL_ZERO else SPECIAL_NONE) W.
Proof.
  intros W sig d Hs Hc HW sig'. unfold _normalize.
  rewrite bitlength_value by assumption. fold sig W.
  destruct (Z.leb_spec (bitlen sig) W) as [?|_]; [lia|].
  cbn [_significand _rounding _sign _exponent _precision _bits _special
       set_significand set_bits set_special set_exponent].
  fold d. subst sig'.
  pose proof (shiftr_below_target sig W Hs HW) as Hlt. fold d in Hlt.
  destruct (roundUp _ _ _ _ _); cbn [Z.b2z].
  - cbn [_significand _rounding _sign _exponent _precision _bits _special
         set_significand set_bits set_special set_exponent].
    rewrite Z.shiftl_1_l. fold sig.
    destruct (Z.ltb_spec (2 ^ W) (Z.shiftr sig d + 1)) as [?|_]; [lia|].
    rewrite andb_false_r.
    cbn [_significand _rounding _sign _exponent _precision _bits _special
         set_significand set_bits set_special set_exponent].
    reflexivity.
  - rewrite Z.add_0_r.
    cbn [_significand _rounding _sign _exponent _precision _bits _special
         set_significand set_bits set_special set_exponent].
    reflexivity.
Qed.

(** C4: when [_normalize] drops [d = b - W] excess bits, the magnitude is
    rounded up (the shifted significand is incremented) exactly when the
    mode says so: NEAREST iff bit [d - 1] of the significand is set
    (round half up), UP iff the sign is +1 and the dropped bits are not
    zero, DOWN iff the sign is -1 and the dropped bits are not zero,
    ZERO never. *)
Theorem C4_normalize_rounds_up_by_mode (this : BigFloat) :
  let W := targetBits (_precision this) in
  let b := bitlen (_significand this) in
  let d := b - W in
  0 < _significand this ->
  cache_ok this ->
  _sign this = 1 \/ _sign this = -1 ->
  0 <= _rounding this <= 3 ->
  0 <= W < b ->
  _significand (_normalize this)
  = Z.shiftr (_significand this) d
    + Z.b2z (spec_round_up (_rounding this) (_sign this)
               (_significand this) d).
Proof.
  intros W b d Hs Hc Hsign Hr HW.
  rewrite normalize_excess by assumption. cbn [_significand].
  fold W b d. rewrite roundUp_spec by (assumption || lia). reflexivity.
Qed.

(** C4 at sign -1 and significand 253 (8 bits), precision 1 (7 bits),
    mode DOWN: the dropped bit is 1, so 126 becomes 127. *)
Lemma C4_normalize_rounds_up_by_mode_witness :
  let this := mkBigFloat (-1) 7 253 1 ROUNDING_DOWN SPECIAL_NONE 8 in
  cache_ok this /\ targetBits (_precision this) = 7
  /\ _significand (_normalize this) = 126 + 1.
Proof.
  intros this. split; [right; reflexivity|]. split; [vm_compute; reflexivity|].
  transitivity
    (Z.shiftr 253 (bitlen 253 - targetBits 1)
     + Z.b2z (spec_round_up ROUNDING_DOWN (-1) 253
                (bitlen 253 - targetBits 1)));
    [|vm_compute; reflexivity].
  apply (C4_normalize_rounds_up_by_mode this).
  - reflexivity.
  - right; reflexivity.
  - right; reflexivity.
  - split; discriminate.
  - vm_compute. split; [discriminate | reflexivity].
Defined.

(** C3: at precision 1 the width is 7 bits.  Rounding the 8-bit
    significand 255 to nearest carries into 128 = 2^7, and [_normalize]
    keeps these 8 bits and the exponent: its test for the carry is
    [significand > 2^targetBits].  [mul(15, 17)] at precision 1 returns
    such a value, with the remembered bit length 7. *)
Theorem C3_normalize_carry_keeps_extra_bit :
  targetBits 1 = 7
  /\ _normalize (mkBigFloat 1 7 255 1 ROUNDING_NEAREST SPECIAL_NONE 8)
     = mkBigFloat 1 7 128 1 ROUNDING_NEAREST SPECIAL_NONE 7
  /\ bitlen 128 = 8
  /\ eval (a ← new_BigFloat (VBigInt 15) (Some 1) None;
           b ← new_BigFloat (VBigInt 17) (Some 1) None;
           p ← BigFloat.mul a b;
           get p)
     = Ret (mkBigFloat 1 7 128 1 ROUNDING_NEAREST SPECIAL_NONE 7).
Proof. repeat split; vm_compute; reflexivity. Qed.

(** ** Reading the store *)

Lemma bind_get {B} l x (k : BigFloat -> M B) w :
  objects w !! l = Some x -> (get l ≫= k) w = k x w.
Proof. intros Hl. unfold mbind, M_bind, get. now rewrite Hl. Qed.

Lemma bind_get2 {B} a b xa xb (k : BigFloat -> BigFloat -> M B) w :
  objects w !! a = Some xa -> objects w !! b = Some xb ->
  (xa ← get a; xb ← get b; k xa xb) w = k xa xb w.
Proof.
  intros Ha Hb. rewrite (bind_get a xa) by assumption.
  now rewrite (bind_get b xb) by assumption.
Qed.

Lemma lookup_valid w l x : objects w !! l = Some x -> valid w l.
Proof. intros Hl. eapply lookup_lt_Some, Hl. Qed.

(** ** Special values of the arithmetic operations *)

(** [add] returns NaN as soon as one operand is NAN. *)
Lemma add_NaN w a b xa xb :
  objects w !! a = Some xa -> objects w !! b = Some xb ->
  _special xa = SPECIAL_NAN \/ _special xb = SPECIAL_NAN ->
  BigFloat.add a b w = new_BigFloat NaN None None w.
Proof.
  intros Ha Hb. unfold BigFloat.add.
  rewrite (bind_get2 a b xa xb) by assumption.
  destruct (_special xa), (_special xb); cbn;
    intros; try reflexivity; intuition congruence.
Qed.

(** The special values of [mul], in the order of the code: NAN first,
    then ZERO (whatever the other operand is, an infinity included),
    then INF with the product of the signs. *)
Lemma mul_special_values w a b xa xb :
  objects w !! a = Some xa -> objects w !! b = Some xb ->
  (_special xa = SPECIAL_NAN \/ _special xb = SPECIAL_NAN ->
   BigFloat.mul a b w = new_BigFloat NaN None None w)
  /\ (_special xa <> SPECIAL_NAN -> _special xb <> SPECIAL_NAN ->
      _special xa = SPECIAL_ZERO \/ _special xb = SPECIAL_ZERO ->
      BigFloat.mul a b w = new_BigFloat (VNumber 0) None None w)
  /\ (_special xa <> SPECIAL_NAN -> _special xb <> SPECIAL_NAN ->
      _special xa <> SPECIAL_ZERO -> _special xb <> SPECIAL_ZERO ->
      _special xa = SPECIAL_INF \/ _special xb = SPECIAL_INF ->
      BigFloat.mul a b w
      = new_BigFloat (if 0 <? _sign xa * _sign xb then Infinity
                      else neg_Infinity) None None w).
Proof.
  intros Ha Hb. unfold BigFloat.mul.
  rewrite (bind_get2 a b xa xb) by assumption.
  destruct (_special xa), (_special xb); cbn;
    repeat split; intros; try reflexivity; intuition congruence.
Qed.

(** C2: [mul] returns zero as soon as one operand is ZERO, before it
    looks for INF, so [mul(0, Infinity)] and [mul(Infinity, 0)] are zero,
    not NaN. *)
Theorem C2_mul_zero_by_infinity_is_zero :
  eval (a ← new_BigFloat (VNumber 0) None None;
        b ← new_BigFloat Infinity None None;
        p ← BigFloat.mul a b;
        get p) = Ret the_zero
  /\ eval (a ← new_BigFloat neg_Infinity None None;
           b ← new_BigFloat (VNumber 0) None None;
           p ← BigFloat.mul a b;
           get p) = Ret the_zero.
Proof. split; vm_compute; reflexivity. Qed.

(** The special values of [div], in the order of the code: a ZERO or INF
    divisor is answered before either operand is tested for NAN. *)
Lemma div_special_values fuel w a b xa xb :
  objects w !! a = Some xa -> objects w !! b = Some xb ->
  (_special xb = SPECIAL_ZERO ->
   BigFloat.div fuel a b w = new_BigFloat Infinity None None w)
  /\ (_special xb = SPECIAL_INF ->
      BigFloat.div fuel a b w = new_BigFloat (VBigInt 0) None None w)
  /\ (_special xb <> SPECIAL_ZERO -> _special xb <> SPECIAL_INF ->
      _special xa = SPECIAL_NAN \/ _special xb = SPECIAL_NAN ->
      BigFloat.div fuel a b w = new_BigFloat NaN None None w).
Proof.
  intros Ha Hb. unfold BigFloat.div.
  rewrite (bind_get2 a b xa xb) by assumption.
  destruct (_special xa), (_special xb); cbn;
    repeat split; intros; try reflexivity; intuition congruence.
Qed.

(** C1: [div] tests [b] for ZERO and INF before it tests either operand
    for NAN, so [div(NaN, 0)] is +Infinity and [div(NaN, Infinity)] is
    zero, not NaN. *)
Theorem C1_div_NaN_by_zero_or_infinity_is_not_NaN :
  eval (a ← new_BigFloat NaN None None;
        b ← new_BigFloat (VNumber 0) None None;
        q ← BigFloat.div 0 a b;
        get q) = Ret the_Infinity
  /\ eval (a ← new_BigFloat NaN None None;
           b ← new_BigFloat Infinity None None;
           q ← BigFloat.div 0 a b;
           get q) = Ret the_zero.
Proof. split; vm_compute; reflexivity. Qed.

(** With a divisor that is neither zero nor infinite the NaN test is
    reached. *)
Example div_NaN_by_three :
  eval (a ← new_BigFloat NaN None None;
        b ← new_BigFloat (VNumber 3) None None;
        q ← BigFloat.div 0 a b;
        get q) = Ret the_NaN.
Proof. vm_compute; reflexivity. Qed.

(** ** Results on concrete operands *)

(** C5: when the aligned sum is zero [add] returns [new BigFloat(0n)],
    whose precision is the default one (20), not the working precision
    (here 50). *)
Theorem C5_add_zero_sum_has_default_precision :
  eval (a ← new_BigFloat (VNumber 1) (Some 50) None;
        b ← BigFloat.neg a;
        xa ← get a; xb ← get b;
        r ← BigFloat.add a b;
        xr ← get r;
        mret (_special xa, _precision xa, _special xb, _precision xb, xr))
  = Ret (SPECIAL_NONE, 50, SPECIAL_NONE, 50, the_zero)
  /\ _precision the_zero = 20.
Proof. split; vm_compute; reflexivity. Qed.

(** C6: [frexp] returns a copy of [x] that keeps the exponent of [x],
    together with that exponent; [ldexp] adds it a second time.  From 2
    (significand 2, exponent 1) the round trip gives exponent 2, the
    number 4. *)
Theorem C6_frexp_ldexp_doubles_the_exponent :
  eval (x ← new_BigFloat (VNumber 2) None None;
        me ← BigFloat.frexp x;
        r ← BigFloat.ldexp (fst me) (snd me);
        xx ← get x; xm ← get (fst me); xr ← get r;
        mret (xx, xm, snd me, xr))
  = Ret (mkBigFloat 1 1 2 20 ROUNDING_NEAREST SPECIAL_NONE 2,
         mkBigFloat 1 1 2 20 ROUNDING_NEAREST SPECIAL_NONE 2,
         1,
         mkBigFloat 1 2 2 20 ROUNDING_NEAREST SPECIAL_NONE 2).
Proof. vm_compute; reflexivity. Qed.

(** C9: [div] binds [inv] to the object [b] itself and assigns the
    working precision to it: after [div(a, b)] with [a] at precision 30
    the divisor [b], built at precision 20, has precision 30.  The first
    case is the path for two powers of two, which does not iterate; the
    second is the general path through [inverse]. *)
Theorem C9_div_overwrites_precision_of_divisor :
  eval (a ← new_BigFloat (VNumber 0.5) (Some 30) None;
        b ← new_BigFloat (VNumber 0.25) (Some 20) None;
        before ← get b;
        q ← BigFloat.div 0 a b;
        after ← get b;
        mret (_precision before, _precision after))
  = Ret (20, 30)
  /\ eval (a ← new_BigFloat (VBigInt 3) (Some 30) None;
           b ← new_BigFloat (VBigInt 7) (Some 20) None;
           before ← get b;
           q ← BigFloat.div 10 a b;
           after ← get b;
           mret (_precision before, _precision after))
     = Ret (20, 30).
Proof. split; vm_compute; reflexivity. Qed.

(** C10: [add(0.5, 0.5)] stores significand 2 with exponent 0 and the
    constructor applied to 1 stores significand 1 with exponent 0; [cmp]
    rescales and returns 0, [equal] compares the fields and returns
    false. *)
Theorem C10_equal_false_where_cmp_is_zero :
  eval (a ← new_BigFloat (VNumber 0.5) None None;
        b ← new_BigFloat (VNumber 0.5) None None;
        s ← BigFloat.add a b;
        o ← new_BigFloat (VNumber 1) None None;
        xs ← get s; xo ← get o;
        e ← BigFloat.equal s o;
        c ← BigFloat.cmp s o;
        mret (_significand xs, _exponent xs, _significand xo, _exponent xo,
              e, c))
  = Ret (2, 0, 1, 0, false, 0).
Proof. vm_compute; reflexivity. Qed.

(** C8: for [x] = -Infinity and a positive [y], [pow] calls
    [BigFloat.isInteger(y)], which is not defined (only the method of the
    prototype is): the call throws a TypeError, for odd and for even
    [y]. *)
Theorem C8_pow_neg_infinity_throws
  (pow_normal : loc -> loc -> M loc) :
  eval (x ← new_BigFloat neg_Infinity None None;
        y ← new_BigFloat (VNumber 3) None None;
        BigFloat.pow pow_normal x y)
  = Throw (TypeError "BigFloat.isInteger is not a function")
  /\ eval (x ← new_BigFloat neg_Infinity None None;
           y ← new_BigFloat (VNumber 2) None None;
           BigFloat.pow pow_normal x y)
     = Throw (TypeError "BigFloat.isInteger is not a function").
Proof. split; vm_compute; reflexivity. Qed.

(** ** Which operations throw *)

Lemma extends_refl w : extends w w.
Proof. unfold extends. lia. Qed.

Lemma extends_trans w1 w2 w3 : extends w1 w2 -> extends w2 w3 -> extends w1 w3.
Proof. unfold extends. lia. Qed.

Lemma valid_extends w w' l : valid w l -> extends w w' -> valid w' l.
Proof. unfold valid, extends. lia. Qed.

Lemma post_ret D {A} (a : A) w (Q : A -> world -> Prop) :
  Q a w -> post D (mret a) w Q.
Proof. intros H. split; [apply extends_refl | exact H]. Qed.

Lemma post_bind D {A B} (c : M A) (k : A -> M B) w P Q :
  post D c w P ->
  (forall a w', extends w w' -> P a w' -> post D (k a) w' Q) ->
  post D (c ≫= k) w Q.
Proof.
  unfold post, mbind, M_bind. intros Hc Hk.
  destruct (c w) as [[a w']|e|]; [|contradiction|exact Hc].
  destruct Hc as [Hext HP]. specialize (Hk a w' Hext HP).
  destruct (k a w') as [[b w'']|e|]; [|contradiction|exact Hk].
  destruct Hk as [Hext' HQ]. split; [eapply extends_trans; eassumption|exact HQ].
Qed.

Lemma post_get_world D w : post D get_world w any.
Proof. split; [apply extends_refl | exact I]. Qed.

Lemma post_get D l w : valid w l -> post D (get l) w any.
Proof.
  intros Hl. unfold post, get. cbv beta.
  destruct (lookup_lt_is_Some_2 (objects w) l Hl) as [x ->].
  split; [apply extends_refl | exact I].
Qed.

Lemma post_put D l x w : post D (put l x) w any.
Proof.
  split; [|exact I]. unfold extends. cbn [objects].
  rewrite length_insert. lia.
Qed.

Lemma post_alloc D x w : post D (alloc x) w fresh.
Proof.
  split; unfold extends, fresh, valid; cbn [objects];
    rewrite length_app; cbn; lia.
Qed.

Lemma post_modify D l f w : valid w l -> post D (modify l f) w any.
Proof.
  intros Hl. unfold modify. eapply post_bind; [apply post_get, Hl|].
  intros x w' _ _. apply post_put.
Qed.

Lemma post_call D {A} l (m : BigFloat -> A * BigFloat) w :
  valid w l -> post D (call l m) w any.
Proof.
  intros Hl. unfold call. eapply post_bind; [apply post_get, Hl|].
  intros x w' _ _. eapply post_bind; [apply post_put|].
  intros [] w'' _ _. apply post_ret. exact I.
Qed.

Lemma post_when D c k w : post D k w any -> post D (when c k) w any.
Proof. intros Hk. destruct c; [exact Hk | apply post_ret; exact I]. Qed.

Lemma post_new D v precision rounding w :
  match v with VObject l => valid w l | _ => True end ->
  post D (new_BigFloat v precision rounding) w fresh.
Proof.
  intros Hv. unfold new_BigFloat.
  eapply post_bind; [apply post_get_world|]. intros w0 w' Hext _.
  destruct v as [num|n|l]; try apply post_alloc.
  eapply post_bind; [apply post_get; eapply valid_extends; eassumption|].
  intros x w'' _ _. apply post_alloc.
Qed.

Lemma post_new_value D v precision rounding w :
  match v with VObject _ => False | _ => True end ->
  post D (new_BigFloat v precision rounding) w fresh.
Proof. intros Hv. apply post_new. destruct v; tauto. Qed.

Create HintDb post_db.
#[local] Hint Resolve post_get post_modify post_call post_when
  post_get_world : post_db.
#[local] Hint Extern 1 (post _ (new_BigFloat (VObject _) _ _) _ _) =>
  apply post_new; cbn : post_db.
#[local] Hint Extern 1 (post _ (new_BigFloat (if ?c then _ else _) _ _) _ _) =>
  destruct c : post_db.
#[local] Hint Extern 2 (post _ (new_BigFloat _ _ _) _ _) =>
  apply post_new_value; exact I : post_db.
#[local] Hint Extern 1 (valid _ _) => eassumption : post_db.
#[local] Hint Extern 1 (fresh _ _) => eassumption : post_db.
#[local] Hint Extern 1 (any _ _) => exact I : post_db.

(** Objects known in [w] are known in every later store. *)
Ltac carry :=
  unfold fresh in *;
  repeat match goal with
  | Hext : extends ?w ?w', H : valid ?w ?l |- _ =>
      lazymatch goal with
      | _ : valid w' l |- _ => fail
      | _ => assert (valid w' l) by (eapply valid_extends; eassumption)
      end
  end.

Ltac post_step :=
  lazymatch goal with
  | |- post _ (mret _) _ _ => apply post_ret; unfold fresh, any; auto
  | |- post _ (mbind _ _) _ _ =>
      eapply post_bind;
      [ solve [eauto with post_db] | intros ? ? ? ?; carry ]
  | |- post _ (if ?c then _ else _) _ _ => destruct c
  | |- post _ (match (if ?c then _ else _) with _ => _ end) _ _ => destruct c
  | |- post _ _ _ _ => solve [eauto with post_db]
  end.

Ltac post_auto := cbv zeta; repeat post_step.

Lemma post_bind_get D {B} l x (k : BigFloat -> M B) w Q :
  objects w !! l = Some x -> post D (k x) w Q -> post D (get l ≫= k) w Q.
Proof. intros Hl Hk. unfold post. now rewrite (bind_get l x). Qed.

Lemma add_post a b w D :
  valid w a -> valid w b -> post D (BigFloat.add a b) w fresh.
Proof. intros Ha Hb. unfold BigFloat.add. post_auto. Qed.
#[local] Hint Resolve add_post : post_db.

Lemma sub_post a b w D :
  valid w a -> valid w b -> post D (BigFloat.sub a b) w fresh.
Proof. intros Ha Hb. unfold BigFloat.sub. post_auto. Qed.
#[local] Hint Resolve sub_post : post_db.

Lemma mul_post a b w D :
  valid w a -> valid w b -> post D (BigFloat.mul a b) w fresh.
Proof. intros Ha Hb. unfold BigFloat.mul. post_auto. Qed.
#[local] Hint Resolve mul_post : post_db.

(** The Newton iteration may exhaust any given fuel; it does not
    throw. *)
Lemma inverse_loop_post fuel v u two one bitPrec w :
  valid w v -> valid w u -> valid w two -> valid w one ->
  post True (BigFloat.inverse_loop fuel v u two one bitPrec) w fresh.
Proof.
  revert u w. induction fuel as [|fuel IH]; intros u w Hv Hu Htwo Hone.
  - exact I.
  - cbn [BigFloat.inverse_loop]. post_auto; apply IH; assumption.
Qed.
#[local] Hint Resolve inverse_loop_post : post_db.

Lemma inverse_post fuel a w :
  valid w a -> post True (BigFloat.inverse fuel a) w fresh.
Proof. intros Ha. unfold BigFloat.inverse. post_auto. Qed.
#[local] Hint Resolve inverse_post : post_db.

Lemma div_post fuel a b w :
  valid w a -> valid w b -> post True (BigFloat.div fuel a b) w fresh.
Proof.
  intros Ha Hb. unfold BigFloat.div. post_auto.
Qed.
#[local] Hint Resolve div_post : post_db.

Lemma neg_post a w D : valid w a -> post D (BigFloat.neg a) w fresh.
Proof. intros Ha. unfold BigFloat.neg. post_auto. Qed.

Lemma equal_post a b w D :
  valid w a -> valid w b -> post D (BigFloat.equal a b) w any.
Proof. intros Ha Hb. unfold BigFloat.equal. post_auto. Qed.

Lemma less_post a b w D :
  valid w a -> valid w b -> post D (BigFloat.less a b) w any.
Proof. intros Ha Hb. unfold BigFloat.less. post_auto. Qed.
#[local] Hint Resolve less_post : post_db.

Lemma cmp_post a b w D :
  valid w a -> valid w b -> post D (BigFloat.cmp a b) w any.
Proof. intros Ha Hb. unfold BigFloat.cmp. post_auto. Qed.

Lemma trunc_post x w D : valid w x -> post D (BigFloat.trunc x) w fresh.
Proof. intros Hx. unfold BigFloat.trunc. post_auto. Qed.
#[local] Hint Resolve trunc_post : post_db.

Lemma frexp_post x w D :
  valid w x -> post D (BigFloat.frexp x) w (fun me w' => valid w' (fst me)).
Proof. intros Hx. unfold BigFloat.frexp. post_auto. Qed.

Lemma ldexp_post x exp w D : valid w x -> post D (BigFloat.ldexp x exp) w fresh.
Proof. intros Hx. unfold BigFloat.ldexp. post_auto. Qed.

(** [toBigInt] returns on the finite values. *)
Lemma toBigInt_post this x w D :
  objects w !! this = Some x ->
  _special x <> SPECIAL_NAN -> _special x <> SPECIAL_INF ->
  post D (toBigInt this) w any.
Proof.
  intros Hl Hnan Hinf. pose proof (lookup_valid _ _ _ Hl) as Hv.
  unfold toBigInt. apply (post_bind_get D this x); [assumption|].
  rewrite !bool_decide_eq_false_2 by assumption. post_auto.
Qed.

(** [fmod] does not throw when the significand of the divisor is not
    zero. *)
Lemma fmod_post fuel a b xb w :
  valid w a -> objects w !! b = Some xb -> _significand xb <> 0 ->
  post True (BigFloat.fmod fuel a b) w fresh.
Proof.
  intros Ha Hl Hsig. pose proof (lookup_valid _ _ _ Hl) as Hb.
  unfold BigFloat.fmod. apply (post_bind_get True b xb); [assumption|].
  destruct (Z.eqb_spec (_significand xb) 0) as [?|_]; [contradiction|].
  post_auto.
Qed.

Lemma post_returns {A} (c : M A) w Q : post False c w Q -> returns c w.
Proof.
  unfold post, returns. destruct (c w) as [[a w']|e|]; [eauto|tauto|tauto].
Qed.

Lemma post_not_throws D {A} (c : M A) w Q : post D c w Q -> ~ throws c w.
Proof.
  unfold post, throws. intros H [e He]. now rewrite He in H.
Qed.



(** The objects that the constructor builds for NaN and for the
    infinities have the significand [0n]: [fmod] throws on them too. *)
Example fmod_by_NaN_or_infinity_throws :
  eval (a ← new_BigFloat (VNumber 7.5) None None;
        b ← new_BigFloat NaN None None;
        BigFloat.fmod 5 a b)
  = Throw (Error "Division by zero in fmod")
  /\ eval (a ← new_BigFloat (VNumber 7.5) None None;
           b ← new_BigFloat neg_Infinity None None;
           BigFloat.fmod 5 a b)
     = Throw (Error "Division by zero in fmod").
Proof. split; vm_compute; reflexivity. Qed.


(** * Further properties of the methods *)

(** ** [_bitlength] and [_compact] *)

(** X1: a forced [_bitlength] of a positive significand [n] returns the
    [b] with [2^(b-1) <= n < 2^b], whatever the cache held, and leaves
    [b] in the cache; the next call returns the same [b] and changes
    nothing. *)
Theorem bitlength_forced_is_bit_length (this : BigFloat) :
  0 < _significand this ->
  let '(b, this') := _bitlength true this in
  2 ^ (b - 1) <= _significand this < 2 ^ b
  /\ _bits this' = b
  /\ _bitlength false this' = (b, this').
Proof.
  intros Hn.
  assert (E : _bitlength true this
              = (bitlen (_significand this),
                 set_bits (bitlen (_significand this)) this)).
  { unfold _bitlength.
    destruct (Z.eqb_spec (_significand this) 0) as [?|_]; [lia|].
    cbn [_bits set_bits _significand]. cbn [Z.ltb Z.compare].
    unfold hexLen, firstDigit.
    destruct (Z.ltb_spec (_significand this) 0) as [?|_]; [lia|].
    rewrite first_digit_bits by assumption.
    now destruct this. }
  rewrite E. unfold bitlen.
  pose proof (Z.log2_spec _ Hn) as [Hlo Hhi].
  pose proof (Z.log2_nonneg (_significand this)) as Hk.
  replace (Z.log2 (_significand this) + 1 - 1)
    with (Z.log2 (_significand this)) by lia.
  replace (Z.succ (Z.log2 (_significand this)))
    with (Z.log2 (_significand this) + 1) in Hhi by lia.
  repeat split; try assumption.
  unfold _bitlength. cbn [_significand set_bits _bits].
  destruct (Z.eqb_spec (_significand this) 0) as [?|_]; [lia|].
  destruct (Z.ltb_spec 0 (Z.log2 (_significand this) + 1)) as [_|?]; [|lia].
  reflexivity.
Qed.

(** X1 on the significand 255 with a stale cache. *)
Lemma bitlength_forced_is_bit_length_witness :
  let this := mkBigFloat 1 0 255 20 ROUNDING_NEAREST SPECIAL_NONE 3 in
  let '(b, this') := _bitlength true this in
  2 ^ (b - 1) <= 255 < 2 ^ b /\ _bits this' = b
  /\ _bitlength false this' = (b, this').
Proof.
  intros this. apply (bitlength_forced_is_bit_length this). reflexivity.
Defined.

Lemma compact_loop_spec p bits :
  let '(q, bits') := compact_loop p bits in
  bits <= bits'
  /\ Z.pos p = Z.pos q * 2 ^ (bits' - bits)
  /\ Z.odd (Z.pos q) = true.
Proof.
  revert bits. induction p as [p _|p IH|]; intros bits; cbn [compact_loop].
  - replace (bits - bits) with 0 by lia. rewrite Z.pow_0_r.
    repeat split; try lia; reflexivity.
  - specialize (IH (bits + 1)). destruct (compact_loop p (bits + 1)) as [q b'].
    destruct IH as (Hle & Heq & Hodd). repeat split; [lia| |assumption].
    replace (b' - bits) with (Z.succ (b' - (bits + 1))) by lia.
    rewrite Z.pow_succ_r by lia. rewrite Pos2Z.inj_xO, Heq. ring.
  - replace (bits - bits) with 0 by lia. rewrite Z.pow_0_r.
    repeat split; try lia; reflexivity.
Qed.

(** X2: [_compact] of a positive significand removes its [k] trailing
    zero bits: the new significand is odd, the old one is the new one
    times [2^k], the bit length and the remembered bit length drop by
    [k], and the exponent (of the leading bit) is kept, so the number is
    the same. *)
Theorem compact_strips_trailing_zeros (this : BigFloat) :
  0 < _significand this ->
  let r := _compact this in
  let k := _bits this - _bits r in
  0 <= k
  /\ Z.odd (_significand r) = true
  /\ _significand this = _significand r * 2 ^ k
  /\ bitlen (_significand r) = bitlen (_significand this) - k
  /\ _exponent r = _exponent this
  /\ _sign r = _sign this
  /\ _special r = _special this.
Proof.
  intros Hn. unfold _compact.
  destruct (_significand this) as [|p|p] eqn:E; try lia.
  pose proof (compact_loop_spec p 0) as H.
  destruct (compact_loop p 0) as [q bits]. destruct H as (Hle & Heq & Hodd).
  rewrite Z.sub_0_r in Heq.
  cbn [Z.eqb]. cbn [_bits _significand _exponent _sign _special
                    set_bits set_significand].
  replace (_bits this - (_bits this - bits)) with bits by lia.
  repeat split; try assumption; try reflexivity.
  unfold bitlen. rewrite Heq, Z.log2_mul_pow2 by lia. lia.
Qed.

(** X2 on the significand 40 = 5 * 2^3. *)
Lemma compact_strips_trailing_zeros_witness :
  let this := mkBigFloat 1 5 40 20 ROUNDING_NEAREST SPECIAL_NONE 6 in
  let r := _compact this in
  let k := _bits this - _bits r in
  0 <= k /\ Z.odd (_significand r) = true
  /\ _significand this = _significand r * 2 ^ k
  /\ bitlen (_significand r) = bitlen (_significand this) - k
  /\ _exponent r = _exponent this /\ _sign r = _sign this
  /\ _special r = _special this.
Proof.
  intros this. apply (compact_strips_trailing_zeros this). reflexivity.
Defined.

(** ** [_normalize] *)

(** A significand that fits is left as it is. *)
Lemma normalize_fits this :
  0 < _significand this -> cache_ok this ->
  bitlen (_significand this) <= targetBits (_precision this) ->
  _normalize this
  = set_special SPECIAL_NONE (set_bits (bitlen (_significand this)) this).
Proof.
  intros Hs Hc HW. unfold _normalize.
  rewrite bitlength_value by assumption.
  destruct (Z.leb_spec (bitlen (_significand this))
              (targetBits (_precision this))) as [_|?]; [|lia].
  cbn [_significand set_bits].
  destruct (Z.eqb_spec (_significand this) 0) as [?|_]; [lia|reflexivity].
Qed.

Lemma shiftr_lower sig W :
  0 < sig -> 1 <= W < bitlen sig ->
  2 ^ (W - 1) <= Z.shiftr sig (bitlen sig - W).
Proof.
  intros Hs HW. unfold bitlen in *.
  rewrite Z.shiftr_div_pow2 by lia.
  assert (Hd : 0 < 2 ^ (Z.log2 sig + 1 - W)) by (apply Z.pow_pos_nonneg; lia).
  apply Z.div_le_lower_bound; [lia|].
  rewrite <- Z.pow_add_r by lia.
  replace (Z.log2 sig + 1 - W + (W - 1)) with (Z.log2 sig) by lia.
  apply Z.log2_spec. lia.
Qed.

(** X3: what [_normalize] keeps.  For a positive significand and a width
    [W >= 1], the result is NORMAL, its significand is positive and at
    most [2^W] (one more than [W] bits can hold: see C3), and the sign,
    the exponent, the precision and the rounding mode are those of the
    input. *)
Theorem normalize_invariant (this : BigFloat) :
  let W := targetBits (_precision this) in
  0 < _significand this -> cache_ok this -> 1 <= W ->
  let r := _normalize this in
  0 < _significand r <= 2 ^ W
  /\ _special r = SPECIAL_NONE
  /\ _sign r = _sign this
  /\ _exponent r = _exponent this
  /\ _precision r = _precision this
  /\ _rounding r = _rounding this.
Proof.
  intros W Hs Hc HW r. subst r.
  destruct (Z.le_gt_cases (bitlen (_significand this)) W) as [Hfit|Hex].
  - rewrite normalize_fits by assumption.
    cbn [_significand _special _sign _exponent _precision _rounding
         set_special set_bits].
    repeat split; try lia.
    apply Z.lt_le_incl.
    apply Z.lt_le_trans with (2 ^ bitlen (_significand this)).
    + unfold bitlen. apply Z.log2_spec. assumption.
    + apply Z.pow_le_mono_r; lia.
  - rewrite normalize_excess by (assumption || (fold W; lia)).
    fold W.
    cbn [_significand _special _sign _exponent _precision _rounding].
    pose proof (shiftr_below_target (_significand this) W Hs ltac:(lia)) as Hhi.
    pose proof (shiftr_lower (_significand this) W Hs ltac:(lia)) as Hlo.
    assert (0 < 2 ^ (W - 1)) by (apply Z.pow_pos_nonneg; lia).
    set (u := Z.b2z _).
    assert (Hu : 0 <= u <= 1) by (subst u; destruct (roundUp _ _ _ _ _); cbn; lia).
    destruct (Z.eqb_spec (Z.shiftr (_significand this)
                            (bitlen (_significand this) - W) + u) 0);
      repeat split; try lia; reflexivity.
Qed.

(** X3 on the carry of C3: 255 at 7 bits becomes 128 = 2^7. *)
Lemma normalize_invariant_witness :
  let this := mkBigFloat 1 7 255 1 ROUNDING_NEAREST SPECIAL_NONE 8 in
  let r := _normalize this in
  0 < _significand r <= 2 ^ targetBits 1 /\ _special r = SPECIAL_NONE
  /\ _sign r = 1 /\ _exponent r = 7 /\ _precision r = 1
  /\ _rounding r = ROUNDING_NEAREST.
Proof.
  intros this.
  apply (normalize_invariant this);
    [reflexivity | right; reflexivity | vm_compute; discriminate].
Defined.

(** How the kept bits relate to the dropped ones: the code's decision
    read on the quotient and the remainder of the division by [2^d]. *)
Lemma normalize_excess_significand this :
  let W := targetBits (_precision this) in
  let sig := _significand this in
  let d := bitlen sig - W in
  0 < sig -> cache_ok this -> 0 <= W < bitlen sig ->
  _sign this = 1 \/ _sign this = -1 -> 0 <= _rounding this <= 3 ->
  _significand (_normalize this)
  = sig / 2 ^ d
    + Z.b2z (spec_round_up (_rounding this) (_sign this) sig d)
  /\ 0 < d /\ sig = 2 ^ d * (sig / 2 ^ d) + sig mod 2 ^ d
  /\ 0 <= sig mod 2 ^ d < 2 ^ d.
Proof.
  intros W sig d Hs Hc HW Hsign Hr.
  assert (Hd : 0 < d) by (subst d; lia).
  assert (Hp : 0 < 2 ^ d) by (apply Z.pow_pos_nonneg; lia).
  rewrite normalize_excess by assumption. cbn [_significand].
  fold W sig d. rewrite roundUp_spec by (assumption || lia).
  rewrite Z.shiftr_div_pow2 by lia.
  repeat split; try lia.
  - apply Z.div_mod. lia.
  - apply Z.mod_pos_bound. lia.
  - apply Z.mod_pos_bound. lia.
Qed.

Lemma testbit_top_of_mod sig d :
  0 < d ->
  Z.testbit sig (d - 1) = (2 ^ (d - 1) <=? sig mod 2 ^ d).
Proof.
  intros Hd.
  rewrite <- (Z.mod_pow2_bits_low sig d (d - 1)) by lia.
  pose proof (Z.mod_pos_bound sig (2 ^ d) ltac:(apply Z.pow_pos_nonneg; lia))
    as Hm.
  set (r := sig mod 2 ^ d) in *.
  assert (E2 : 2 ^ d = 2 * 2 ^ (d - 1)).
  { replace d with (Z.succ (d - 1)) at 1 by lia.
    rewrite Z.pow_succ_r by lia. reflexivity. }
  assert (Hh : 0 < 2 ^ (d - 1)) by (apply Z.pow_pos_nonneg; lia).
  rewrite Z.testbit_eqb by lia.
  destruct (Z.leb_spec (2 ^ (d - 1)) r) as [Hge|Hlt].
  - assert (r / 2 ^ (d - 1) = 1).
    { symmetry. apply Z.div_unique with (r - 2 ^ (d - 1)); lia. }
    rewrite H. reflexivity.
  - rewrite Z.div_small by lia. reflexivity.
Qed.

(** X4: in mode NEAREST the rounded significand, scaled back by [2^d],
    is within half a unit of the last kept place ([2^(d-1)]) of the
    significand it rounds. *)
Theorem normalize_nearest_within_half_ulp (this : BigFloat) :
  let W := targetBits (_precision this) in
  let sig := _significand this in
  let d := bitlen sig - W in
  0 < sig -> cache_ok this -> 0 <= W < bitlen sig ->
  _sign this = 1 \/ _sign this = -1 ->
  _rounding this = ROUNDING_NEAREST ->
  Z.abs (2 ^ d * _significand (_normalize this) - sig) <= 2 ^ (d - 1).
Proof.
  intros W sig d Hs Hc HW Hsign Hr.
  destruct (normalize_excess_significand this Hs Hc HW Hsign
              ltac:(rewrite Hr; unfold ROUNDING_NEAREST; lia))
    as (E & Hd & Hdiv & Hmod).
  fold W sig d in E, Hd, Hdiv, Hmod. rewrite E.
  unfold spec_round_up. rewrite Hr. cbn [Z.eqb ROUNDING_NEAREST].
  rewrite testbit_top_of_mod by assumption.
  assert (E2 : 2 ^ d = 2 * 2 ^ (d - 1)).
  { replace d with (Z.succ (d - 1)) at 1 by lia.
    rewrite Z.pow_succ_r by lia. reflexivity. }
  destruct (Z.leb_spec (2 ^ (d - 1)) (sig mod 2 ^ d)); cbn [Z.b2z]; lia.
Qed.

(** X4 on 253 rounded to 7 bits: 127 * 2 is within 1 of 253. *)
Lemma normalize_nearest_within_half_ulp_witness :
  let this := mkBigFloat 1 7 253 1 ROUNDING_NEAREST SPECIAL_NONE 8 in
  Z.abs (2 ^ (bitlen 253 - targetBits 1) * _significand (_normalize this)
         - 253)
  <= 2 ^ (bitlen 253 - targetBits 1 - 1).
Proof.
  intros this. apply (normalize_nearest_within_half_ulp this).
  - reflexivity.
  - right; reflexivity.
  - vm_compute. split; [discriminate | reflexivity].
  - left; reflexivity.
  - reflexivity.
Defined.

(** X5: the directed modes.  With [v] the signed significand before and
    [v'] the signed rounded significand scaled back by [2^d]: UP gives
    [v <= v' < v + 2^d], DOWN gives [v - 2^d < v' <= v], and ZERO gives a
    magnitude that is not larger, less than [2^d] below. *)
Theorem normalize_directed_rounding (this : BigFloat) :
  let W := targetBits (_precision this) in
  let sig := _significand this in
  let d := bitlen sig - W in
  0 < sig -> cache_ok this -> 0 <= W < bitlen sig ->
  _sign this = 1 \/ _sign this = -1 ->
  let v := _sign this * sig in
  let v' := _sign this * (2 ^ d * _significand (_normalize this)) in
  (_rounding this = ROUNDING_UP -> v <= v' < v + 2 ^ d)
  /\ (_rounding this = ROUNDING_DOWN -> v - 2 ^ d < v' <= v)
  /\ (_rounding this = ROUNDING_ZERO ->
      Z.abs v' <= Z.abs v < Z.abs v' + 2 ^ d).
Proof.
  intros W sig d Hs Hc HW Hsign v v'. subst v v'.
  assert (H : forall m, _rounding this = m -> 0 <= m <= 3 ->
              _significand (_normalize this)
              = sig / 2 ^ d + Z.b2z (spec_round_up m (_sign this) sig d)
              /\ 0 < d /\ sig = 2 ^ d * (sig / 2 ^ d) + sig mod 2 ^ d
              /\ 0 <= sig mod 2 ^ d < 2 ^ d).
  { intros m Hm Hr. rewrite <- Hm.
    apply normalize_excess_significand; try assumption. now rewrite Hm. }
  assert (Hq : 0 <= sig / 2 ^ d).
  { apply Z.div_pos; [lia | apply Z.pow_pos_nonneg; lia]. }
  split; [|split]; intros Hm;
    destruct (H _ Hm ltac:(cbv; split; discriminate)) as (E & Hd & Hdiv & Hmod);
    rewrite E; unfold spec_round_up;
    destruct Hsign as [-> | ->];
    destruct (Z.eqb_spec (sig mod 2 ^ d) 0);
    cbn -[Z.pow Z.div Z.modulo Z.mul Z.add Z.sub Z.abs]; nia.
Qed.

(** X5 on -253 rounded to 7 bits in mode UP: the magnitude is
    truncated. *)
Lemma normalize_directed_rounding_witness :
  let this := mkBigFloat (-1) 7 253 1 ROUNDING_UP SPECIAL_NONE 8 in
  let d := bitlen 253 - targetBits 1 in
  let v' := -1 * (2 ^ d * _significand (_normalize this)) in
  -1 * 253 <= v' < -1 * 253 + 2 ^ d.
Proof.
  intros this d v'.
  refine (proj1 (normalize_directed_rounding this _ _ _ _) _).
  - reflexivity.
  - right; reflexivity.
  - vm_compute. split; [discriminate | reflexivity].
  - right; reflexivity.
  - reflexivity.
Defined.

(** X6: [_normalize] is idempotent: a second call changes nothing. *)
Theorem normalize_idempotent (this : BigFloat) :
  0 < _significand this -> cache_ok this ->
  1 <= targetBits (_precision this) ->
  _normalize (_normalize this) = _normalize this.
Proof.
  intros Hs Hc HW.
  pose proof (normalize_invariant this Hs Hc HW)
    as (Hsig & Hsp & _ & _ & Hp & _).
  assert (Hbits : 0 < _bits (_normalize this)
                  /\ _bits (_normalize this)
                     <= targetBits (_precision this)).
  { destruct (Z.le_gt_cases (bitlen (_significand this))
                (targetBits (_precision this))) as [Hfit|Hex].
    - rewrite normalize_fits by assumption. cbn [_bits set_special set_bits].
      unfold bitlen in *. pose proof (Z.log2_nonneg (_significand this)). lia.
    - rewrite normalize_excess by (assumption || lia). cbn [_bits]. lia. }
  revert Hsig Hsp Hp Hbits. generalize (_normalize this). intros r Hsig Hsp Hp Hb.
  unfold _normalize at 1. unfold _bitlength.
  destruct (Z.eqb_spec (_significand r) 0) as [?|_]; [lia|].
  destruct (Z.ltb_spec 0 (_bits r)) as [_|?]; [|lia].
  rewrite Hp.
  destruct (Z.leb_spec (_bits r) (targetBits (_precision this))) as [_|?];
    [|lia].
  destruct (Z.eqb_spec (_significand r) 0) as [?|_]; [lia|].
  rewrite <- Hsp. now destruct r.
Qed.

(** X6 on the carry of C3. *)
Lemma normalize_idempotent_witness :
  let this := mkBigFloat 1 7 255 1 ROUNDING_NEAREST SPECIAL_NONE 8 in
  _normalize (_normalize this) = _normalize this.
Proof.
  intros this.
  apply (normalize_idempotent this);
    [reflexivity | right; reflexivity | vm_compute; discriminate].
Defined.

(** * Further properties of the static functions *)

(** ** Running a program on a store *)

Lemma lookup_snoc_last w x :
  objects (snoc w x) !! length (objects w) = Some x.
Proof. cbn [objects snoc]. apply list_lookup_middle. reflexivity. Qed.

Lemma lookup_snoc_old w x l y :
  objects w !! l = Some y -> objects (snoc w x) !! l = Some y.
Proof. intros H. cbn [objects snoc]. now apply lookup_app_l_Some. Qed.

Lemma lookup_upd_eq w l x y :
  objects w !! l = Some x -> objects (upd w l y) !! l = Some y.
Proof.
  intros H. cbn [objects upd]. apply list_lookup_insert_eq.
  eapply lookup_lt_Some, H.
Qed.

Lemma lookup_upd_ne w l l' y :
  l <> l' -> objects (upd w l y) !! l' = objects w !! l'.
Proof. intros H. cbn [objects upd]. now apply list_lookup_insert_ne. Qed.

Lemma length_upd w l y : length (objects (upd w l y)) = length (objects w).
Proof. cbn [objects upd]. apply length_insert. Qed.

Lemma upd_snoc_last w x y : upd (snoc w x) (length (objects w)) y = snoc w y.
Proof.
  unfold upd, snoc. cbn [objects defaultPrecision defaultRounding].
  f_equal. rewrite insert_app_r_alt by lia.
  now rewrite Nat.sub_diag.
Qed.

Lemma upd_upd w l x y : upd (upd w l x) l y = upd w l y.
Proof.
  unfold upd. cbn [objects defaultPrecision defaultRounding].
  f_equal. apply list_insert_insert_eq.
Qed.

Lemma bind_alloc {B} x (k : loc -> M B) w :
  (alloc x ≫= k) w = k (length (objects w)) (snoc w x).
Proof. reflexivity. Qed.

Lemma bind_modify {B} l x f (k : unit -> M B) w :
  objects w !! l = Some x -> (modify l f ≫= k) w = k tt (upd w l (f x)).
Proof.
  intros H. unfold modify, mbind, M_bind, get, put. now rewrite H.
Qed.

Lemma bind_call {A B} l x (m : BigFloat -> A * BigFloat) (k : A -> M B) w :
  objects w !! l = Some x ->
  (call l m ≫= k) w = k (fst (m x)) (upd w l (snd (m x))).
Proof.
  intros H. unfold call, mbind, M_bind, get, put, mret, M_ret.
  now rewrite H.
Qed.

Lemma bind_new_BigInt {B} n precision rounding (k : loc -> M B) w :
  (new_BigFloat (VBigInt n) precision rounding ≫= k) w
  = k (length (objects w)) (snoc w (from_BigInt w n precision rounding)).
Proof. reflexivity. Qed.

Lemma bind_new_Number {B} num precision rounding (k : loc -> M B) w :
  (new_BigFloat (VNumber num) precision rounding ≫= k) w
  = k (length (objects w)) (snoc w (from_Number w num precision rounding)).
Proof. reflexivity. Qed.

Lemma bind_new_copy {B} l x precision rounding (k : loc -> M B) w :
  objects w !! l = Some x ->
  (new_BigFloat (VObject l) precision rounding ≫= k) w
  = k (length (objects w)) (snoc w x).
Proof.
  intros H. unfold new_BigFloat, mbind, M_bind, get_world, get, alloc.
  now rewrite H.
Qed.

Lemma new_BigInt_run n precision rounding w :
  new_BigFloat (VBigInt n) precision rounding w
  = Ret (length (objects w), snoc w (from_BigInt w n precision rounding)).
Proof. reflexivity. Qed.

Lemma new_copy_run l x precision rounding w :
  objects w !! l = Some x ->
  new_BigFloat (VObject l) precision rounding w
  = Ret (length (objects w), snoc w x).
Proof.
  intros H. unfold new_BigFloat, mbind, M_bind, get_world, get, alloc.
  now rewrite H.
Qed.

Lemma bitlength_forced_value this :
  0 < _significand this ->
  _bitlength true this = (bitlen (_significand this), cached this).
Proof.
  intros Hn. unfold _bitlength, cached.
  destruct (Z.eqb_spec (_significand this) 0) as [?|_]; [lia|].
  cbn [_bits set_bits _significand]. cbn [Z.ltb Z.compare].
  unfold hexLen, firstDigit.
  destruct (Z.ltb_spec (_significand this) 0) as [?|_]; [lia|].
  rewrite first_digit_bits by assumption.
  now destruct this.
Qed.

Lemma bitlength_cached this :
  0 < _significand this -> cache_ok this ->
  _bitlength false this = (bitlen (_significand this), cached this).
Proof. apply bitlength_value. Qed.

Lemma cached_normal x : normal x -> normal (cached x).
Proof.
  intros (Hsp & Hs & Hsign & Hc). unfold normal, cached, cache_ok.
  cbn [_special _significand _sign _bits set_bits]. tauto.
Qed.

(** What the constructor builds from a BigInt other than 0: nothing is
    rounded. *)
Lemma from_BigInt_nonzero w n precision rounding :
  n <> 0 ->
  from_BigInt w n precision rounding
  = mkBigFloat (if n <? 0 then -1 else 1) (bitlen (Z.abs n) - 1) (Z.abs n)
      (default (defaultPrecision w) precision)
      (default (defaultRounding w) rounding) SPECIAL_NONE
      (bitlen (Z.abs n)).
Proof.
  intros Hn. unfold from_BigInt, _normalizeBits, fresh_this.
  cbn [_significand set_exponent set_sign set_significand _sign _exponent
       _precision _rounding _special _bits].
  assert (E : (if n <? 0 then - n else n) = Z.abs n)
    by (destruct (Z.ltb_spec n 0); lia).
  rewrite E.
  destruct (Z.eqb_spec (Z.abs n) 0) as [?|_]; [lia|].
  rewrite bitlength_forced_value
    by (cbn [_significand set_exponent set_sign set_significand]; lia).
  unfold cached.
  cbn [_significand set_exponent set_sign set_significand _sign _exponent
       _precision _rounding _special _bits set_special set_bits].
  f_equal; lia.
Qed.

Lemma from_BigInt_zero w precision rounding :
  from_BigInt w 0 precision rounding
  = mkBigFloat 1 0 0 (default (defaultPrecision w) precision)
      (default (defaultRounding w) rounding) SPECIAL_ZERO 0.
Proof. reflexivity. Qed.

(** ** The integer operations *)

Lemma land_mask_mod s f : 0 <= f -> Z.land s (Z.shiftl 1 f - 1) = s mod 2 ^ f.
Proof.
  intros Hf. rewrite Z.shiftl_1_l.
  replace (2 ^ f - 1) with (Z.ones f) by (rewrite Z.ones_equiv; lia).
  now apply Z.land_ones.
Qed.

(** Closed goals on the range of the host. *)
Ltac host_range :=
  repeat split; vm_compute; first [reflexivity | discriminate].

(** The common start of [floor], [ceil], [trunc] and [round] on a NORMAL
    object: no special value, and the bit length is read and
    remembered. *)
Ltac integer_start Hl Hn :=
  let Hsp := fresh "Hsp" in
  let Hs := fresh "Hs" in
  let Hsign := fresh "Hsign" in
  let Hc := fresh "Hc" in
  destruct Hn as (Hsp & Hs & Hsign & Hc);
  rewrite (bind_get _ _ _ _ Hl); cbv beta zeta;
  rewrite Hsp; rewrite !bool_decide_eq_false_2 by discriminate;
  rewrite (bind_call _ _ _ _ _ Hl);
  rewrite (bitlength_cached _ Hs Hc); cbn [fst snd].

Lemma trunc_run (w : world) (x : loc) (xx : BigFloat) :
  objects w !! x = Some xx -> normal xx ->
  let f := fracBits xx in
  BigFloat.trunc x w
  = Ret (length (objects w),
         snoc (upd w x (cached xx))
           (if 0 <? f then
              from_BigInt w (Z.quot (_sign xx * _significand xx) (2 ^ f))
                (Some (_precision xx)) (Some (_rounding xx))
            else cached xx)).
Proof.
  intros Hl Hn f. unfold BigFloat.trunc. integer_start Hl Hn.
  subst f. unfold fracBits.
  set (b := bitlen (_significand xx)) in *.
  destruct (Z.leb_spec 0 (_exponent xx - (b - 1))) as [Hge|Hlt];
    destruct (Z.ltb_spec 0 (b - 1 - _exponent xx)) as [Hf|Hf]; try lia.
  - rewrite (new_copy_run x (cached xx)) by (eapply lookup_upd_eq, Hl).
    now rewrite length_upd.
  - rewrite new_BigInt_run, length_upd. do 3 f_equal.
    unfold from_BigInt, fresh_this. cbn [defaultPrecision defaultRounding upd].
    do 4 f_equal.
    all: replace (- (_exponent xx - (b - 1))) with (b - 1 - _exponent xx)
           by lia;
      rewrite Z.shiftr_div_pow2 by lia;
      assert (Hp : 0 < 2 ^ (b - 1 - _exponent xx))
        by (apply Z.pow_pos_nonneg; lia);
      assert (Hq : 0 <= _significand xx / 2 ^ (b - 1 - _exponent xx))
        by (apply Z.div_pos; lia);
      destruct Hsign as [E | E]; rewrite E; cbn [Z.ltb Z.compare];
      rewrite ?Z.mul_1_l;
      try (replace (-1 * _significand xx) with (- _significand xx) by lia;
           rewrite Z.quot_opp_l by lia);
      rewrite Z.quot_div_nonneg by lia; reflexivity.
Qed.



Lemma floor_int sign s f :
  0 < s -> 0 < f -> sign = 1 \/ sign = -1 ->
  (if 0 <? sign then Z.shiftr s f
   else - (if Z.land s (Z.shiftl 1 f - 1) =? 0 then Z.shiftr s f
           else Z.shiftr s f + 1))
  = (sign * s) / 2 ^ f.
Proof.
  intros Hs Hf Hsign. rewrite land_mask_mod, Z.shiftr_div_pow2 by lia.
  assert (Hp : 0 < 2 ^ f) by (apply Z.pow_pos_nonneg; lia).
  destruct Hsign as [-> | ->]; cbn [Z.ltb Z.compare].
  - now rewrite Z.mul_1_l.
  - replace (-1 * s) with (- s) by lia.
    destruct (Z.eqb_spec (s mod 2 ^ f) 0) as [E|E].
    + rewrite Z.div_opp_l_z by lia. reflexivity.
    + rewrite Z.div_opp_l_nz by lia. lia.
Qed.

Lemma ceil_int sign s f :
  0 < s -> 0 < f -> sign = 1 \/ sign = -1 ->
  (if 0 <? sign then
     if Z.land s (Z.shiftl 1 f - 1) =? 0 then Z.shiftr s f
     else Z.shiftr s f + 1
   else - Z.shiftr s f)
  = - ((- (sign * s)) / 2 ^ f).
Proof.
  intros Hs Hf Hsign. rewrite land_mask_mod, Z.shiftr_div_pow2 by lia.
  assert (Hp : 0 < 2 ^ f) by (apply Z.pow_pos_nonneg; lia).
  destruct Hsign as [-> | ->]; cbn [Z.ltb Z.compare].
  - rewrite Z.mul_1_l.
    destruct (Z.eqb_spec (s mod 2 ^ f) 0) as [E|E].
    + rewrite Z.div_opp_l_z by lia. lia.
    + rewrite Z.div_opp_l_nz by lia. lia.
  - replace (- (-1 * s)) with s by lia. reflexivity.
Qed.

Lemma round_int sign s f :
  0 < s -> 0 < f -> sign = 1 \/ sign = -1 ->
  (let r := if Z.shiftl 1 (f - 1) <=? Z.land s (Z.shiftl 1 f - 1)
            then Z.shiftr s f + 1 else Z.shiftr s f in
   if sign <? 0 then - r else r)
  = sign * ((s + 2 ^ (f - 1)) / 2 ^ f).
Proof.
  intros Hs Hf Hsign. cbv zeta.
  rewrite land_mask_mod, Z.shiftr_div_pow2, Z.shiftl_1_l by lia.
  assert (Hp : 0 < 2 ^ f) by (apply Z.pow_pos_nonneg; lia).
  assert (Hh : 0 < 2 ^ (f - 1)) by (apply Z.pow_pos_nonneg; lia).
  assert (E2 : 2 ^ f = 2 * 2 ^ (f - 1)).
  { replace f with (Z.succ (f - 1)) at 1 by lia.
    rewrite Z.pow_succ_r by lia. reflexivity. }
  pose proof (Z.div_mod s (2 ^ f) ltac:(lia)) as Hdm.
  pose proof (Z.mod_pos_bound s (2 ^ f) Hp) as Hm.
  assert (Hr : (s + 2 ^ (f - 1)) / 2 ^ f
               = s / 2 ^ f
                 + (if 2 ^ (f - 1) <=? s mod 2 ^ f then 1 else 0)).
  { destruct (Z.leb_spec (2 ^ (f - 1)) (s mod 2 ^ f)).
    - symmetry.
      apply Z.div_unique with (s mod 2 ^ f - 2 ^ (f - 1)); lia.
    - symmetry. apply Z.div_unique with (s mod 2 ^ f + 2 ^ (f - 1)); lia. }
  rewrite Hr.
  destruct (Z.leb_spec (2 ^ (f - 1)) (s mod 2 ^ f));
    destruct Hsign as [-> | ->]; cbn [Z.ltb Z.compare]; lia.
Qed.

(** X8: [floor] of a NORMAL object with [f > 0] fraction bits returns the
    object built from the BigInt [(sign * significand) / 2^f] (the
    quotient rounded towards minus infinity); with [f <= 0] a copy.
    The operand is within the range of the host and its fraction bits
    are fewer than [host_bits], so that the mask [1n << BigInt(f)]
    exists. *)
Theorem floor_is_quotient_downwards (w : world) (x : loc) (xx : BigFloat) :
  objects w !! x = Some xx -> normal xx ->
  within_host xx -> fracBits xx < host_bits ->
  let f := fracBits xx in
  BigFloat.floor x w
  = Ret (length (objects w),
         snoc (upd w x (cached xx))
           (if 0 <? f then
              from_BigInt w ((_sign xx * _significand xx) / 2 ^ f)
                (Some (_precision xx)) (Some (_rounding xx))
            else cached xx)).
Proof.
  intros Hl Hn _ _ f. unfold BigFloat.floor. integer_start Hl Hn.
  subst f. unfold fracBits.
  set (b := bitlen (_significand xx)) in *.
  destruct (Z.leb_spec 0 (_exponent xx - (b - 1))) as [Hge|Hlt];
    destruct (Z.ltb_spec 0 (b - 1 - _exponent xx)) as [Hf|Hf]; try lia.
  - rewrite (new_copy_run x (cached xx)) by (eapply lookup_upd_eq, Hl).
    now rewrite length_upd.
  - rewrite new_BigInt_run, length_upd. do 3 f_equal.
    replace (- (_exponent xx - (b - 1))) with (b - 1 - _exponent xx) by lia.
    rewrite floor_int by assumption. reflexivity.
Qed.

(** X8 on -7.5: -8. *)
Lemma floor_is_quotient_downwards_witness :
  let w := mkWorld [mkBigFloat (-1) 2 15 20 ROUNDING_NEAREST SPECIAL_NONE 4]
             20 ROUNDING_NEAREST in
  BigFloat.floor 0%nat w
  = Ret (1%nat,
         snoc w (mkBigFloat (-1) 3 8 20 ROUNDING_NEAREST SPECIAL_NONE 4)).
Proof.
  intros w.
  etransitivity;
    [apply (floor_is_quotient_downwards w 0%nat
              (mkBigFloat (-1) 2 15 20 ROUNDING_NEAREST SPECIAL_NONE 4));
     [ reflexivity
     | repeat split; try reflexivity; (left + right); reflexivity
     | host_range | host_range ]
    | vm_compute; reflexivity].
Defined.

(** X9: [ceil] of a NORMAL object with [f > 0] fraction bits returns the
    object built from the BigInt [- ((- sign * significand) / 2^f)] (the
    quotient rounded towards plus infinity); with [f <= 0] a copy.
    The operand is within the range of the host and its fraction bits
    are fewer than [host_bits], so that the mask [1n << BigInt(f)]
    exists. *)
Theorem ceil_is_quotient_upwards (w : world) (x : loc) (xx : BigFloat) :
  objects w !! x = Some xx -> normal xx ->
  within_host xx -> fracBits xx < host_bits ->
  let f := fracBits xx in
  BigFloat.ceil x w
  = Ret (length (objects w),
         snoc (upd w x (cached xx))
           (if 0 <? f then
              from_BigInt w (- ((- (_sign xx * _significand xx)) / 2 ^ f))
                (Some (_precision xx)) (Some (_rounding xx))
            else cached xx)).
Proof.
  intros Hl Hn _ _ f. unfold BigFloat.ceil. integer_start Hl Hn.
  subst f. unfold fracBits.
  set (b := bitlen (_significand xx)) in *.
  destruct (Z.leb_spec 0 (_exponent xx - (b - 1))) as [Hge|Hlt];
    destruct (Z.ltb_spec 0 (b - 1 - _exponent xx)) as [Hf|Hf]; try lia.
  - rewrite (new_copy_run x (cached xx)) by (eapply lookup_upd_eq, Hl).
    now rewrite length_upd.
  - rewrite new_BigInt_run, length_upd. do 3 f_equal.
    replace (- (_exponent xx - (b - 1))) with (b - 1 - _exponent xx) by lia.
    rewrite ceil_int by assumption. reflexivity.
Qed.

(** X9 on 7.5: 8. *)
Lemma ceil_is_quotient_upwards_witness :
  BigFloat.ceil 0%nat two_objects
  = Ret (2%nat,
         snoc two_objects
           (mkBigFloat 1 3 8 20 ROUNDING_NEAREST SPECIAL_NONE 4)).
Proof.
  etransitivity;
    [apply (ceil_is_quotient_upwards two_objects 0%nat
              (mkBigFloat 1 2 15 20 ROUNDING_NEAREST SPECIAL_NONE 4));
     [ reflexivity
     | repeat split; try reflexivity; (left + right); reflexivity
     | host_range | host_range ]
    | vm_compute; reflexivity].
Defined.

(** X10: [round] of a NORMAL object with [f > 0] fraction bits returns
    the object built from the BigInt
    [sign * ((significand + 2^(f-1)) / 2^f)]: the nearest integer, a
    half rounded away from zero; with [f <= 0] a copy.  The operand is
    within the range of the host and its fraction bits are fewer than
    [host_bits], so that the mask and the half exist. *)
Theorem round_is_half_away_from_zero (w : world) (x : loc) (xx : BigFloat) :
  objects w !! x = Some xx -> normal xx ->
  within_host xx -> fracBits xx < host_bits ->
  let f := fracBits xx in
  BigFloat.round x w
  = Ret (length (objects w),
         snoc (upd w x (cached xx))
           (if 0 <? f then
              from_BigInt w
                (_sign xx * ((_significand xx + 2 ^ (f - 1)) / 2 ^ f))
                (Some (_precision xx)) (Some (_rounding xx))
            else cached xx)).
Proof.
  intros Hl Hn _ _ f. unfold BigFloat.round. integer_start Hl Hn.
  subst f. unfold fracBits.
  set (b := bitlen (_significand xx)) in *.
  destruct (Z.leb_spec 0 (_exponent xx - (b - 1))) as [Hge|Hlt];
    destruct (Z.ltb_spec 0 (b - 1 - _exponent xx)) as [Hf|Hf]; try lia.
  - rewrite (new_copy_run x (cached xx)) by (eapply lookup_upd_eq, Hl).
    now rewrite length_upd.
  - rewrite new_BigInt_run, length_upd. do 3 f_equal.
    replace (- (_exponent xx - (b - 1))) with (b - 1 - _exponent xx) by lia.
    replace (b - 1 - _exponent xx - 1) with (b - 1 - _exponent xx - 1) by lia.
    pose proof (round_int (_sign xx) (_significand xx)
                  (b - 1 - _exponent xx) Hs Hf Hsign) as E.
    cbv zeta in E. rewrite <- E. reflexivity.
Qed.

(** X10 on -7.5: -8. *)
Lemma round_is_half_away_from_zero_witness :
  let w := mkWorld [mkBigFloat (-1) 2 15 20 ROUNDING_NEAREST SPECIAL_NONE 4]
             20 ROUNDING_NEAREST in
  BigFloat.round 0%nat w
  = Ret (1%nat,
         snoc w (mkBigFloat (-1) 3 8 20 ROUNDING_NEAREST SPECIAL_NONE 4)).
Proof.
  intros w.
  etransitivity;
    [apply (round_is_half_away_from_zero w 0%nat
              (mkBigFloat (-1) 2 15 20 ROUNDING_NEAREST SPECIAL_NONE 4));
     [ reflexivity
     | repeat split; try reflexivity; (left + right); reflexivity
     | host_range | host_range ]
    | vm_compute; reflexivity].
Defined.

Lemma bind_run {A B} (c : M A) (k : A -> M B) w a w' :
  c w = Ret (a, w') -> (c ≫= k) w = k a w'.
Proof. intros H. unfold mbind, M_bind. now rewrite H. Qed.

Lemma toBigInt_run w this xx :
  objects w !! this = Some xx -> normal xx ->
  let f := fracBits xx in
  exists w',
    toBigInt this w
    = Ret (if 0 <? f then Z.quot (_sign xx * _significand xx) (2 ^ f)
           else _sign xx * _significand xx * 2 ^ (- f), w').
Proof.
  intros Hl Hn f. unfold toBigInt.
  pose proof Hn as (Hsp & Hs & Hsign & Hc).
  rewrite (bind_get _ _ _ _ Hl). rewrite Hsp.
  rewrite !bool_decide_eq_false_2 by discriminate. cbn [orb].
  destruct (Z.eqb_spec (_significand xx) 0) as [?|_]; [lia|].
  rewrite (bind_run _ _ _ _ _ (trunc_run w this xx Hl Hn)).
  fold f. rewrite <- (length_upd w this (cached xx)).
  set (W := upd w this (cached xx)).
  destruct (Z.ltb_spec 0 f) as [Hf|Hf].
  - set (q := Z.quot (_sign xx * _significand xx) (2 ^ f)).
    destruct (Z.eq_dec q 0) as [E|E].
    + rewrite E, from_BigInt_zero.
      rewrite (bind_call _ _ _ _ _ (lookup_snoc_last W _)).
      rewrite (bind_get _ _ _ _ (lookup_upd_eq _ _ _ _ (lookup_snoc_last W _))).
      eexists. reflexivity.
    + rewrite from_BigInt_nonzero by assumption.
      rewrite (bind_call _ _ _ _ _ (lookup_snoc_last W _)).
      rewrite bitlength_cached
        by (cbn [_significand]; try lia; right; reflexivity).
      cbn [fst snd].
      rewrite (bind_get _ _ _ _ (lookup_upd_eq _ _ _ _ (lookup_snoc_last W _))).
      unfold cached.
      cbn [_significand _exponent _sign set_bits].
      rewrite !Z.sub_diag.
      cbn [Z.leb Z.compare]. rewrite Z.shiftl_0_r.
      eexists. unfold mret, M_ret. do 2 f_equal.
      destruct (Z.ltb_spec q 0); cbn [Z.ltb Z.compare]; lia.
  - rewrite (bind_call _ _ _ _ _ (lookup_snoc_last W _)).
    pose proof (cached_normal xx Hn) as (_ & Hs' & _ & Hc').
    rewrite (bitlength_cached _ Hs' Hc'). cbn [fst snd].
    rewrite (bind_get _ _ _ _ (lookup_upd_eq _ _ _ _ (lookup_snoc_last W _))).
    unfold W, cached. cbn [_significand _exponent _sign set_bits].
    unfold f, fracBits in *.
    set (b := bitlen (_significand xx)) in *.
    destruct (Z.leb_spec 0 (_exponent xx - (b - 1))) as [_|?]; [|lia].
    rewrite Z.shiftl_mul_pow2 by lia.
    replace (- (b - 1 - _exponent xx)) with (_exponent xx - (b - 1)) by lia.
    eexists. unfold mret, M_ret. do 2 f_equal.
    destruct Hsign as [E | E]; rewrite E; cbn [Z.ltb Z.compare]; lia.
Qed.

(** X11: [toBigInt] of a NORMAL object is its integer part: with
    [f > 0] fraction bits [(sign * significand) quot 2^f], and with
    [f <= 0] the exact integer [sign * significand * 2^(-f)].  The
    operand is within the range of the host and its exponent is below
    [host_bits], so that the integer exists as a BigInt. *)
Theorem toBigInt_is_integer_part (w : world) (this : loc) (xx : BigFloat) :
  objects w !! this = Some xx -> normal xx ->
  within_host xx -> _exponent xx < host_bits ->
  let f := fracBits xx in
  exists w',
    toBigInt this w
    = Ret (if 0 <? f then Z.quot (_sign xx * _significand xx) (2 ^ f)
           else _sign xx * _significand xx * 2 ^ (- f), w').
Proof. intros Hl N _ _. exact (toBigInt_run w this xx Hl N). Qed.

(** X11 on 7.5. *)
Lemma toBigInt_is_integer_part_witness :
  exists w', toBigInt 0%nat two_objects = Ret (7, w').
Proof.
  destruct (toBigInt_is_integer_part two_objects 0%nat
              (mkBigFloat 1 2 15 20 ROUNDING_NEAREST SPECIAL_NONE 4)
              eq_refl) as [w' H].
  - repeat split; try reflexivity; (left + right); reflexivity.
  - host_range.
  - host_range.
  - exists w'. exact H.
Defined.

(** X12: the round trip through a BigInt is exact: for every BigInt [n],
    at every precision and in every rounding mode,
    [new BigFloat(n, precision, rounding).toBigInt()] is [n]. *)
Theorem BigInt_round_trip (w : world) (n : Z) (precision rounding : option Z) :
  exists w',
    (x ← new_BigFloat (VBigInt n) precision rounding; toBigInt x) w
    = Ret (n, w').
Proof.
  rewrite bind_new_BigInt.
  destruct (Z.eq_dec n 0) as [->|Hn].
  - eexists. unfold toBigInt.
    rewrite (bind_get _ _ _ _ (lookup_snoc_last w _)). reflexivity.
  - set (xx := from_BigInt w n precision rounding).
    assert (Hx : xx = from_BigInt w n precision rounding) by reflexivity.
    rewrite from_BigInt_nonzero in Hx by assumption.
    assert (Hnorm : normal xx).
    { rewrite Hx. unfold normal, cache_ok. cbn [_special _significand _sign _bits].
      repeat split; try lia. destruct (Z.ltb_spec n 0); lia. }
    destruct (toBigInt_run (snoc w xx) (length (objects w)) xx
                (lookup_snoc_last w xx) Hnorm) as [w' H].
    exists w'. rewrite H. do 2 f_equal.
    unfold fracBits. rewrite Hx. cbn [_significand _exponent _sign].
    rewrite !Z.sub_diag.
    cbn [Z.ltb Z.compare Z.opp]. rewrite Z.pow_0_r.
    destruct (Z.ltb_spec n 0); lia.
Qed.

(** ** Comparisons *)

(** X13: with a NaN operand [less] and [greater] are false, [equal] is
    false and [notequal] true, [cmp] is 0, and [lessequal] and
    [greaterequal], which negate [greater] and [less], are true; the
    store is not touched. *)
Theorem comparisons_with_NaN (w : world) (a b : loc) (xa xb : BigFloat) :
  objects w !! a = Some xa -> objects w !! b = Some xb ->
  _special xa = SPECIAL_NAN \/ _special xb = SPECIAL_NAN ->
  BigFloat.less a b w = Ret (false, w)
  /\ BigFloat.greater a b w = Ret (false, w)
  /\ BigFloat.lessequal a b w = Ret (true, w)
  /\ BigFloat.greaterequal a b w = Ret (true, w)
  /\ BigFloat.equal a b w = Ret (false, w)
  /\ BigFloat.notequal a b w = Ret (true, w)
  /\ BigFloat.cmp a b w = Ret (0, w).
Proof.
  intros Ha Hb Hnan.
  assert (Hab : BigFloat.less a b w = Ret (false, w)).
  { unfold BigFloat.less. rewrite (bind_get2 a b xa xb) by assumption.
    destruct Hnan as [E|E]; rewrite E; cbn;
      [|rewrite orb_true_r]; reflexivity. }
  assert (Hba : BigFloat.less b a w = Ret (false, w)).
  { unfold BigFloat.less. rewrite (bind_get2 b a xb xa) by assumption.
    destruct Hnan as [E|E]; rewrite E; cbn;
      [rewrite orb_true_r|]; reflexivity. }
  assert (He : BigFloat.equal a b w = Ret (false, w)).
  { unfold BigFloat.equal. rewrite (bind_get2 a b xa xb) by assumption.
    destruct Hnan as [E|E]; rewrite E; cbn;
      [|rewrite orb_true_r]; reflexivity. }
  repeat split.
  - exact Hab.
  - exact Hba.
  - unfold BigFloat.lessequal, BigFloat.greater.
    now rewrite (bind_run _ _ _ _ _ Hba).
  - unfold BigFloat.greaterequal. now rewrite (bind_run _ _ _ _ _ Hab).
  - exact He.
  - unfold BigFloat.notequal. now rewrite (bind_run _ _ _ _ _ He).
  - unfold BigFloat.cmp. rewrite (bind_run _ _ _ _ _ Hab).
    now rewrite (bind_run _ _ _ _ _ Hba).
Qed.

(** X13 on NaN and 7.5. *)
Lemma comparisons_with_NaN_witness :
  let w := mkWorld [the_NaN;
                    mkBigFloat 1 2 15 20 ROUNDING_NEAREST SPECIAL_NONE 4]
             20 ROUNDING_NEAREST in
  BigFloat.lessequal 0%nat 1%nat w = Ret (true, w)
  /\ BigFloat.greaterequal 0%nat 1%nat w = Ret (true, w).
Proof.
  intros w.
  pose proof (comparisons_with_NaN w 0%nat 1%nat _ _ eq_refl eq_refl
                (or_introl eq_refl)) as H.
  split; [exact (proj1 (proj2 (proj2 H)))
         | exact (proj1 (proj2 (proj2 (proj2 H))))].
Defined.

(** The number of an object at a smaller binary scale [c]: the
    significand moves left by the difference, as [less] and [add] do. *)
Lemma rational_scaled x c :
  c <= _exponent x - bitlen (_significand x) + 1 ->
  (rational x ==
   inject_Z (_sign x
             * Z.shiftl (_significand x)
                 (_exponent x - bitlen (_significand x) + 1 - c))
   * 2 ^ c)%Q.
Proof.
  intros Hc. unfold rational.
  set (e := _exponent x - bitlen (_significand x) + 1) in *.
  rewrite Z.shiftl_mul_pow2 by lia.
  rewrite Z.mul_assoc, (inject_Z_mult (_ * _) (2 ^ _)).
  rewrite Zpower_Qpower by lia.
  change (inject_Z 2) with 2%Q.
  rewrite <- Qmult_assoc, <- Qpower_plus by discriminate.
  now replace (e - c + c) with e by lia.
Qed.

Lemma two_power_pos c : (0 < 2 ^ c)%Q.
Proof. now apply Qpower_0_lt. Qed.

Lemma rational_positive x :
  0 < _significand x -> _sign x = 1 -> (0 < rational x)%Q.
Proof.
  intros Hs E. unfold rational. rewrite E, Z.mul_1_l.
  rewrite <- (Qmult_0_l (2 ^ (_exponent x - bitlen (_significand x) + 1))).
  apply Qmult_lt_r; [apply two_power_pos|].
  change 0%Q with (inject_Z 0). rewrite <- Zlt_Qlt. lia.
Qed.

Lemma rational_negative x :
  0 < _significand x -> _sign x = -1 -> (rational x < 0)%Q.
Proof.
  intros Hs E. unfold rational. rewrite E.
  rewrite <- (Qmult_0_l (2 ^ (_exponent x - bitlen (_significand x) + 1))).
  apply Qmult_lt_r; [apply two_power_pos|].
  change 0%Q with (inject_Z 0). rewrite <- Zlt_Qlt. lia.
Qed.

(** The comparison of the two scaled significands, as [less] makes it
    for operands of one sign, is the order of the two numbers. *)
Lemma scaled_less xa xb :
  normal xa -> normal xb -> _sign xa = _sign xb ->
  let effExpA := _exponent xa - bitlen (_significand xa) + 1 in
  let effExpB := _exponent xb - bitlen (_significand xb) + 1 in
  let commonEffExp := Z.min effExpA effExpB in
  let scaledSigA := Z.shiftl (_significand xa) (effExpA - commonEffExp) in
  let scaledSigB := Z.shiftl (_significand xb) (effExpB - commonEffExp) in
  (if negb (scaledSigA =? scaledSigB) then
     if 0 <? _sign xa then scaledSigA <? scaledSigB
     else scaledSigB <? scaledSigA
   else false) = true
  <-> (rational xa < rational xb)%Q.
Proof.
  intros (_ & Ha & Hsa & _) (_ & Hb & Hsb & _) Hs. intros.
  rewrite (rational_scaled xa commonEffExp) by (unfold commonEffExp; lia).
  rewrite (rational_scaled xb commonEffExp) by (unfold commonEffExp; lia).
  fold effExpA effExpB scaledSigA scaledSigB.
  rewrite Qmult_lt_r by apply two_power_pos.
  rewrite <- Zlt_Qlt, <- Hs.
  destruct (Z.eqb_spec scaledSigA scaledSigB) as [E|E]; cbn [negb].
  - rewrite E. split; [discriminate|lia].
  - destruct Hsa as [E1|E1]; rewrite E1; cbn [Z.ltb Z.compare].
    + rewrite Z.ltb_lt. lia.
    + rewrite Z.ltb_lt. lia.
Qed.

(** After [a]'s bit length has been remembered, [b] is [xb] still or,
    where [b] is [a], the same object with the bit length remembered. *)
Lemma lookup_after_cached w a b xa xb :
  objects w !! a = Some xa -> objects w !! b = Some xb ->
  objects (upd w a (cached xa)) !! b = Some xb
  \/ objects (upd w a (cached xa)) !! b = Some (cached xb).
Proof.
  intros Ha Hb. destruct (decide (a = b)) as [->|Hne].
  - right. assert (xa = xb) by congruence. subst xb.
    eapply lookup_upd_eq, Ha.
  - left. now rewrite lookup_upd_ne.
Qed.

Lemma rational_cached x : rational (cached x) = rational x.
Proof. reflexivity. Qed.

(** [less] on two NORMAL operands: the answer, and what the store holds
    for the two operands afterwards. *)
Lemma less_normal w a b xa xb :
  objects w !! a = Some xa -> objects w !! b = Some xb ->
  normal xa -> normal xb ->
  exists (r : bool) w',
    BigFloat.less a b w = Ret (r, w')
    /\ (r = true <-> (rational xa < rational xb)%Q)
    /\ (objects w' !! a = Some xa \/ objects w' !! a = Some (cached xa))
    /\ (objects w' !! b = Some xb \/ objects w' !! b = Some (cached xb)).
Proof.
  intros Ha Hb Na Nb.
  pose proof Na as (Spa & Pa & Sa & Ca).
  pose proof Nb as (Spb & Pb & Sb & Cb).
  unfold BigFloat.less. rewrite (bind_get2 a b xa xb) by assumption.
  rewrite Spa, Spb.
  rewrite !bool_decide_eq_false_2 by discriminate.
  cbn [orb andb].
  destruct (Z.ltb_spec (_sign xa) (_sign xb)) as [L1|L1].
  { exists true, w. repeat split; auto.
    intros _. apply Qlt_trans with 0%Q.
    - apply rational_negative; [assumption|lia].
    - apply rational_positive; [assumption|lia]. }
  destruct (Z.ltb_spec (_sign xb) (_sign xa)) as [L2|L2].
  { exists false, w. repeat split; auto; [discriminate|].
    intros H. exfalso. apply (Qlt_irrefl (rational xa)).
    apply Qlt_trans with (rational xb); [assumption|].
    apply Qlt_trans with 0%Q.
    - apply rational_negative; [assumption|lia].
    - apply rational_positive; [assumption|lia]. }
  assert (Hs : _sign xa = _sign xb) by lia.
  rewrite (bind_call a xa) by assumption.
  rewrite bitlength_cached by assumption. cbn [fst snd].
  destruct (lookup_after_cached w a b xa xb Ha Hb) as [Hb'|Hb'];
    rewrite (bind_call b _ _ _ _ Hb');
    rewrite bitlength_cached
      by (try apply cached_normal; assumption || apply Nb);
    cbn [fst snd]; change (_significand (cached xb)) with (_significand xb);
    change (_exponent (cached xb)) with (_exponent xb);
    pose proof (scaled_less xa xb Na Nb Hs) as Hl; cbv zeta in Hl;
    match goal with
    | |- context [if negb ?c then _ else _] =>
        destruct (negb c) eqn:Ec
    end;
    eexists _, _; (split; [reflexivity|]); (split; [exact Hl|]).
  all: split.
  all: try (destruct (decide (a = b)) as [->|Hne];
            [ right; replace xa with xb in * by congruence;
              eapply lookup_upd_eq; eassumption
            | rewrite lookup_upd_ne by congruence;
              right; eapply lookup_upd_eq; eassumption ]).
  all: try (right; eapply lookup_upd_eq; eassumption).
Qed.

(** X14: on two NORMAL operands within the range of the host, whose
    aligned significands exist as BigInts ([alignable]), [less] returns,
    and its answer is the order of the numbers they stand for, whatever
    their precisions and however their significands are aligned. *)
Theorem less_decides_order (w : world) (a b : loc) (xa xb : BigFloat) :
  objects w !! a = Some xa -> objects w !! b = Some xb ->
  normal xa -> normal xb -> alignable xa xb ->
  exists (r : bool) w',
    BigFloat.less a b w = Ret (r, w')
    /\ (r = true <-> (rational xa < rational xb)%Q).
Proof.
  intros Ha Hb Na Nb _.
  destruct (less_normal w a b xa xb Ha Hb Na Nb) as (r & w' & E & Hr & _).
  now exists r, w'.
Qed.

(** X14 on 7.5 (significand 15) and 7.75 (significand 31). *)
Lemma less_decides_order_witness :
  exists (r : bool) w',
    BigFloat.less 0%nat 1%nat
      (mkWorld [mkBigFloat 1 2 15 20 ROUNDING_NEAREST SPECIAL_NONE 4;
                mkBigFloat 1 2 31 20 ROUNDING_NEAREST SPECIAL_NONE 0]
         20 ROUNDING_NEAREST) = Ret (r, w')
    /\ (r = true
        <-> (rational (mkBigFloat 1 2 15 20 ROUNDING_NEAREST SPECIAL_NONE 4)
             < rational (mkBigFloat 1 2 31 20 ROUNDING_NEAREST SPECIAL_NONE 0))%Q).
Proof.
  apply less_decides_order; try reflexivity.
  - unfold normal, cache_ok. cbn. repeat split; try lia. right. reflexivity.
  - unfold normal, cache_ok. cbn. repeat split; try lia.
  - host_range.
Defined.

Lemma normal_either x y : normal x -> y = x \/ y = cached x -> normal y.
Proof. intros N [->| ->]; [assumption|now apply cached_normal]. Qed.

Lemma lookup_either w l x :
  objects w !! l = Some x \/ objects w !! l = Some (cached x) ->
  exists y, objects w !! l = Some y /\ (y = x \/ y = cached x).
Proof. intros [H|H]; eauto. Qed.

Lemma rational_either x y : y = x \/ y = cached x -> rational y = rational x.
Proof. now intros [->| ->]. Qed.

(** [cmp] on two NORMAL operands. *)
Lemma cmp_normal w a b xa xb :
  objects w !! a = Some xa -> objects w !! b = Some xb ->
  normal xa -> normal xb ->
  exists w',
    BigFloat.cmp a b w
    = Ret (match (rational xa ?= rational xb)%Q with
           | Lt => -1 | Eq => 0 | Gt => 1
           end, w').
Proof.
  intros Ha Hb Na Nb.
  destruct (less_normal w a b xa xb Ha Hb Na Nb)
    as (r & w1 & E & Hr & Ha1 & Hb1).
  unfold BigFloat.cmp. rewrite (bind_run _ _ _ _ _ E).
  destruct r.
  - exists w1. apply proj1 in Hr. specialize (Hr eq_refl).
    now rewrite (proj1 (Qlt_alt _ _) Hr).
  - apply lookup_either in Ha1 as (ya & Ha1 & Ea).
    apply lookup_either in Hb1 as (yb & Hb1 & Eb).
    destruct (less_normal w1 b a yb ya Hb1 Ha1
                (normal_either _ _ Nb Eb) (normal_either _ _ Na Ea))
      as (r2 & w2 & E2 & Hr2 & _).
    rewrite (bind_run _ _ _ _ _ E2).
    rewrite (rational_either _ _ Ea), (rational_either _ _ Eb) in Hr2.
    exists w2. destruct (Qcompare_spec (rational xa) (rational xb)) as [C|C|C].
    + destruct r2; [|reflexivity].
      apply proj1 in Hr2. specialize (Hr2 eq_refl).
      rewrite C in Hr2. now apply Qlt_irrefl in Hr2.
    + apply Hr in C. discriminate.
    + apply Hr2 in C. now rewrite C.
Qed.

(** X15: on two NORMAL operands within the range of the host, whose
    aligned significands exist as BigInts ([alignable]), [cmp] returns
    -1, 0 or 1 as the first number is below, equal to or above the
    second: it is a three-way comparison of the numbers the operands
    stand for. *)
Theorem cmp_is_three_way (w : world) (a b : loc) (xa xb : BigFloat) :
  objects w !! a = Some xa -> objects w !! b = Some xb ->
  normal xa -> normal xb -> alignable xa xb ->
  exists w',
    BigFloat.cmp a b w
    = Ret (match (rational xa ?= rational xb)%Q with
           | Lt => -1 | Eq => 0 | Gt => 1
           end, w').
Proof. intros Ha Hb Na Nb _. exact (cmp_normal w a b xa xb Ha Hb Na Nb). Qed.

(** X15 on 1.5 written as 3 * 2^-1 and as 6 * 2^-2. *)
Lemma cmp_is_three_way_witness :
  exists w',
    BigFloat.cmp 0%nat 1%nat
      (mkWorld [mkBigFloat 1 0 3 20 ROUNDING_NEAREST SPECIAL_NONE 0;
                mkBigFloat 1 0 6 20 ROUNDING_NEAREST SPECIAL_NONE 0]
         20 ROUNDING_NEAREST) = Ret (0, w').
Proof.
  apply (cmp_is_three_way
           (mkWorld [mkBigFloat 1 0 3 20 ROUNDING_NEAREST SPECIAL_NONE 0;
                     mkBigFloat 1 0 6 20 ROUNDING_NEAREST SPECIAL_NONE 0]
              20 ROUNDING_NEAREST) 0%nat 1%nat _ _ eq_refl eq_refl).
  - unfold normal, cache_ok. cbn. repeat split; try lia.
  - unfold normal, cache_ok. cbn. repeat split; try lia.
  - host_range.
Defined.

(** ** Exact results, rounded once *)

Lemma from_Number_zero w precision rounding :
  from_Number w 0 precision rounding = fresh_this w precision rounding.
Proof. reflexivity. Qed.

Lemma bitlen_mul m n :
  0 < m -> 0 < n ->
  bitlen (m * n) = bitlen m + bitlen n - 1
  \/ bitlen (m * n) = bitlen m + bitlen n.
Proof.
  intros Hm Hn. unfold bitlen.
  pose proof (Z.log2_mul_below m n Hm Hn).
  pose proof (Z.log2_mul_above m n ltac:(lia) ltac:(lia)).
  lia.
Qed.

Lemma rational_mul (P xa xb : BigFloat) :
  _sign P = _sign xa * _sign xb ->
  _significand P = _significand xa * _significand xb ->
  _exponent P - bitlen (_significand P) + 1
  = (_exponent xa - bitlen (_significand xa) + 1)
    + (_exponent xb - bitlen (_significand xb) + 1) ->
  (rational P == rational xa * rational xb)%Q.
Proof.
  intros Hs Hg He. unfold rational. rewrite He, Hs, Hg.
  rewrite Qpower_plus by discriminate.
  replace (_sign xa * _sign xb * (_significand xa * _significand xb))
    with ((_sign xa * _significand xa) * (_sign xb * _significand xb))
    by ring.
  rewrite inject_Z_mult. ring.
Qed.

Lemma bind_mret {A B} (a : A) (k : A -> M B) w : (mret a ≫= k) w = k a w.
Proof. reflexivity. Qed.

(** Asking a NORMAL object for its bit length, whether or not it is
    remembered already. *)
Lemma bind_bitlength {B} l x (k : Z -> M B) w :
  objects w !! l = Some x \/ objects w !! l = Some (cached x) ->
  normal x ->
  (call l (_bitlength false) ≫= k) w
  = k (bitlen (_significand x)) (upd w l (cached x)).
Proof.
  intros [H|H] N; rewrite (bind_call l _ _ _ _ H);
    rewrite bitlength_cached
      by (try apply cached_normal; assumption || apply N);
    reflexivity.
Qed.

(** The product object of [mul] before it is rounded. *)
Lemma mul_normal w a b xa xb :
  objects w !! a = Some xa -> objects w !! b = Some xb ->
  normal xa -> normal xb ->
  exists P w',
    BigFloat.mul a b w = Ret (length (objects w), w')
    /\ objects w' !! length (objects w) = Some (_normalize P)
    /\ normal P
    /\ _sign P = _sign xa * _sign xb
    /\ _significand P = _significand xa * _significand xb
    /\ _precision P = Z.max (_precision xa) (_precision xb)
    /\ _rounding P = _rounding xa
    /\ (rational P == rational xa * rational xb)%Q.
Proof.
  intros Ha Hb Na Nb.
  pose proof Na as (Spa & Pa & Sa & Ca).
  pose proof Nb as (Spb & Pb & Sb & Cb).
  assert (Hp : 0 < _significand xa * _significand xb) by nia.
  assert (Hsign : _sign xa * _sign xb = 1 \/ _sign xa * _sign xb = -1)
    by (destruct Sa as [->| ->], Sb as [->| ->]; lia).
  unfold BigFloat.mul. rewrite (bind_get2 a b xa xb) by assumption.
  rewrite Spa, Spb. rewrite !bool_decide_eq_false_2 by discriminate.
  cbn [orb]. rewrite bind_new_Number, from_Number_zero.
  set (p := length (objects w)).
  repeat (erewrite bind_modify by apply lookup_snoc_last;
          unfold p; rewrite upd_snoc_last; fold p).
  destruct (Z.eqb_spec (_significand xa * _significand xb) 0) as [?|_];
    [lia|].
  cbn [negb when].
  erewrite bind_modify by apply lookup_snoc_last.
  unfold p; rewrite upd_snoc_last; fold p.
  match goal with |- context [snoc w ?x] => set (P1 := x) end.
  assert (N1 : normal P1).
  { unfold normal, cache_ok, P1, fresh_this.
    cbn [_sign _significand _special _bits set_sign set_significand
         set_exponent set_precision set_rounding set_special].
    repeat split; try assumption. left; lia. }
  rewrite (bind_bitlength a xa)
    by (assumption || left; now apply lookup_snoc_old).
  rewrite (bind_bitlength b xb)
    by (assumption
        || apply lookup_after_cached; now apply lookup_snoc_old).
  set (W3 := upd (upd (snoc w P1) a (cached xa)) b (cached xb)).
  assert (H3 : objects W3 !! p = Some P1).
  { unfold W3. rewrite !lookup_upd_ne
      by (apply lookup_lt_Some in Ha, Hb; unfold p; lia).
    apply lookup_snoc_last. }
  rewrite (bind_bitlength p P1) by (assumption || now left).
  change (_significand P1) with (_significand xa * _significand xb).
  assert (H4 : objects (upd W3 p (cached P1)) !! p = Some (cached P1))
    by (eapply lookup_upd_eq; eassumption).
  destruct (bitlen_mul _ _ Pa Pb) as [Hl|Hl];
    destruct (Z.ltb_spec
                (bitlen (_significand xa) + bitlen (_significand xb) - 1)
                (bitlen (_significand xa * _significand xb)))
      as [Hlt|Hlt]; try lia;
    cbn [when]; rewrite ?bind_mret;
    repeat (erewrite bind_modify by (eapply lookup_upd_eq; eassumption);
            rewrite ?upd_upd);
    (eexists _, _; split; [reflexivity|]);
    (split; [eapply lookup_upd_eq; eassumption|]);
    unfold normal, cache_ok, P1, cached, fresh_this;
    cbn [_sign _significand _exponent _precision _rounding _special _bits
         set_sign set_significand set_exponent set_precision set_rounding
         set_special set_bits];
    (repeat split; try assumption; try (right; reflexivity));
    apply rational_mul;
    cbn [_sign _significand _exponent _precision _rounding _special _bits
         set_sign set_significand set_exponent set_precision set_rounding
         set_special set_bits]; lia.
Qed.

(** X16: the product of two NORMAL operands within the range of the
    host, the product of whose significands exists as a BigInt, is a new
    object, the rounding by [_normalize] of an object that stands for
    the exact product, at the larger of the two precisions and with the
    rounding mode of the first operand. *)
Theorem mul_is_exact_product_rounded (w : world) (a b : loc)
  (xa xb : BigFloat) :
  objects w !! a = Some xa -> objects w !! b = Some xb ->
  normal xa -> normal xb ->
  within_host xa -> within_host xb ->
  bitlen (_significand xa) + bitlen (_significand xb) <= host_bits ->
  exists P w',
    BigFloat.mul a b w = Ret (length (objects w), w')
    /\ objects w' !! length (objects w) = Some (_normalize P)
    /\ normal P
    /\ _sign P = _sign xa * _sign xb
    /\ _significand P = _significand xa * _significand xb
    /\ _precision P = Z.max (_precision xa) (_precision xb)
    /\ _rounding P = _rounding xa
    /\ (rational P == rational xa * rational xb)%Q.
Proof.
  intros Ha Hb Na Nb _ _ _. exact (mul_normal w a b xa xb Ha Hb Na Nb).
Qed.

(** X16 on 3 * 5. *)
Lemma mul_is_exact_product_rounded_witness :
  let xa := mkBigFloat 1 1 3 20 ROUNDING_NEAREST SPECIAL_NONE 0 in
  let xb := mkBigFloat 1 2 5 20 ROUNDING_NEAREST SPECIAL_NONE 0 in
  let w := mkWorld [xa; xb] 20 ROUNDING_NEAREST in
  exists P w',
    BigFloat.mul 0%nat 1%nat w = Ret (2%nat, w')
    /\ objects w' !! 2%nat = Some (_normalize P)
    /\ normal P
    /\ _sign P = 1
    /\ _significand P = 15
    /\ _precision P = 20
    /\ _rounding P = ROUNDING_NEAREST
    /\ (rational P == rational xa * rational xb)%Q.
Proof.
  intros xa xb w.
  apply (mul_is_exact_product_rounded w 0%nat 1%nat xa xb eq_refl eq_refl).
  - unfold normal, cache_ok. cbn. repeat split; try lia.
  - unfold normal, cache_ok. cbn. repeat split; try lia.
  - host_range.
  - host_range.
  - host_range.
Defined.

(** The alignment of the two significands in [add]: both move to the
    smaller of the two scales. *)
Lemma add_align (effExpX effExpY x_sig y_sig : Z) :
  (if effExpY <? effExpX then
     (Z.shiftl x_sig (effExpX - effExpY), y_sig, effExpY)
   else if effExpX <? effExpY then
     (x_sig, Z.shiftl y_sig (effExpY - effExpX), effExpX)
   else (x_sig, y_sig, effExpX))
  = (Z.shiftl x_sig (effExpX - Z.min effExpX effExpY),
     Z.shiftl y_sig (effExpY - Z.min effExpX effExpY),
     Z.min effExpX effExpY).
Proof.
  destruct (Z.ltb_spec effExpY effExpX);
    [|destruct (Z.ltb_spec effExpX effExpY)].
  - rewrite Z.min_r by lia. now rewrite Z.sub_diag, Z.shiftl_0_r.
  - rewrite Z.min_l by lia. now rewrite Z.sub_diag, Z.shiftl_0_r.
  - rewrite Z.min_l by lia. replace effExpY with effExpX by lia.
    now rewrite Z.sub_diag, !Z.shiftl_0_r.
Qed.

Lemma rational_add (xa xb : BigFloat) (sum c : Z) :
  c <= _exponent xa - bitlen (_significand xa) + 1 ->
  c <= _exponent xb - bitlen (_significand xb) + 1 ->
  sum = _sign xa * Z.shiftl (_significand xa)
                     (_exponent xa - bitlen (_significand xa) + 1 - c)
        + _sign xb * Z.shiftl (_significand xb)
                       (_exponent xb - bitlen (_significand xb) + 1 - c) ->
  (rational xa + rational xb == inject_Z sum * 2 ^ c)%Q.
Proof.
  intros Ha Hb ->.
  rewrite (rational_scaled xa c Ha), (rational_scaled xb c Hb).
  rewrite inject_Z_plus. ring.
Qed.

(** [add] on two NORMAL operands: the sum is 0, or the result is the
    rounding of an object that stands for the exact sum. *)
Lemma add_normal w a b xa xb :
  objects w !! a = Some xa -> objects w !! b = Some xb ->
  normal xa -> normal xb ->
  exists w',
    BigFloat.add a b w = Ret (length (objects w), w')
    /\ (((rational xa + rational xb == 0)%Q
         /\ objects w' !! length (objects w)
            = Some (from_BigInt w 0 None None))
        \/ exists P,
             objects w' !! length (objects w) = Some (_normalize P)
             /\ normal P
             /\ _precision P = Z.max (_precision xa) (_precision xb)
             /\ _rounding P = _rounding xa
             /\ (rational P == rational xa + rational xb)%Q).
Proof.
  intros Ha Hb Na Nb.
  pose proof Na as (Spa & Pa & Sa & Ca).
  pose proof Nb as (Spb & Pb & Sb & Cb).
  unfold BigFloat.add. rewrite (bind_get2 a b xa xb) by assumption.
  rewrite Spa, Spb. cbn [truthy orb].
  rewrite (bind_bitlength a xa) by (assumption || now left).
  rewrite (bind_bitlength b xb)
    by (assumption || now apply lookup_after_cached).
  set (W2 := upd (upd w a (cached xa)) b (cached xb)).
  assert (HL : length (objects W2) = length (objects w))
    by (unfold W2; now rewrite !length_upd).
  rewrite add_align.
  set (effX := _exponent xa - (bitlen (_significand xa) - 1)).
  set (effY := _exponent xb - (bitlen (_significand xb) - 1)).
  set (c := Z.min effX effY).
  set (sum := _sign xa * Z.shiftl (_significand xa) (effX - c)
              + _sign xb * Z.shiftl (_significand xb) (effY - c)).
  assert (Hsum : (rational xa + rational xb == inject_Z sum * 2 ^ c)%Q).
  { apply rational_add; unfold sum, c, effX, effY; try lia.
    f_equal; f_equal; f_equal; lia. }
  destruct (Z.eqb_spec sum 0) as [E0|E0].
  - rewrite bind_new_BigInt. eexists. split.
    + now rewrite HL.
    + left. split.
      * rewrite Hsum, E0. ring.
      * rewrite <- HL. apply lookup_snoc_last.
  - rewrite bind_new_BigInt, from_BigInt_zero. rewrite HL.
    set (p := length (objects w)).
    assert (Hp : p = length (objects W2)) by (now rewrite HL).
    assert (Eabs : (if sum <? 0 then - sum else sum) = Z.abs sum)
      by (destruct (Z.ltb_spec sum 0); lia).
    rewrite Eabs.
    repeat (erewrite bind_modify by (rewrite Hp; apply lookup_snoc_last);
            rewrite Hp, upd_snoc_last, <- Hp).
    match goal with |- context [snoc W2 ?x] => set (P1 := x) end.
    rewrite (bind_call p P1) by (rewrite Hp; apply lookup_snoc_last).
    rewrite bitlength_cached
      by (unfold P1, cache_ok; cbn [_significand _bits set_significand
                                    set_sign]; lia).
    cbn [fst snd]. rewrite Hp, upd_snoc_last, <- Hp.
    change (_significand P1) with (Z.abs sum).
    repeat (erewrite bind_modify by (rewrite Hp; apply lookup_snoc_last);
            rewrite Hp, upd_snoc_last, <- Hp).
    destruct (Z.eqb_spec (Z.abs sum) 0) as [?|_]; [lia|].
    cbn [negb when].
    repeat (erewrite bind_modify by (rewrite Hp; apply lookup_snoc_last);
            rewrite Hp, upd_snoc_last, <- Hp).
    eexists. split; [reflexivity|].
    right. eexists. split; [rewrite Hp; apply lookup_snoc_last|].
    unfold normal, cache_ok, P1, cached.
    cbn [_sign _significand _exponent _precision _rounding _special _bits
         set_sign set_significand set_exponent set_precision set_rounding
         set_special set_bits].
    repeat split; try lia.
    + destruct (Z.ltb_spec sum 0); [now right|now left].
    + rewrite Hsum. unfold rational.
      cbn [_sign _significand _exponent _precision _rounding _special _bits
           set_sign set_significand set_exponent set_precision set_rounding
           set_special set_bits].
      replace ((if sum <? 0 then -1 else 1) * Z.abs sum) with sum
        by (destruct (Z.ltb_spec sum 0); lia).
      now replace (c + (bitlen (Z.abs sum) - 1) - bitlen (Z.abs sum) + 1)
        with c by lia.
Qed.

(** X17: the sum of two NORMAL operands within the range of the host,
    whose aligned significands and their sum exist as BigInts
    ([alignable]), is a new object: the zero the constructor builds when
    the numbers cancel, and otherwise the rounding by [_normalize] of an
    object that stands for the exact sum, at the larger of the two
    precisions and with the rounding mode of the first operand. *)
Theorem add_is_exact_sum_rounded (w : world) (a b : loc) (xa xb : BigFloat) :
  objects w !! a = Some xa -> objects w !! b = Some xb ->
  normal xa -> normal xb -> alignable xa xb ->
  exists w',
    BigFloat.add a b w = Ret (length (objects w), w')
    /\ (((rational xa + rational xb == 0)%Q
         /\ objects w' !! length (objects w)
            = Some (from_BigInt w 0 None None))
        \/ exists P,
             objects w' !! length (objects w) = Some (_normalize P)
             /\ normal P
             /\ _precision P = Z.max (_precision xa) (_precision xb)
             /\ _rounding P = _rounding xa
             /\ (rational P == rational xa + rational xb)%Q).
Proof. intros Ha Hb Na Nb _. exact (add_normal w a b xa xb Ha Hb Na Nb). Qed.

(** X17 on 1.5 + 0.25. *)
Lemma add_is_exact_sum_rounded_witness :
  let xa := mkBigFloat 1 0 3 20 ROUNDING_NEAREST SPECIAL_NONE 0 in
  let xb := mkBigFloat 1 (-2) 1 30 ROUNDING_NEAREST SPECIAL_NONE 0 in
  let w := mkWorld [xa; xb] 20 ROUNDING_NEAREST in
  exists w',
    BigFloat.add 0%nat 1%nat w = Ret (2%nat, w')
    /\ (((rational xa + rational xb == 0)%Q
         /\ objects w' !! 2%nat = Some (from_BigInt w 0 None None))
        \/ exists P,
             objects w' !! 2%nat = Some (_normalize P)
             /\ normal P
             /\ _precision P = 30
             /\ _rounding P = ROUNDING_NEAREST
             /\ (rational P == rational xa + rational xb)%Q).
Proof.
  intros xa xb w.
  apply (add_is_exact_sum_rounded w 0%nat 1%nat xa xb eq_refl eq_refl).
  - unfold normal, cache_ok. cbn. repeat split; try lia.
  - unfold normal, cache_ok. cbn. repeat split; try lia.
  - host_range.
Defined.

Lemma rational_opp x :
  (rational (set_sign (- _sign x) x) == - rational x)%Q.
Proof.
  unfold rational. cbn [_sign _significand _exponent set_sign].
  rewrite Z.mul_opp_l, inject_Z_opp. ring.
Qed.

Lemma normal_opp x : normal x -> normal (set_sign (- _sign x) x).
Proof.
  intros (Hsp & Hs & Hsign & Hc). unfold normal, cache_ok in *.
  cbn [_special _significand _sign _bits set_sign].
  repeat split; try assumption. lia.
Qed.

(** [sub] on two NORMAL operands. *)
Lemma sub_normal w a b xa xb :
  objects w !! a = Some xa -> objects w !! b = Some xb ->
  normal xa -> normal xb ->
  exists w',
    BigFloat.sub a b w = Ret (S (length (objects w)), w')
    /\ (((rational xa - rational xb == 0)%Q
         /\ objects w' !! S (length (objects w))
            = Some (from_BigInt w 0 None None))
        \/ exists P,
             objects w' !! S (length (objects w)) = Some (_normalize P)
             /\ normal P
             /\ _precision P = Z.max (_precision xa) (_precision xb)
             /\ _rounding P = _rounding xa
             /\ (rational P == rational xa - rational xb)%Q).
Proof.
  intros Ha Hb Na Nb. unfold BigFloat.sub.
  rewrite (bind_new_copy b xb) by assumption.
  erewrite bind_modify by apply lookup_snoc_last.
  rewrite upd_snoc_last.
  destruct (add_normal (snoc w (set_sign (- _sign xb) xb)) a
              (length (objects w)) xa (set_sign (- _sign xb) xb)
              (lookup_snoc_old _ _ _ _ Ha) (lookup_snoc_last _ _) Na
              (normal_opp _ Nb)) as (w' & E & H).
  assert (HL : length (objects (snoc w (set_sign (- _sign xb) xb)))
               = S (length (objects w)))
    by (cbn [objects snoc]; rewrite length_app; cbn; lia).
  rewrite HL in E, H. exists w'. split; [exact E|].
  unfold Qminus.
  destruct H as [[H1 H2]|(P & H1 & H2 & H3 & H4 & H5)].
  - left. split; [now rewrite <- (rational_opp xb)|exact H2].
  - right. exists P. split; [exact H1|]. split; [exact H2|].
    split; [exact H3|]. split; [exact H4|].
    now rewrite <- (rational_opp xb).
Qed.

(** X18: the difference of two NORMAL operands within the range of the
    host, whose aligned significands and their difference exist as
    BigInts ([alignable]): [sub] negates a copy of the second operand
    and adds, so the result is the zero of the constructor when the
    numbers are equal and otherwise the rounding by [_normalize] of an
    object that stands for the exact difference; the result is the
    second object the call allocates. *)
Theorem sub_is_exact_difference_rounded (w : world) (a b : loc)
  (xa xb : BigFloat) :
  objects w !! a = Some xa -> objects w !! b = Some xb ->
  normal xa -> normal xb -> alignable xa xb ->
  exists w',
    BigFloat.sub a b w = Ret (S (length (objects w)), w')
    /\ (((rational xa - rational xb == 0)%Q
         /\ objects w' !! S (length (objects w))
            = Some (from_BigInt w 0 None None))
        \/ exists P,
             objects w' !! S (length (objects w)) = Some (_normalize P)
             /\ normal P
             /\ _precision P = Z.max (_precision xa) (_precision xb)
             /\ _rounding P = _rounding xa
             /\ (rational P == rational xa - rational xb)%Q).
Proof. intros Ha Hb Na Nb _. exact (sub_normal w a b xa xb Ha Hb Na Nb). Qed.

(** X18 on 1.5 - 0.25. *)
Lemma sub_is_exact_difference_rounded_witness :
  let xa := mkBigFloat 1 0 3 20 ROUNDING_NEAREST SPECIAL_NONE 0 in
  let xb := mkBigFloat 1 (-2) 1 30 ROUNDING_NEAREST SPECIAL_NONE 0 in
  let w := mkWorld [xa; xb] 20 ROUNDING_NEAREST in
  exists w',
    BigFloat.sub 0%nat 1%nat w = Ret (3%nat, w')
    /\ (((rational xa - rational xb == 0)%Q
         /\ objects w' !! 3%nat = Some (from_BigInt w 0 None None))
        \/ exists P,
             objects w' !! 3%nat = Some (_normalize P)
             /\ normal P
             /\ _precision P = 30
             /\ _rounding P = ROUNDING_NEAREST
             /\ (rational P == rational xa - rational xb)%Q).
Proof.
  intros xa xb w.
  apply (sub_is_exact_difference_rounded w 0%nat 1%nat xa xb eq_refl eq_refl).
  - unfold normal, cache_ok. cbn. repeat split; try lia.
  - unfold normal, cache_ok. cbn. repeat split; try lia.
  - host_range.
Defined.

(** ** What the operations leave of the store *)

Lemma caching_bitlength forced : caching (_bitlength forced).
Proof.
  intros x. unfold _bitlength.
  destruct (_significand x =? 0); [right; now exists 0|].
  destruct forced; cbn [_bits set_bits].
  - cbn [Z.ltb Z.compare]. right. eexists. cbn [snd].
    now destruct x.
  - destruct (0 <? _bits x); [now left|right; eexists; reflexivity].
Qed.

Lemma caching_toNumber : caching toNumber.
Proof.
  intros x. unfold toNumber.
  destruct (_special x); try (now left);
    (destruct (_ || _); [now left|]);
    destruct (caching_bitlength false x) as [E|[k E]];
    destruct (_bitlength false x) as [n y]; cbn [snd] in E; subst y;
    repeat match goal with
    | |- context [if ?c then _ else _] => destruct c
    end; cbn [snd]; (now left) || (right; now exists k).
Qed.

Section Frame.

Variable keep : loc -> BigFloat -> BigFloat.
Hypothesis keep_bits : forall l k x, keep l (set_bits k x) = keep l x.
Variable w0 : world.

Lemma unchanged_refl : unchanged keep w0 w0.
Proof. split; [lia|]. intros l x H. now exists x. Qed.

Lemma unchanged_snoc w x : unchanged keep w0 w -> unchanged keep w0 (snoc w x).
Proof.
  intros [Hlen H]. split.
  - cbn [objects snoc]. rewrite length_app. lia.
  - intros l x0 Hl. destruct (H l x0 Hl) as (y & Hy & E).
    exists y. split; [now apply lookup_snoc_old|exact E].
Qed.

Lemma unchanged_upd_new w l y :
  unchanged keep w0 w -> (length (objects w0) <= l)%nat ->
  unchanged keep w0 (upd w l y).
Proof.
  intros [Hlen H] Hl. split.
  - now rewrite length_upd.
  - intros l' x Hl'. destruct (H l' x Hl') as (y' & Hy & E).
    exists y'. split; [|exact E]. rewrite lookup_upd_ne; [exact Hy|].
    apply lookup_lt_Some in Hl'. lia.
Qed.

Lemma unchanged_upd_same w l y y' :
  unchanged keep w0 w -> objects w !! l = Some y -> keep l y' = keep l y ->
  unchanged keep w0 (upd w l y').
Proof.
  intros [Hlen H] Hy Hk. split.
  - now rewrite length_upd.
  - intros l' x Hl'. destruct (H l' x Hl') as (y1 & Hy1 & E).
    destruct (decide (l = l')) as [<-|Hne].
    + exists y'. split; [eapply lookup_upd_eq; eassumption|].
      rewrite E, Hk. congruence.
    + exists y1. split; [|exact E]. now rewrite lookup_upd_ne.
Qed.

Variable D : Prop.

Lemma keeps_ret {A} (a : A) w (Q : A -> world -> Prop) :
  unchanged keep w0 w -> Q a w -> keeps keep w0 D (mret a) w Q.
Proof. intros Hu HQ. split; [apply extends_refl|now split]. Qed.

Lemma keeps_bind {A B} (c : M A) (k : A -> M B) w P Q :
  keeps keep w0 D c w P ->
  (forall a w', extends w w' -> unchanged keep w0 w' -> P a w' ->
                keeps keep w0 D (k a) w' Q) ->
  keeps keep w0 D (c ≫= k) w Q.
Proof.
  unfold keeps, mbind, M_bind. intros Hc Hk.
  destruct (c w) as [[a w']|e|]; [|contradiction|exact Hc].
  destruct Hc as (Hext & Hu & HP). specialize (Hk a w' Hext Hu HP).
  destruct (k a w') as [[b w'']|e|]; [|contradiction|exact Hk].
  destruct Hk as (Hext' & Hu' & HQ).
  split; [eapply extends_trans; eassumption|now split].
Qed.

Lemma keeps_get_world w :
  unchanged keep w0 w -> keeps keep w0 D get_world w any.
Proof. intros Hu. split; [apply extends_refl|now split]. Qed.

Lemma keeps_get l w :
  unchanged keep w0 w -> valid w l -> keeps keep w0 D (get l) w any.
Proof.
  intros Hu Hl. unfold keeps, get. cbv beta.
  destruct (lookup_lt_is_Some_2 (objects w) l Hl) as [x ->].
  split; [apply extends_refl|now split].
Qed.

Lemma keeps_alloc x w :
  unchanged keep w0 w -> keeps keep w0 D (alloc x) w (newer w0).
Proof.
  intros Hu. split; [|split].
  - unfold extends. cbn [objects]. rewrite length_app. lia.
  - now apply (unchanged_snoc w x).
  - destruct Hu as [Hlen _]. unfold newer, valid. cbn [objects].
    rewrite length_app. cbn. lia.
Qed.

Lemma keeps_modify_new l f w :
  unchanged keep w0 w -> valid w l -> (length (objects w0) <= l)%nat ->
  keeps keep w0 D (modify l f) w any.
Proof.
  intros Hu Hl Hnew. unfold keeps, modify, mbind, M_bind, get, put.
  destruct (lookup_lt_is_Some_2 (objects w) l Hl) as [x ->].
  split; [|split; [|exact I]].
  - unfold extends. cbn [objects]. rewrite length_insert. lia.
  - now apply (unchanged_upd_new w l (f x)).
Qed.

Lemma keeps_modify_same l f w :
  unchanged keep w0 w -> valid w l -> (forall x, keep l (f x) = keep l x) ->
  keeps keep w0 D (modify l f) w any.
Proof.
  intros Hu Hl Hf. unfold keeps, modify, mbind, M_bind, get, put.
  destruct (lookup_lt_is_Some_2 (objects w) l Hl) as [x Hx]. rewrite Hx.
  split; [|split; [|exact I]].
  - unfold extends. cbn [objects]. rewrite length_insert. lia.
  - now apply (unchanged_upd_same w l x (f x)).
Qed.

Lemma keeps_call_new {A} l (m : BigFloat -> A * BigFloat) w :
  unchanged keep w0 w -> valid w l -> (length (objects w0) <= l)%nat ->
  keeps keep w0 D (call l m) w any.
Proof.
  intros Hu Hl Hnew.
  unfold keeps, call, mbind, M_bind, get, put, mret, M_ret.
  destruct (lookup_lt_is_Some_2 (objects w) l Hl) as [x ->].
  split; [|split; [|exact I]].
  - unfold extends. cbn [objects]. rewrite length_insert. lia.
  - now apply (unchanged_upd_new w l (snd (m x))).
Qed.

Lemma keeps_call_caching {A} l (m : BigFloat -> A * BigFloat) w :
  caching m -> unchanged keep w0 w -> valid w l ->
  keeps keep w0 D (call l m) w any.
Proof.
  intros Hm Hu Hl.
  unfold keeps, call, mbind, M_bind, get, put, mret, M_ret.
  destruct (lookup_lt_is_Some_2 (objects w) l Hl) as [x Hx]. rewrite Hx.
  split; [|split; [|exact I]].
  - unfold extends. cbn [objects]. rewrite length_insert. lia.
  - apply (unchanged_upd_same w l x (snd (m x))); try assumption.
    destruct (Hm x) as [->|[k ->]]; [reflexivity|apply keep_bits].
Qed.

Lemma keeps_when c k w :
  unchanged keep w0 w -> keeps keep w0 D k w any ->
  keeps keep w0 D (when c k) w any.
Proof. intros Hu Hk. destruct c; [exact Hk|now apply keeps_ret]. Qed.

Lemma keeps_new v precision rounding w :
  unchanged keep w0 w ->
  match v with VObject l => valid w l | _ => True end ->
  keeps keep w0 D (new_BigFloat v precision rounding) w (newer w0).
Proof.
  intros Hu Hv. unfold new_BigFloat.
  eapply keeps_bind; [now apply keeps_get_world|]. intros w1 w' Hext Hu' _.
  destruct v as [num|n|l]; try now apply keeps_alloc.
  eapply keeps_bind; [apply keeps_get; [assumption|];
                      eapply valid_extends; eassumption|].
  intros x w'' _ Hu'' _. now apply keeps_alloc.
Qed.

Lemma keeps_new_value v precision rounding w :
  unchanged keep w0 w ->
  match v with VObject _ => False | _ => True end ->
  keeps keep w0 D (new_BigFloat v precision rounding) w (newer w0).
Proof. intros Hu Hv. apply keeps_new; [assumption|]. destruct v; tauto. Qed.

Lemma keeps_bind_get {B} l x (k : BigFloat -> M B) w Q :
  objects w !! l = Some x -> keeps keep w0 D (k x) w Q ->
  keeps keep w0 D (get l ≫= k) w Q.
Proof. intros Hl Hk. unfold keeps. now rewrite (bind_get l x). Qed.

Create HintDb keep_db.
#[local] Hint Resolve keeps_get keeps_get_world keeps_when keeps_modify_new
  keeps_call_new : keep_db.
#[local] Hint Extern 1 (keeps _ _ _ (call _ (_bitlength _)) _ _) =>
  apply keeps_call_caching; [apply caching_bitlength| |] : keep_db.
#[local] Hint Extern 3 (keeps _ _ _ (call _ toNumber) _ _) =>
  apply keeps_call_caching; [apply caching_toNumber| |] : keep_db.
#[local] Hint Extern 1 (keeps _ _ _ (new_BigFloat (VObject _) _ _) _ _) =>
  apply keeps_new; [|cbn] : keep_db.
#[local] Hint Extern 1
  (keeps _ _ _ (new_BigFloat (if ?c then _ else _) _ _) _ _) =>
  destruct c : keep_db.
#[local] Hint Extern 2 (keeps _ _ _ (new_BigFloat _ _ _) _ _) =>
  apply keeps_new_value; [|exact I] : keep_db.
#[local] Hint Extern 1 (valid _ _) => eassumption : keep_db.
#[local] Hint Extern 1 (unchanged _ _ _) => eassumption : keep_db.
#[local] Hint Extern 1 (_ <= _)%nat => eassumption : keep_db.
#[local] Hint Extern 1 (any _ _) => exact I : keep_db.

Ltac carry_new :=
  unfold newer in *;
  repeat match goal with
  | H : _ /\ _ |- _ => destruct H
  end;
  carry.

Ltac keep_step :=
  lazymatch goal with
  | |- keeps _ _ _ (mret _) _ _ =>
      apply keeps_ret; [assumption | unfold newer, any; cbn [fst snd]; auto]
  | |- keeps _ _ _ (mbind _ _) _ _ =>
      eapply keeps_bind;
      [ first [ solve [eauto with keep_db] | solve [repeat keep_step] ]
      | intros ? ? ? ? ?; carry_new ]
  | |- keeps _ _ _ (if ?c then _ else _) _ _ => destruct c
  | |- keeps _ _ _ (match (if ?c then _ else _) with _ => _ end) _ _ =>
      destruct c
  | |- keeps _ _ _ _ _ _ => solve [eauto with keep_db]
  end.

Ltac keep_auto := cbv zeta; repeat keep_step.

#[local] Hint Extern 1 (keeps _ _ _ (if ?c then _ else _) _ _) =>
  destruct c : keep_db.

Lemma add_keeps a b w :
  unchanged keep w0 w -> valid w a -> valid w b ->
  keeps keep w0 D (BigFloat.add a b) w (newer w0).
Proof. intros Hu Ha Hb. unfold BigFloat.add. keep_auto. Qed.
#[local] Hint Resolve add_keeps : keep_db.

Lemma sub_keeps a b w :
  unchanged keep w0 w -> valid w a -> valid w b ->
  keeps keep w0 D (BigFloat.sub a b) w (newer w0).
Proof. intros Hu Ha Hb. unfold BigFloat.sub. keep_auto. Qed.
#[local] Hint Resolve sub_keeps : keep_db.

Lemma mul_keeps a b w :
  unchanged keep w0 w -> valid w a -> valid w b ->
  keeps keep w0 D (BigFloat.mul a b) w (newer w0).
Proof. intros Hu Ha Hb. unfold BigFloat.mul. keep_auto. Qed.
#[local] Hint Resolve mul_keeps : keep_db.

Lemma neg_keeps a w :
  unchanged keep w0 w -> valid w a ->
  keeps keep w0 D (BigFloat.neg a) w (newer w0).
Proof. intros Hu Ha. unfold BigFloat.neg. keep_auto. Qed.

Lemma abs_keeps a w :
  unchanged keep w0 w -> valid w a ->
  keeps keep w0 D (BigFloat.abs a) w (newer w0).
Proof. intros Hu Ha. unfold BigFloat.abs. keep_auto. Qed.

Lemma fma_keeps a b c w :
  unchanged keep w0 w -> valid w a -> valid w b -> valid w c ->
  keeps keep w0 D (BigFloat.fma a b c) w (newer w0).
Proof. intros Hu Ha Hb Hc. unfold BigFloat.fma. keep_auto. Qed.

Lemma ldexp_keeps x exp w :
  unchanged keep w0 w -> valid w x ->
  keeps keep w0 D (BigFloat.ldexp x exp) w (newer w0).
Proof. intros Hu Hx. unfold BigFloat.ldexp. keep_auto. Qed.

Lemma frexp_keeps x w :
  unchanged keep w0 w -> valid w x ->
  keeps keep w0 D (BigFloat.frexp x) w (fun me w' => newer w0 (fst me) w').
Proof. intros Hu Hx. unfold BigFloat.frexp. keep_auto. Qed.

Lemma trunc_keeps x w :
  unchanged keep w0 w -> valid w x ->
  keeps keep w0 D (BigFloat.trunc x) w (newer w0).
Proof. intros Hu Hx. unfold BigFloat.trunc. keep_auto. Qed.
#[local] Hint Resolve trunc_keeps : keep_db.

Lemma floor_keeps x w :
  unchanged keep w0 w -> valid w x ->
  keeps keep w0 D (BigFloat.floor x) w (newer w0).
Proof. intros Hu Hx. unfold BigFloat.floor. keep_auto. Qed.

Lemma ceil_keeps x w :
  unchanged keep w0 w -> valid w x ->
  keeps keep w0 D (BigFloat.ceil x) w (newer w0).
Proof. intros Hu Hx. unfold BigFloat.ceil. keep_auto. Qed.

Lemma round_keeps x w :
  unchanged keep w0 w -> valid w x ->
  keeps keep w0 D (BigFloat.round x) w (newer w0).
Proof. intros Hu Hx. unfold BigFloat.round. keep_auto. Qed.

Lemma modf_keeps x w :
  unchanged keep w0 w -> valid w x ->
  keeps keep w0 D (BigFloat.modf x) w
    (fun p w' => newer w0 (fst p) w' /\ newer w0 (snd p) w').
Proof. intros Hu Hx. unfold BigFloat.modf. keep_auto. Qed.

Lemma succ_keeps x w :
  unchanged keep w0 w -> valid w x ->
  keeps keep w0 D (BigFloat.succ x) w (newer w0).
Proof. intros Hu Hx. unfold BigFloat.succ. keep_auto. Qed.
#[local] Hint Resolve succ_keeps : keep_db.

Lemma pred_keeps x w :
  unchanged keep w0 w -> valid w x ->
  keeps keep w0 D (BigFloat.pred x) w (newer w0).
Proof. intros Hu Hx. unfold BigFloat.pred. keep_auto. Qed.
#[local] Hint Resolve pred_keeps : keep_db.

Lemma equal_keeps a b w :
  unchanged keep w0 w -> valid w a -> valid w b ->
  keeps keep w0 D (BigFloat.equal a b) w any.
Proof. intros Hu Ha Hb. unfold BigFloat.equal. keep_auto. Qed.
#[local] Hint Resolve equal_keeps : keep_db.

Lemma less_keeps a b w :
  unchanged keep w0 w -> valid w a -> valid w b ->
  keeps keep w0 D (BigFloat.less a b) w any.
Proof. intros Hu Ha Hb. unfold BigFloat.less. keep_auto. Qed.
#[local] Hint Resolve less_keeps : keep_db.

Lemma greater_keeps a b w :
  unchanged keep w0 w -> valid w a -> valid w b ->
  keeps keep w0 D (BigFloat.greater a b) w any.
Proof. intros Hu Ha Hb. unfold BigFloat.greater. keep_auto. Qed.
#[local] Hint Resolve greater_keeps : keep_db.

Lemma notequal_keeps a b w :
  unchanged keep w0 w -> valid w a -> valid w b ->
  keeps keep w0 D (BigFloat.notequal a b) w any.
Proof. intros Hu Ha Hb. unfold BigFloat.notequal. keep_auto. Qed.

Lemma lessequal_keeps a b w :
  unchanged keep w0 w -> valid w a -> valid w b ->
  keeps keep w0 D (BigFloat.lessequal a b) w any.
Proof. intros Hu Ha Hb. unfold BigFloat.lessequal. keep_auto. Qed.

Lemma greaterequal_keeps a b w :
  unchanged keep w0 w -> valid w a -> valid w b ->
  keeps keep w0 D (BigFloat.greaterequal a b) w any.
Proof. intros Hu Ha Hb. unfold BigFloat.greaterequal. keep_auto. Qed.

Lemma cmp_keeps a b w :
  unchanged keep w0 w -> valid w a -> valid w b ->
  keeps keep w0 D (BigFloat.cmp a b) w any.
Proof. intros Hu Ha Hb. unfold BigFloat.cmp. keep_auto. Qed.

Lemma nextafter_keeps x towards w :
  unchanged keep w0 w -> valid w x -> valid w towards ->
  keeps keep w0 D (BigFloat.nextafter x towards) w (newer w0).
Proof. intros Hu Hx Ht. unfold BigFloat.nextafter. keep_auto. Qed.

Lemma clone_keeps this w :
  unchanged keep w0 w -> valid w this ->
  keeps keep w0 D (clone this) w (newer w0).
Proof. intros Hu Hx. unfold clone. keep_auto. Qed.

(** The Newton iterations may exhaust any given fuel. *)
Hypothesis out_of_fuel_allowed : D.

Lemma inverse_loop_keeps fuel v u two one bitPrec w :
  unchanged keep w0 w ->
  valid w v -> valid w u -> valid w two -> valid w one ->
  keeps keep w0 D (BigFloat.inverse_loop fuel v u two one bitPrec) w
    (newer w0).
Proof.
  revert u w. induction fuel as [|fuel IH]; intros u w Hu Hv Hu' Htwo Hone.
  - exact out_of_fuel_allowed.
  - cbn [BigFloat.inverse_loop]. keep_auto; apply IH; assumption.
Qed.
#[local] Hint Resolve inverse_loop_keeps : keep_db.

Lemma inverse_keeps fuel a w :
  unchanged keep w0 w -> valid w a ->
  keeps keep w0 D (BigFloat.inverse fuel a) w (newer w0).
Proof. intros Hu Ha. unfold BigFloat.inverse. keep_auto. Qed.
#[local] Hint Resolve inverse_keeps : keep_db.

Lemma sqrt_loop_keeps fuel normalized x three one targetPrec w :
  unchanged keep w0 w ->
  valid w normalized -> valid w x -> valid w three -> valid w one ->
  keeps keep w0 D (BigFloat.sqrt_loop fuel normalized x three one targetPrec)
    w (newer w0).
Proof.
  revert x w. induction fuel as [|fuel IH]; intros x w Hu Hn Hx Hthree Hone.
  - exact out_of_fuel_allowed.
  - cbn [BigFloat.sqrt_loop]. keep_auto; apply IH; assumption.
Qed.
#[local] Hint Resolve sqrt_loop_keeps : keep_db.

Lemma sqrt_keeps fuel y w :
  unchanged keep w0 w -> valid w y ->
  keeps keep w0 D (BigFloat.sqrt fuel y) w (newer w0).
Proof. intros Hu Hy. unfold BigFloat.sqrt. keep_auto. Qed.

(** [div] writes the precision of its second operand. *)
Lemma div_keeps fuel a b w :
  (forall p x, keep b (set_precision p x) = keep b x) ->
  unchanged keep w0 w -> valid w a -> valid w b ->
  keeps keep w0 D (BigFloat.div fuel a b) w (newer w0).
Proof.
  intros Hp Hu Ha Hb. unfold BigFloat.div.
  assert (Hm : forall p w', unchanged keep w0 w' -> valid w' b ->
                 keeps keep w0 D (modify b (set_precision p)) w' any)
    by (intros; apply keeps_modify_same; auto).
  keep_auto.
Qed.
#[local] Hint Resolve div_keeps : keep_db.

Lemma fmod_keeps fuel a b xb w :
  (forall p x, keep b (set_precision p x) = keep b x) ->
  unchanged keep w0 w -> valid w a -> objects w !! b = Some xb ->
  _significand xb <> 0 ->
  keeps keep w0 D (BigFloat.fmod fuel a b) w (newer w0).
Proof.
  intros Hp Hu Ha Hl Hsig. pose proof (lookup_valid _ _ _ Hl) as Hb.
  unfold BigFloat.fmod. apply (keeps_bind_get b xb); [assumption|].
  destruct (Z.eqb_spec (_significand xb) 0) as [?|_]; [contradiction|].
  keep_auto.
Qed.

End Frame.

Lemma keeps_frames {A} keep w0 D (c : M A) w Q :
  keeps keep w0 D c w Q -> frames keep w0 c w Q.
Proof. unfold keeps, frames. intros H a w' E. rewrite E in H. tauto. Qed.

Lemma bits_only_bits l k x : bits_only l (set_bits k x) = bits_only l x.
Proof. reflexivity. Qed.

Lemma bits_and_precision_bits b l k x :
  bits_and_precision_of b l (set_bits k x) = bits_and_precision_of b l x.
Proof. unfold bits_and_precision_of. now destruct (bool_decide (l = b)). Qed.

Lemma bits_and_precision_precision b p x :
  bits_and_precision_of b b (set_precision p x)
  = bits_and_precision_of b b x.
Proof.
  unfold bits_and_precision_of. now rewrite bool_decide_eq_true_2.
Qed.



(** X20: what the seven comparisons leave of the store: nothing is
    changed but remembered bit lengths.  [equal] and [notequal] return
    on any two objects of the store and do not throw; for [less],
    [greater], [lessequal], [greaterequal] and [cmp], whose BigInt
    shifts the host may refuse, this is what holds whenever they
    return. *)
Theorem comparisons_return (w : world) (a b : loc) :
  valid w a -> valid w b ->
  keeps bits_only w False (BigFloat.equal a b) w any
  /\ keeps bits_only w False (BigFloat.notequal a b) w any
  /\ frames bits_only w (BigFloat.less a b) w any
  /\ frames bits_only w (BigFloat.greater a b) w any
  /\ frames bits_only w (BigFloat.lessequal a b) w any
  /\ frames bits_only w (BigFloat.greaterequal a b) w any
  /\ frames bits_only w (BigFloat.cmp a b) w any.
Proof.
  intros Ha Hb.
  pose proof (unchanged_refl bits_only w) as Hu.
  repeat match goal with |- _ /\ _ => split end;
    try apply (keeps_frames bits_only w False).
  - now apply equal_keeps.
  - now apply notequal_keeps.
  - now apply less_keeps.
  - now apply greater_keeps.
  - now apply lessequal_keeps.
  - now apply greaterequal_keeps.
  - now apply cmp_keeps.
Qed.

(** X20 on the store that holds 7.5 and 0. *)
Lemma comparisons_return_witness :
  keeps bits_only two_objects False (BigFloat.equal 0%nat 1%nat) two_objects
    any
  /\ frames bits_only two_objects (BigFloat.cmp 0%nat 1%nat) two_objects any.
Proof.
  assert (H0 : valid two_objects 0%nat) by (unfold valid; cbn; lia).
  assert (H1 : valid two_objects 1%nat) by (unfold valid; cbn; lia).
  pose proof (comparisons_return two_objects 0%nat 1%nat H0 H1) as H.
  split; [exact (proj1 H)|].
  exact (proj2 (proj2 (proj2 (proj2 (proj2 (proj2 H)))))).
Defined.





(** ** Edge cases and exact cases *)

Lemma neg_run_zero_significand w a x :
  objects w !! a = Some x -> _significand x = 0 ->
  BigFloat.neg a w = Ret (length (objects w), snoc w x).
Proof.
  intros Ha Hs. unfold BigFloat.neg.
  rewrite (bind_new_copy a x) by assumption.
  rewrite (bind_get _ x) by apply lookup_snoc_last.
  rewrite Hs. cbn [Z.eqb]. now rewrite orb_true_r.
Qed.

Lemma neg_run_normal w a x :
  objects w !! a = Some x -> normal x ->
  BigFloat.neg a w
  = Ret (length (objects w), snoc w (set_sign (- _sign x) x)).
Proof.
  intros Ha (Hsp & Hs & _). unfold BigFloat.neg.
  rewrite (bind_new_copy a x) by assumption.
  rewrite (bind_get _ x) by apply lookup_snoc_last.
  rewrite Hsp. rewrite !bool_decide_eq_false_2 by discriminate.
  rewrite bool_decide_eq_true_2 by reflexivity.
  destruct (Z.eqb_spec (_significand x) 0) as [?|_]; [lia|].
  cbn [orb when].
  erewrite bind_modify by apply lookup_snoc_last.
  rewrite upd_snoc_last.
  now replace (_sign x * -1) with (- _sign x) by lia.
Qed.

(** X23: [neg] returns a copy with the sign flipped for a NORMAL
    operand, so that the number is negated; it returns an unchanged copy
    of every object whose significand is 0: of a zero and of NaN, and
    also of the infinities as the constructor builds them, whose sign is
    therefore not flipped. *)
Theorem neg_flips_sign_unless_significand_zero (w : world) (a : loc)
  (x : BigFloat) :
  objects w !! a = Some x ->
  (normal x ->
   BigFloat.neg a w
   = Ret (length (objects w), snoc w (set_sign (- _sign x) x))
   /\ (rational (set_sign (- _sign x) x) == - rational x)%Q)
  /\ (_significand x = 0 ->
      BigFloat.neg a w = Ret (length (objects w), snoc w x)).
Proof.
  intros Ha. split.
  - intros N. split; [now apply neg_run_normal|apply rational_opp].
  - now apply neg_run_zero_significand.
Qed.

(** X23 on +Infinity as the constructor builds it: the result is
    +Infinity. *)
Lemma neg_flips_sign_unless_significand_zero_witness :
  let inf := from_Number initial infinity None None in
  let w := snoc initial inf in
  _special inf = SPECIAL_INF /\ _sign inf = 1
  /\ BigFloat.neg (length (objects initial)) w
     = Ret (length (objects w), snoc w inf).
Proof.
  intros inf w. split; [reflexivity|]. split; [reflexivity|].
  apply (neg_flips_sign_unless_significand_zero w
           (length (objects initial)) inf (lookup_snoc_last _ _)).
  reflexivity.
Defined.

Lemma fma_run_infinities w a b c xa xb xc :
  objects w !! a = Some xa -> objects w !! b = Some xb ->
  objects w !! c = Some xc ->
  _special xa = SPECIAL_INF -> _special xb = SPECIAL_INF ->
  _significand xa = 0 \/ _significand xb = 0 ->
  _special xc <> SPECIAL_NAN ->
  BigFloat.fma a b c w
  = Ret (length (objects w), snoc w (from_Number w nan None None)).
Proof.
  intros Ha Hb Hc Ea Eb Hz Hn. unfold BigFloat.fma.
  rewrite (bind_get a xa), (bind_get b xb), (bind_get c xc) by assumption.
  rewrite Ea, Eb. rewrite (bool_decide_eq_false_2 (_special xc = _)) by assumption.
  rewrite !bool_decide_eq_false_2 by discriminate.
  rewrite !bool_decide_eq_true_2 by reflexivity.
  cbn [orb andb].
  destruct Hz as [E|E]; rewrite E; cbn [Z.eqb orb];
    rewrite ?orb_true_r; reflexivity.
Qed.

(** X24: an infinity whose significand is 0, as every infinity the
    constructor builds, is taken for a zero by the tests that look at
    the significand: [isZero] holds of it, [isPositive] and [isNegative]
    do not, and [fma] of two infinities returns NaN through its test for
    0 times infinity.  ([c] is any object but NaN.) *)
Theorem infinity_is_taken_for_zero (w : world) (a b c : loc)
  (xa xb xc : BigFloat) :
  objects w !! a = Some xa -> objects w !! b = Some xb ->
  objects w !! c = Some xc ->
  _special xa = SPECIAL_INF -> _significand xa = 0 ->
  _special xb = SPECIAL_INF -> _special xc <> SPECIAL_NAN ->
  isZero xa = true /\ isPositive xa = false /\ isNegative xa = false
  /\ isInfinite xa = true
  /\ BigFloat.fma a b c w
     = Ret (length (objects w), snoc w (from_Number w nan None None)).
Proof.
  intros Ha Hb Hc Ea Sa Eb Hn.
  unfold isZero, isPositive, isNegative, isInfinite. rewrite Ea, Sa.
  repeat split.
  eapply fma_run_infinities; eauto.
Qed.

(** X24 on +Infinity * +Infinity + 7.5. *)
Lemma infinity_is_taken_for_zero_witness :
  let inf := from_Number initial infinity None None in
  let w := mkWorld [inf; mkBigFloat 1 2 15 20 ROUNDING_NEAREST SPECIAL_NONE 4]
             20 ROUNDING_NEAREST in
  (isZero inf = true /\ isPositive inf = false /\ isNegative inf = false
   /\ isInfinite inf = true
   /\ BigFloat.fma 0%nat 0%nat 1%nat w
      = Ret (2%nat, snoc w (from_Number w nan None None)))
  /\ _sign inf = 1
  /\ _special (from_Number w nan None None) = SPECIAL_NAN.
Proof.
  intros inf w. split; [|split; reflexivity].
  apply (infinity_is_taken_for_zero w 0%nat 0%nat 1%nat inf inf _
           eq_refl eq_refl eq_refl eq_refl eq_refl eq_refl).
  discriminate.
Defined.

(** [clone] copies every field, the remembered bit length included. *)
Lemma clone_run w this x :
  objects w !! this = Some x ->
  clone this w = Ret (length (objects w), snoc w x).
Proof.
  intros Hl. unfold clone.
  rewrite bind_new_Number, from_Number_zero.
  rewrite (bind_get this x) by now apply lookup_snoc_old.
  repeat (erewrite bind_modify by apply lookup_snoc_last;
          rewrite upd_snoc_last).
  unfold fresh_this. now destruct x.
Qed.

Lemma equal_normal_fields w a b xa xb :
  objects w !! a = Some xa -> objects w !! b = Some xb ->
  normal xa -> normal xb ->
  BigFloat.equal a b w = Ret (true, w) ->
  _sign xa = _sign xb /\ _exponent xa = _exponent xb
  /\ _significand xa = _significand xb.
Proof.
  intros Ha Hb (Spa & _) (Spb & _). unfold BigFloat.equal.
  rewrite (bind_get2 a b xa xb) by assumption.
  rewrite Spa, Spb. rewrite !bool_decide_eq_false_2 by discriminate.
  cbn [orb andb]. intros E.
  assert (E' : (_sign xa =? _sign xb) && (_exponent xa =? _exponent xb)
               && (_significand xa =? _significand xb) = true)
    by (unfold mret, M_ret in E; congruence).
  apply andb_true_iff in E' as [E' E3]. apply andb_true_iff in E' as [E1 E2].
  rewrite Z.eqb_eq in E1, E2, E3. auto.
Qed.



(** With the wrong remembered bit length that C3 leaves, two objects
    with equal stored fields are equal for [equal] and different for
    [cmp]. *)
Example equal_and_cmp_on_a_wrong_bit_length :
  eval (a ← new_BigFloat (VBigInt 15) (Some 1) None;
        b ← new_BigFloat (VBigInt 17) (Some 1) None;
        p ← BigFloat.mul a b;
        q ← new_BigFloat (VBigInt 128) None None;
        e ← BigFloat.equal p q;
        c ← BigFloat.cmp p q;
        mret (e, c))
  = Ret (true, 1).
Proof. vm_compute; reflexivity. Qed.

Lemma rational_ldexp x e :
  (rational (cached (set_exponent (_exponent x + e) x))
   == rational x * 2 ^ e)%Q.
Proof.
  unfold rational, cached.
  cbn [_sign _significand _exponent set_exponent set_bits].
  replace (_exponent x + e - bitlen (_significand x) + 1)
    with (_exponent x - bitlen (_significand x) + 1 + e) by lia.
  rewrite Qpower_plus by discriminate. ring.
Qed.

Lemma ldexp_run w x xx e :
  objects w !! x = Some xx -> normal xx ->
  bitlen (_significand xx) <= targetBits (_precision xx) ->
  BigFloat.ldexp x e w
  = Ret (length (objects w),
         snoc w (cached (set_exponent (_exponent xx + e) xx))).
Proof.
  intros Hl (Hsp & Hs & Hsign & Hc) Hfit. unfold BigFloat.ldexp.
  rewrite (bind_get x xx) by assumption.
  rewrite Hsp. rewrite !bool_decide_eq_false_2 by discriminate.
  rewrite (bind_new_copy x xx) by assumption.
  repeat (erewrite bind_modify by apply lookup_snoc_last;
          rewrite upd_snoc_last).
  rewrite normalize_fits by assumption.
  unfold cached. destruct xx. cbn in Hsp. subst. reflexivity.
Qed.

(** X26: [ldexp(x, exp)] of a NORMAL operand whose significand fits its
    precision is exact: the new object has the significand of [x] and
    stands for [x * 2^exp].  The operand is within the range of the
    host and [exp] is at most [host_exponent] in magnitude, so that the
    sum of the exponents is exact. *)
Theorem ldexp_is_exact (w : world) (x : loc) (xx : BigFloat) (e : Z) :
  objects w !! x = Some xx -> normal xx ->
  within_host xx -> Z.abs e <= host_exponent ->
  bitlen (_significand xx) <= targetBits (_precision xx) ->
  BigFloat.ldexp x e w
  = Ret (length (objects w),
         snoc w (cached (set_exponent (_exponent xx + e) xx)))
  /\ (rational (cached (set_exponent (_exponent xx + e) xx))
      == rational xx * 2 ^ e)%Q.
Proof.
  intros Hl N _ _ Hfit. split; [now apply ldexp_run|apply rational_ldexp].
Qed.

(** X26 on 7.5 * 2^3. *)
Lemma ldexp_is_exact_witness :
  BigFloat.ldexp 0%nat 3 two_objects
  = Ret (2%nat,
         snoc two_objects
           (mkBigFloat 1 5 15 20 ROUNDING_NEAREST SPECIAL_NONE 4)).
Proof.
  refine (proj1 (ldexp_is_exact two_objects 0%nat _ 3 eq_refl _ _ _ _)).
  - unfold normal, cache_ok. cbn. repeat split; try lia. now right.
  - host_range.
  - host_range.
  - vm_compute. discriminate.
Defined.

Lemma sqrt_run_power_of_two w fuel y xy k :
  objects w !! y = Some xy ->
  _special xy = SPECIAL_NONE -> _sign xy = 1 -> _significand xy = 1 ->
  _exponent xy = 2 * k ->
  exists r,
    BigFloat.sqrt fuel y w = Ret (length (objects w), snoc w r)
    /\ (rational r * rational r == rational xy)%Q.
Proof.
  intros Hl Hsp Hsign Hsig Hexp. unfold BigFloat.sqrt.
  rewrite (bind_get y xy) by assumption.
  rewrite Hsp. rewrite !bool_decide_eq_false_2 by discriminate.
  rewrite Hsign, Hsig, Hexp. cbn [Z.ltb Z.compare Z.eqb Pos.eqb andb].
  assert (Hy : (rational xy == 2 ^ k * 2 ^ k)%Q).
  { unfold rational. rewrite Hsign, Hsig, Hexp.
    change (bitlen 1) with 1. change (inject_Z (1 * 1)) with 1%Q.
    replace (2 * k - 1 + 1) with (k + k) by lia.
    rewrite Qpower_plus by discriminate. ring. }
  destruct (Z.eqb_spec (2 * k) 0) as [E0|E0].
  - rewrite new_BigInt_run. eexists. split; [reflexivity|].
    rewrite Hy. replace k with 0 by lia. reflexivity.
  - replace (Z.rem (2 * k) 2) with 0
      by (symmetry; rewrite Z.mul_comm; apply Z.rem_mul; lia).
    cbn [Z.eqb].
    rewrite (bind_new_copy y xy) by assumption.
    erewrite bind_modify by apply lookup_snoc_last.
    rewrite upd_snoc_last.
    eexists. split; [reflexivity|].
    rewrite Hy. unfold rational.
    cbn [_sign _significand _exponent set_exponent].
    rewrite Hsign, Hsig. change (bitlen 1) with 1.
    change (inject_Z (1 * 1)) with 1%Q.
    replace (2 * k / 2 - 1 + 1) with k
      by (rewrite (Z.mul_comm 2 k), Z.div_mul; lia).
    ring.
Qed.

(** X27: the square root of an even power of two, [2^(2k)] held with
    significand 1, is returned without iteration and is exact: the
    result squared is the operand. *)
Theorem sqrt_of_even_power_of_two_is_exact (w : world) (fuel : nat)
  (y : loc) (xy : BigFloat) (k : Z) :
  objects w !! y = Some xy ->
  _special xy = SPECIAL_NONE -> _sign xy = 1 -> _significand xy = 1 ->
  _exponent xy = 2 * k ->
  exists r,
    BigFloat.sqrt fuel y w = Ret (length (objects w), snoc w r)
    /\ (rational r * rational r == rational xy)%Q.
Proof. exact (sqrt_run_power_of_two w fuel y xy k). Qed.

(** X27 on the square root of 1/16. *)
Lemma sqrt_of_even_power_of_two_is_exact_witness :
  let xy := mkBigFloat 1 (-4) 1 20 ROUNDING_NEAREST SPECIAL_NONE 0 in
  let w := mkWorld [xy] 20 ROUNDING_NEAREST in
  exists r,
    BigFloat.sqrt 0 0%nat w = Ret (1%nat, snoc w r)
    /\ (rational r * rational r == rational xy)%Q.
Proof.
  intros xy w.
  apply (sqrt_of_even_power_of_two_is_exact w 0 0%nat xy (-2));
    reflexivity.
Defined.

Lemma from_BigInt_normal w n precision rounding :
  n <> 0 -> normal (from_BigInt w n precision rounding).
Proof.
  intros Hn. rewrite from_BigInt_nonzero by assumption.
  unfold normal, cache_ok. cbn [_special _significand _sign _bits].
  repeat split; try lia.
  destruct (Z.ltb_spec n 0); [now right|now left].
Qed.

(** [modf] on a NORMAL operand: the integer part is the object [trunc]
    returns; the fractional part is [x] less that object. *)
Lemma modf_normal w x xx :
  objects w !! x = Some xx -> normal xx ->
  let f := fracBits xx in
  let q := Z.quot (_sign xx * _significand xx) (2 ^ f) in
  let I := if 0 <? f then
             from_BigInt w q (Some (_precision xx)) (Some (_rounding xx))
           else cached xx in
  exists w' F,
    BigFloat.modf x w
    = Ret ((length (objects w), S (S (length (objects w)))), w')
    /\ objects w' !! S (S (length (objects w))) = Some F
    /\ if (0 <? f) && (q =? 0) then F = cached xx
       else ((rational xx - rational I == 0)%Q
             /\ F = from_BigInt w 0 None None)
            \/ exists P,
                 F = _normalize P /\ normal P
                 /\ _precision P = Z.max (_precision xx) (_precision I)
                 /\ _rounding P = _rounding xx
                 /\ (rational P == rational xx - rational I)%Q.
Proof.
  intros Hl N f q I.
  pose proof N as (Hsp & Hs & Hsign & Hc).
  unfold BigFloat.modf. rewrite (bind_get x xx) by assumption.
  rewrite Hsp. rewrite !bool_decide_eq_false_2 by discriminate.
  rewrite (bind_run _ _ _ _ _ (trunc_run w x xx Hl N)).
  fold f q I.
  set (W1 := snoc (upd w x (cached xx)) I).
  assert (HL : length (objects W1) = S (length (objects w))).
  { unfold W1. cbn [objects snoc]. rewrite length_app.
    change (length (objects (upd w x (cached xx))) + 1
            = S (length (objects w)))%nat.
    rewrite length_upd. cbn. lia. }
  assert (Hx1 : objects W1 !! x = Some (cached xx))
    by (apply lookup_snoc_old; eapply lookup_upd_eq; eassumption).
  assert (Hi1 : objects W1 !! length (objects w) = Some I).
  { unfold W1. rewrite <- (length_upd w x (cached xx)).
    apply lookup_snoc_last. }
  destruct (Z.ltb_spec 0 f) as [Hf|Hf];
    [destruct (Z.eqb_spec q 0) as [Hq|Hq]|]; cbn [andb].
  - (* |x| < 1: the integer part is the zero of the constructor *)
    assert (HL2 : length (objects (snoc W1 (set_sign (- _sign I) I)))
                  = S (S (length (objects w))))
      by (cbn [objects snoc]; rewrite length_app, HL; cbn; lia).
    assert (E : BigFloat.sub x (length (objects w)) W1
                = Ret (S (S (length (objects w))),
                       snoc (snoc W1 (set_sign (- _sign I) I)) (cached xx))).
    { unfold BigFloat.sub.
      rewrite (bind_new_copy _ I) by assumption.
      erewrite bind_modify by apply lookup_snoc_last.
      rewrite upd_snoc_last.
      unfold BigFloat.add.
      rewrite (bind_get2 x (length (objects W1)) (cached xx)
                 (set_sign (- _sign I) I))
        by first [apply lookup_snoc_last | apply lookup_snoc_old; assumption].
      change (_special (cached xx)) with (_special xx). rewrite Hsp.
      assert (HI : _special (set_sign (- _sign I) I) = SPECIAL_ZERO)
        by (unfold I; rewrite Hq; reflexivity).
      rewrite HI. rewrite !bool_decide_eq_false_2 by discriminate.
      rewrite bool_decide_eq_true_2 by reflexivity.
      cbn [truthy orb andb].
      rewrite (new_copy_run x (cached xx)) by now apply lookup_snoc_old.
      now rewrite HL2. }
    rewrite (bind_run _ _ _ _ _ E).
    eexists _, _. split; [reflexivity|]. split; [|reflexivity].
    rewrite <- HL2. apply lookup_snoc_last.
  - destruct (sub_normal W1 x (length (objects w)) (cached xx) I Hx1 Hi1
                (cached_normal _ N)) as (w' & E & H).
    { unfold I. now apply from_BigInt_normal. }
    rewrite HL in E, H. rewrite (bind_run _ _ _ _ _ E).
    destruct H as [[H1 H2]|(P & H1 & H2 & H3 & H4 & H5)].
    + exists w', (from_BigInt w 0 None None).
      split; [reflexivity|]. split; [exact H2|]. left. now split.
    + exists w', (_normalize P).
      split; [reflexivity|]. split; [exact H1|]. right. exists P.
      split; [reflexivity|]. split; [exact H2|]. split; [exact H3|].
      split; [exact H4|exact H5].
  - destruct (sub_normal W1 x (length (objects w)) (cached xx) I Hx1 Hi1
                (cached_normal _ N)) as (w' & E & H).
    { unfold I. now apply cached_normal. }
    rewrite HL in E, H. rewrite (bind_run _ _ _ _ _ E).
    destruct H as [[H1 H2]|(P & H1 & H2 & H3 & H4 & H5)].
    + exists w', (from_BigInt w 0 None None).
      split; [reflexivity|]. split; [exact H2|]. left. now split.
    + exists w', (_normalize P).
      split; [reflexivity|]. split; [exact H1|]. right. exists P.
      split; [reflexivity|]. split; [exact H2|]. split; [exact H3|].
      split; [exact H4|exact H5].
Qed.




(** ** The predicates *)

Lemma rational_frac x :
  rational x
  = (inject_Z (_sign x * _significand x) * 2 ^ (- fracBits x))%Q.
Proof. unfold rational, fracBits. do 2 f_equal. lia. Qed.

Lemma two_power_cancel f : (2 ^ f * 2 ^ (- f) == 1)%Q.
Proof.
  rewrite <- Qpower_plus by discriminate.
  now replace (f + - f) with 0 by lia.
Qed.

Lemma isInteger_normal x :
  normal x ->
  isInteger x
  = (if fracBits x <=? 0 then true
     else _significand x mod 2 ^ fracBits x =? 0, cached x).
Proof.
  intros (Hsp & Hs & Hsign & Hc). unfold isInteger. rewrite Hsp.
  rewrite bool_decide_eq_false_2 by discriminate.
  destruct (Z.eqb_spec (_significand x) 0) as [?|_]; [lia|].
  cbn [orb]. rewrite bitlength_cached by assumption.
  change (_exponent (cached x)) with (_exponent x).
  change (_significand (cached x)) with (_significand x).
  fold (fracBits x).
  destruct (Z.leb_spec (fracBits x) 0) as [Hf|Hf]; [reflexivity|].
  now rewrite land_mask_mod by lia.
Qed.

(** X29: [isInteger] is right on NORMAL objects within the range of the
    host whose fraction bits are fewer than [host_bits] (so that the
    mask [1n << BigInt(fracBits)] exists): it answers true exactly when
    the number the object stands for is an integer. *)
Theorem isInteger_decides_integrality (x : BigFloat) :
  normal x -> within_host x -> fracBits x < host_bits ->
  fst (isInteger x) = true <-> exists n : Z, (rational x == inject_Z n)%Q.
Proof.
  intros N _ _. rewrite (isInteger_normal x N). cbn [fst].
  destruct N as (Hsp & Hs & Hsign & Hc).
  rewrite rational_frac. set (f := fracBits x).
  destruct (Z.leb_spec f 0) as [Hf|Hf].
  - split; [intros _|reflexivity].
    exists (_sign x * _significand x * 2 ^ (- f)).
    rewrite (inject_Z_mult _ (2 ^ _)), Zpower_Qpower by lia. reflexivity.
  - rewrite Z.eqb_eq. split.
    + intros Hm. apply Z.mod_divide in Hm; [|lia]. destruct Hm as [m Hm].
      exists (_sign x * m). rewrite Hm.
      replace (_sign x * (m * 2 ^ f)) with (_sign x * m * 2 ^ f) by ring.
      rewrite (inject_Z_mult _ (2 ^ f)), Zpower_Qpower by lia.
      change (inject_Z 2) with 2%Q.
      rewrite <- Qmult_assoc, two_power_cancel. ring.
    + intros [n Hn].
      assert (E : _sign x * _significand x = n * 2 ^ f).
      { apply inject_Z_injective.
        rewrite (inject_Z_mult n), Zpower_Qpower by lia.
        change (inject_Z 2) with 2%Q. rewrite <- Hn.
        rewrite <- Qmult_assoc, (Qmult_comm (2 ^ (- f))), two_power_cancel.
        ring. }
      assert (E' : _significand x = _sign x * n * 2 ^ f)
        by (destruct Hsign as [E1|E1]; rewrite E1 in *; lia).
      rewrite E'. apply Z.mod_mul. lia.
Qed.

(** X29 on 6 held as 3 * 2^1. *)
Lemma isInteger_decides_integrality_witness :
  fst (isInteger (mkBigFloat 1 2 3 20 ROUNDING_NEAREST SPECIAL_NONE 0))
  = true.
Proof.
  apply (isInteger_decides_integrality
           (mkBigFloat 1 2 3 20 ROUNDING_NEAREST SPECIAL_NONE 0)).
  - unfold normal, cache_ok. cbn. repeat split; try lia.
  - host_range.
  - host_range.
  - exists 6. reflexivity.
Defined.

Lemma land_one n : Z.land n 1 = n mod 2.
Proof. change 1 with (Z.ones 1) at 1. now rewrite Z.land_ones by lia. Qed.

(** X30: [isEven] and [isOdd] read the lowest bit of the stored
    significand.  On a NORMAL object without bits right of the binary
    point they answer by the parity of the significand, which is the
    parity of the number only when the lowest stored bit is the units
    bit: with [fracBits < 0] the number is even whatever the
    significand, so that 4 held as 1 * 2^2 is reported odd. *)
Theorem parity_reads_lowest_stored_bit (x : BigFloat) :
  normal x -> fracBits x <= 0 ->
  fst (isEven x) = Z.even (_significand x)
  /\ fst (isOdd x) = Z.odd (_significand x)
  /\ (fracBits x < 0 -> exists m : Z, (rational x == inject_Z (2 * m))%Q).
Proof.
  intros N Hf. unfold isEven, isOdd. rewrite (isInteger_normal x N).
  destruct (Z.leb_spec (fracBits x) 0) as [_|?]; [|lia].
  destruct N as (Hsp & Hs & Hsign & Hc).
  unfold isZero. change (_special (cached x)) with (_special x).
  change (_significand (cached x)) with (_significand x).
  rewrite Hsp, bool_decide_eq_false_2 by discriminate.
  destruct (Z.eqb_spec (_significand x) 0) as [?|_]; [lia|].
  cbn [negb orb fst]. rewrite land_one.
  split; [now rewrite Zeven_mod|]. split; [now rewrite Zodd_mod|].
  intros Hlt. exists (_sign x * _significand x * 2 ^ (- fracBits x - 1)).
  rewrite rational_frac.
  replace (2 * (_sign x * _significand x * 2 ^ (- fracBits x - 1)))
    with (_sign x * _significand x * 2 ^ (- fracBits x)).
  - rewrite (inject_Z_mult _ (2 ^ _)), Zpower_Qpower by lia. reflexivity.
  - replace (- fracBits x) with (- fracBits x - 1 + 1) at 1 by lia.
    rewrite Z.pow_add_r by lia. ring.
Qed.

(** X30 on 4 held as 1 * 2^2: [isOdd] answers true. *)
Lemma parity_reads_lowest_stored_bit_witness :
  let x := mkBigFloat 1 2 1 20 ROUNDING_NEAREST SPECIAL_NONE 0 in
  fst (isOdd x) = true /\ fst (isEven x) = false
  /\ (rational x == inject_Z 4)%Q.
Proof.
  intros x.
  assert (N : normal x)
    by (unfold normal, cache_ok; cbn; repeat split; try lia).
  assert (Hf : fracBits x <= 0) by (vm_compute; discriminate).
  pose proof (parity_reads_lowest_stored_bit x N Hf) as (He & Ho & _).
  split; [exact Ho|]. split; [exact He|]. reflexivity.
Defined.
